(** * Open-Unmix (PyTorch): the separation pipeline of [model.py]

    A shallow embedding of [src/model.py]: the modules [NoOp], [STFT],
    [Spectrogram], [OpenUnmix] and [Separator], over a small model of
    torch tensors (a shape and its row-major data), Python exceptions as
    an error monad, and a store of tensor storages where the source
    updates tensors in place.

    Floating-point numbers are idealised as real numbers: no rounding,
    no overflow to infinity and no NaN.  What is proved of the values of
    entries is proved of the runs in which no value overflows; the shapes,
    the control flow and the errors raised do not depend on it.  The routines
    that [model.py] only calls ([torch.stft],
    [torchaudio.functional.istft], the [torch.nn] layers and
    [filtering.wiener]) are parameters of the development.  [load_models]
    and [freeze], which read files and mark parameters, are left out. *)

From Stdlib Require Import String.
From Stdlib Require Import List ZArith Reals Lra Lia Bool Arith.
Import ListNotations.

Local Open Scope nat_scope.

(** ** Python exceptions and results *)

Inductive exn : Type :=
| Exception (msg : string)
| StopIteration
| IndexError
| ValueError
| RuntimeError
| AttributeError.

(** [OutOfFuel] is not a Python outcome: it is what a bounded loop of the
    model returns when its bound is too small. *)
Inductive result (A : Type) : Type :=
| Ok (a : A)
| Raise (e : exn)
| OutOfFuel.

Arguments Ok {A} a.
Arguments Raise {A} e.
Arguments OutOfFuel {A}.

Definition bind {A B : Type} (r : result A) (k : A -> result B) : result B :=
  match r with
  | Ok a => k a
  | Raise e => Raise e
  | OutOfFuel => OutOfFuel
  end.

Notation "x <- r ;; k" := (bind r (fun x => k))
  (at level 61, r at next level, right associativity).

Definition fmap {A B : Type} (f : A -> B) (r : result A) : result B :=
  x <- r ;; Ok (f x).

(** ** Tensors: a shape and row-major data *)

Module Torch.

Record Tensor : Type := mkTensor { shape : list nat; data : list R }.

Definition numel (sh : list nat) : nat := fold_right Nat.mul 1 sh.

Fixpoint ravel (sh idx : list nat) : nat :=
  match sh, idx with
  | _ :: sh', i :: idx' => i * numel sh' + ravel sh' idx'
  | _, _ => 0
  end.

Fixpoint unravel (sh : list nat) (k : nat) : list nat :=
  match sh with
  | [] => []
  | _ :: sh' => (k / numel sh') :: unravel sh' (k mod numel sh')
  end.

Fixpoint in_bounds (sh idx : list nat) : bool :=
  match sh, idx with
  | [], [] => true
  | d :: sh', i :: idx' => (i <? d) && in_bounds sh' idx'
  | _, _ => false
  end.

Definition get (t : Tensor) (idx : list nat) : R :=
  nth (ravel (shape t) idx) (data t) 0%R.

Definition build (sh : list nat) (f : list nat -> R) : Tensor :=
  mkTensor sh (map (fun k => f (unravel sh k)) (seq 0 (numel sh))).

Definition zeros (sh : list nat) : Tensor := build sh (fun _ => 0%R).

Definition dim (t : Tensor) : nat := length (shape t).

(** [x.shape[i]] for a non-negative [i]. *)
Definition size_at (t : Tensor) (i : nat) : result nat :=
  match nth_error (shape t) i with
  | Some d => Ok d
  | None => Raise IndexError
  end.

(** [x.shape[-1]]. *)
Definition size_last (t : Tensor) : result nat :=
  match rev (shape t) with
  | d :: _ => Ok d
  | [] => Raise IndexError
  end.

(** *** Element-wise operations *)

Definition map_tensor (f : R -> R) (t : Tensor) : Tensor :=
  mkTensor (shape t) (map f (data t)).

Definition relu (x : R) : R := Rmax 0 x.

(** [x ** p] for a real exponent, on the inputs where torch returns a
    finite number: zero to a positive power is zero. *)
Definition pow_real (x p : R) : R :=
  if Req_dec_T x 0
  then (if Req_dec_T p 0 then 1%R else 0%R)
  else Rpower x p.

(** Broadcasting of two shapes, aligned on their trailing axes. *)
Fixpoint broadcast_rev (a b : list nat) : result (list nat) :=
  match a, b with
  | [], _ => Ok b
  | _, [] => Ok a
  | x :: a', y :: b' =>
      r <- broadcast_rev a' b' ;;
      if x =? y then Ok (x :: r)
      else if x =? 1 then Ok (y :: r)
      else if y =? 1 then Ok (x :: r)
      else Raise RuntimeError
  end.

Definition broadcast_shapes (a b : list nat) : result (list nat) :=
  fmap (@rev nat) (broadcast_rev (rev a) (rev b)).

Fixpoint clamp_index (sh idx : list nat) : list nat :=
  match sh, idx with
  | d :: sh', i :: idx' => (if d =? 1 then 0 else i) :: clamp_index sh' idx'
  | _, _ => []
  end.

(** The index into an operand of shape [sh] that the index [idx] of the
    broadcast result reads. *)
Definition bcast_index (sh idx : list nat) : list nat :=
  clamp_index sh (skipn (length idx - length sh) idx).

Definition get_bcast (t : Tensor) (idx : list nat) : R :=
  get t (bcast_index (shape t) idx).

Definition binop (f : R -> R -> R) (a b : Tensor) : result Tensor :=
  sh <- broadcast_shapes (shape a) (shape b) ;;
  Ok (build sh (fun idx => f (get_bcast a idx) (get_bcast b idx))).

Definition mul (a b : Tensor) : result Tensor := binop Rmult a b.

(** *** Shape manipulation *)

Definition is_permutation (dims : list nat) (n : nat) : bool :=
  (length dims =? n) && forallb (fun d => existsb (Nat.eqb d) dims) (seq 0 n).

Fixpoint index_of (d : nat) (dims : list nat) : nat :=
  match dims with
  | [] => 0
  | x :: dims' => if x =? d then 0 else S (index_of d dims')
  end.

(** [t.permute] with the axes [dims]: axis [k] of the result is axis [dims[k]] of [t]. *)
Definition permute (dims : list nat) (t : Tensor) : result Tensor :=
  if is_permutation dims (dim t)
  then Ok (build (map (fun d => nth d (shape t) 0) dims)
             (fun idx =>
                get t (map (fun d => nth (index_of d dims) idx 0)
                         (seq 0 (dim t)))))
  else Raise RuntimeError.

Definition swap_axes (a b n : nat) : list nat :=
  map (fun d => if d =? a then b else if d =? b then a else d) (seq 0 n).

Definition transpose (a b : nat) (t : Tensor) : result Tensor :=
  if (a <? dim t) && (b <? dim t)
  then permute (swap_axes a b (dim t)) t
  else Raise IndexError.

(** The shape a [reshape] or [view] request denotes for [n] elements; one
    entry may be [-1]. *)
Definition infer_shape (n : nat) (spec : list Z) : result (list nat) :=
  if existsb (fun z => (z <? -1)%Z) spec then Raise RuntimeError
  else
    let known :=
      fold_right Nat.mul 1
        (map Z.to_nat (filter (fun z => negb (z =? -1)%Z) spec)) in
    match length (filter (fun z => (z =? -1)%Z) spec) with
    | 0 => if known =? n then Ok (map Z.to_nat spec) else Raise RuntimeError
    | 1 =>
        if known =? 0 then Raise RuntimeError
        else if n mod known =? 0
        then Ok (map (fun z => if (z =? -1)%Z then n / known else Z.to_nat z)
                   spec)
        else Raise RuntimeError
    | _ => Raise RuntimeError
    end.

(** [t.reshape(spec)], and [t.contiguous().view(spec)]: the row-major data
    is kept. *)
Definition reshape (spec : list Z) (t : Tensor) : result Tensor :=
  sh <- infer_shape (numel (shape t)) spec ;;
  Ok (mkTensor sh (data t)).

(** *** Reductions *)

Definition sum_range (n : nat) (f : nat -> R) : R :=
  fold_right (fun k acc => (f k + acc)%R) 0%R (seq 0 n).

(** [t.sum(-1)]. *)
Definition sum_last (t : Tensor) : result Tensor :=
  d <- size_last t ;;
  Ok (build (removelast (shape t))
        (fun idx => sum_range d (fun k => get t (idx ++ [k])))).

(** [torch.mean(t, 1, keepdim=True)]. *)
Definition mean_dim1_keepdim (t : Tensor) : result Tensor :=
  match shape t with
  | b :: c :: rest =>
      Ok (build (b :: 1 :: rest)
            (fun idx =>
               match idx with
               | i :: _ :: tl =>
                   (sum_range c (fun k => get t (i :: k :: tl)) / INR c)%R
               | _ => 0%R
               end))
  | _ => Raise IndexError
  end.

(** *** Slices and indexed assignment *)

(** The shape of [t[..., :k]]. *)
Definition narrow_last_shape (sh : list nat) (k : nat) : result (list nat) :=
  match rev sh with
  | d :: r => Ok (rev (Nat.min k d :: r))
  | [] => Raise IndexError
  end.

(** [torch.cat([a, b], -1)]. *)
Definition cat_last (a b : Tensor) : result Tensor :=
  da <- size_last a ;;
  db <- size_last b ;;
  if list_eq_dec Nat.eq_dec (removelast (shape a)) (removelast (shape b))
  then Ok (build (removelast (shape a) ++ [da + db])
             (fun idx =>
                let k := last idx 0 in
                if k <? da then get a idx
                else get b (removelast idx ++ [k - da])))
  else Raise RuntimeError.

(** [t[..., j] = v], with [v] broadcast to the slot. *)
Definition set_last (t : Tensor) (j : nat) (v : Tensor) : result Tensor :=
  d <- size_last t ;;
  if j <? d then
    sh <- broadcast_shapes (shape v) (removelast (shape t)) ;;
    if list_eq_dec Nat.eq_dec sh (removelast (shape t))
    then Ok (build (shape t)
               (fun idx =>
                  if last idx 0 =? j then get_bcast v (removelast idx)
                  else get t idx))
    else Raise RuntimeError
  else Raise IndexError.

(** A Python index into an axis of size [d]; negative indices count from
    the end. *)
Definition norm_index (d : nat) (z : Z) : result nat :=
  if ((0 <=? z) && (z <? Z.of_nat d))%Z then Ok (Z.to_nat z)
  else if ((- Z.of_nat d <=? z) && (z <? 0))%Z
       then Ok (Z.to_nat (z + Z.of_nat d))
       else Raise IndexError.

Fixpoint norm_indices (d : nat) (t : list Z) : result (list nat) :=
  match t with
  | [] => Ok []
  | z :: t' =>
      i <- norm_index d z ;;
      r <- norm_indices d t' ;;
      Ok (i :: r)
  end.

(** [x[sample, t]] for an integer [sample] and an index tensor [t]: the
    rows [t] of axis 1 of item [sample]. *)
Definition index_rows (x : Tensor) (sample : nat) (t : list Z)
  : result Tensor :=
  match shape x with
  | b :: f :: rest =>
      if sample <? b then
        rows <- norm_indices f t ;;
        Ok (build (length rows :: rest)
              (fun idx =>
                 match idx with
                 | k :: tl => get x (sample :: nth k rows 0 :: tl)
                 | [] => 0%R
                 end))
      else Raise IndexError
  | _ => Raise IndexError
  end.

Fixpoint find_index (i : nat) (rows : list nat) : option nat :=
  match rows with
  | [] => None
  | r :: rows' =>
      if r =? i then Some 0
      else match find_index i rows' with
           | Some k => Some (S k)
           | None => None
           end
  end.

(** [x[sample, t] = v], with [v] broadcast to the slot; [t] has no
    repeated index in the source, being a [torch.arange]. *)
Definition index_put_rows (x : Tensor) (sample : nat) (t : list Z)
  (v : Tensor) : result Tensor :=
  match shape x with
  | b :: f :: rest =>
      if sample <? b then
        rows <- norm_indices f t ;;
        sh <- broadcast_shapes (shape v) (length rows :: rest) ;;
        if list_eq_dec Nat.eq_dec sh (length rows :: rest)
        then Ok (build (shape x)
                   (fun idx =>
                      match idx with
                      | s :: i :: tl =>
                          if s =? sample then
                            match find_index i rows with
                            | Some k => get_bcast v (k :: tl)
                            | None => get x idx
                            end
                          else get x idx
                      | _ => 0%R
                      end))
        else Raise RuntimeError
      else Raise IndexError
  | _ => Raise IndexError
  end.

(** [torch.arange(a, b)]: the integers from [a] up to [b - 1]. *)
Definition arange (a b : Z) : result (list Z) :=
  if (b <? a)%Z then Raise RuntimeError
  else Ok (map (fun k => (a + Z.of_nat k)%Z) (seq 0 (Z.to_nat (b - a)))).

(** [t[-1]] on a one-dimensional index tensor. *)
Definition last_item (t : list Z) : result Z :=
  match rev t with
  | z :: _ => Ok z
  | [] => Raise IndexError
  end.

End Torch.

Import Torch.

(** ** Tensor storage

    A caller's tensor and the views taken of it share one storage.  The
    only views [model.py] takes before writing in place are the slices
    [x[..., :k]], whose elements sit at the same indices of the storage:
    a handle is a storage location and the shape of the view. *)

Record handle : Type := mkHandle { h_loc : nat; h_shape : list nat }.

Definition heap : Type := list Tensor.

Definition load (h : heap) (x : handle) : result Tensor :=
  match nth_error h (h_loc x) with
  | Some base => Ok (build (h_shape x) (get base))
  | None => Raise RuntimeError
  end.

Definition alloc (h : heap) (t : Tensor) : handle * heap :=
  (mkHandle (length h) (shape t), h ++ [t]).

Fixpoint update {A : Type} (l : list A) (n : nat) (a : A) : list A :=
  match l, n with
  | [], _ => []
  | _ :: l', O => a :: l'
  | x :: l', S n' => x :: update l' n' a
  end.

(** [x op= v] on a tensor value: [v] is broadcast to the shape of [x]. *)
Definition inplace (f : R -> R -> R) (x v : Tensor) : result Tensor :=
  sh <- broadcast_shapes (shape x) (shape v) ;;
  if list_eq_dec Nat.eq_dec sh (shape x)
  then Ok (build (shape x) (fun idx => f (get x idx) (get_bcast v idx)))
  else Raise RuntimeError.

(** [x op= v] through a view: the storage behind [x] is written. *)
Definition inplace_view (f : R -> R -> R) (h : heap) (x : handle)
  (v : Tensor) : result heap :=
  match nth_error h (h_loc x) with
  | Some base =>
      sh <- broadcast_shapes (h_shape x) (shape v) ;;
      if list_eq_dec Nat.eq_dec sh (h_shape x)
      then Ok (update h (h_loc x)
                 (build (shape base)
                    (fun idx =>
                       if in_bounds (h_shape x) idx
                       then f (get base idx) (get_bcast v idx)
                       else get base idx)))
      else Raise RuntimeError
  | None => Raise RuntimeError
  end.

(** ** The modules of [model.py] *)

Inductive PyValue : Type :=
| PyDict (items : list (string * Tensor))
| PyTensor (t : Tensor).

(** The trainable layers of one estimator; [lstm] returns the output
    sequence, [lstm_out[0]] in the source. *)
Record Layers : Type := mkLayers {
  fc1 : Tensor -> result Tensor;
  bn1 : Tensor -> result Tensor;
  lstm : Tensor -> result Tensor;
  fc2 : Tensor -> result Tensor;
  bn2 : Tensor -> result Tensor;
  fc3 : Tensor -> result Tensor;
  bn3 : Tensor -> result Tensor
}.

Record STFT : Type := mkSTFT {
  window : Tensor;
  n_fft : nat;
  n_hop : nat;
  center : bool
}.

Record Spectrogram : Type := mkSpectrogram { power : R; mono : bool }.

Record OpenUnmix : Type := mkOpenUnmix {
  nb_output_bins : nat;
  nb_bins : nat;
  hidden_size : nat;
  stft : STFT;
  spec : Spectrogram;
  sample_rate : Z;
  input_is_spectrogram : bool;
  layers : Layers;
  input_mean : Tensor;
  input_scale : Tensor;
  output_scale : Tensor;
  output_mean : Tensor
}.

Record Separator : Type := mkSeparator {
  niter : Z;
  residual : option string;
  batch_size : option Z;
  targets : list (string * OpenUnmix);
  nb_targets : nat;
  sep_sample_rate : Z
}.

(** One invocation of [filtering.wiener]: the frames of the window and
    the arguments passed. *)
Record WienerCall : Type := mkWienerCall {
  wc_sample : nat;
  wc_frames : list Z;
  wc_spectrograms : Tensor;
  wc_mix_stft : Tensor;
  wc_iterations : Z;
  wc_use_softmask : bool;
  wc_residual : option string
}.

Definition vector (l : list R) : Tensor := mkTensor [length l] l.

Definition ones (n : nat) : Tensor := vector (repeat 1%R n).

Definition em_error_message : string :=
  "Cannot use EM if only one target is estimated.Provide two targets or create an additional one with `--residual`".

Section Model.

(** *** Library routines called by [model.py] *)

(** [torch.hann_window]. *)
Variable hann_window : nat -> Tensor.

(** [torch.stft(x, n_fft, hop_length, window, center, normalized,
    onesided, pad_mode)]. *)
Variable torch_stft :
  Tensor -> nat -> nat -> Tensor -> bool -> bool -> bool -> string ->
  result Tensor.

(** [torchaudio.functional.istft(stft_matrix, n_fft, hop_length, window,
    center, normalized, onesided, pad_mode, length)]. *)
Variable istft :
  Tensor -> nat -> nat -> Tensor -> bool -> bool -> bool -> string -> nat ->
  result Tensor.

(** [filtering.wiener(targets_spectrograms, mix_stft, iterations,
    use_softmask, residual)]. *)
Variable wiener :
  Tensor -> Tensor -> Z -> bool -> option string -> result Tensor.

(** *** [NoOp] *)

Definition NoOp_forward (x : handle) : handle := x.

(** *** [STFT] *)

Definition STFT_init (n_fft n_hop : nat) (center : bool) : STFT :=
  mkSTFT (hann_window n_fft) n_fft n_hop center.

Definition STFT_forward (self : STFT) (x : Tensor) : result Tensor :=
  match shape x with
  | [nb_samples; nb_channels; nb_timesteps] =>
      x <- reshape [Z.of_nat (nb_samples * nb_channels); (-1)%Z] x ;;
      stft_f <- torch_stft x (n_fft self) (n_hop self) (window self)
                  (center self) false true "reflect" ;;
      reshape [Z.of_nat nb_samples; Z.of_nat nb_channels;
               Z.of_nat (n_fft self / 2 + 1); (-1)%Z; 2%Z] stft_f
  | _ => Raise ValueError
  end.

(** *** [Spectrogram] *)

Definition Spectrogram_forward (self : Spectrogram) (stft_f : Tensor)
  : result Tensor :=
  stft_f <- transpose 2 3 stft_f ;;
  stft_f <- sum_last (map_tensor (fun v => (v * v)%R) stft_f) ;;
  let stft_f := map_tensor (fun v => pow_real v (power self / 2)) stft_f in
  stft_f <- (if mono self then mean_dim1_keepdim stft_f else Ok stft_f) ;;
  permute [2; 0; 1; 3] stft_f.

(** *** [OpenUnmix] *)

(** The constructor.  The layers it creates, the LSTM among them with its
    [nb_layers] and [unidirectional], come as [layers]; [if max_bin] is
    false for [None] and for [0]. *)
Definition OpenUnmix_init (n_fft n_hop : nat) (input_is_spectrogram : bool)
  (hidden_size nb_channels : nat) (sample_rate : Z)
  (input_mean input_scale : option (list R)) (max_bin : option nat)
  (power : R) (layers : Layers) : OpenUnmix :=
  let nb_output_bins := n_fft / 2 + 1 in
  let nb_bins :=
    match max_bin with
    | Some (S k) => S k
    | _ => nb_output_bins
    end in
  mkOpenUnmix nb_output_bins nb_bins hidden_size
    (STFT_init n_fft n_hop true)
    (mkSpectrogram power (nb_channels =? 1))
    sample_rate input_is_spectrogram layers
    (match input_mean with
     | Some m => vector (map Ropp (firstn nb_bins m))
     | None => vector (repeat 0%R nb_bins)
     end)
    (match input_scale with
     | Some s => vector (map (fun v => (1 / v)%R) (firstn nb_bins s))
     | None => ones nb_bins
     end)
    (ones nb_output_bins)
    (ones nb_output_bins).

(** [self.transform(x)]: [NoOp] hands back its argument, the same tensor;
    [nn.Sequential(self.stft, self.spec)] computes a new one. *)
Definition OpenUnmix_transform (self : OpenUnmix) (x : handle) (h : heap)
  : result (handle * heap) :=
  if input_is_spectrogram self then Ok (NoOp_forward x, h)
  else
    v <- load h x ;;
    s <- STFT_forward (stft self) v ;;
    p <- Spectrogram_forward (spec self) s ;;
    Ok (alloc h p).

(** Lines 284 to 308: the layers between the input and the output
    scaling. *)
Definition OpenUnmix_network (self : OpenUnmix)
  (nb_frames nb_samples nb_channels : nat) (x : Tensor) : result Tensor :=
  x <- reshape [(-1)%Z; Z.of_nat (nb_channels * nb_bins self)] x ;;
  x <- fc1 (layers self) x ;;
  x <- bn1 (layers self) x ;;
  x <- reshape [Z.of_nat nb_frames; Z.of_nat nb_samples;
                Z.of_nat (hidden_size self)] x ;;
  let x := map_tensor tanh x in
  lstm_out <- lstm (layers self) x ;;
  x <- cat_last x lstm_out ;;
  d <- size_last x ;;
  x <- reshape [(-1)%Z; Z.of_nat d] x ;;
  x <- fc2 (layers self) x ;;
  x <- bn2 (layers self) x ;;
  let x := map_tensor relu x in
  x <- fc3 (layers self) x ;;
  x <- bn3 (layers self) x ;;
  reshape [Z.of_nat nb_frames; Z.of_nat nb_samples; Z.of_nat nb_channels;
           Z.of_nat (nb_output_bins self)] x.

(** [forward] gets the caller's tensor [x] in the store [h], and returns
    its estimate with the store as the call leaves it.  The tensors the
    layers return are new ones, held as values. *)
Definition OpenUnmix_forward (self : OpenUnmix) (x : handle) (h : heap)
  : result (Tensor * heap) :=
  xh <- OpenUnmix_transform self x h ;;
  let (x, h) := xh in
  match h_shape x with
  | [nb_frames; nb_samples; nb_channels; _] =>
      mix <- load h x ;;
      sh <- narrow_last_shape (h_shape x) (nb_bins self) ;;
      let x := mkHandle (h_loc x) sh in
      h <- inplace_view Rplus h x (input_mean self) ;;
      h <- inplace_view Rmult h x (input_scale self) ;;
      xv <- load h x ;;
      x <- OpenUnmix_network self nb_frames nb_samples nb_channels xv ;;
      x <- inplace Rmult x (output_scale self) ;;
      x <- inplace Rplus x (output_mean self) ;;
      x <- mul (map_tensor relu x) mix ;;
      Ok (x, h)
  | _ => Raise ValueError
  end.

(** *** [Separator] *)

(** [nn.ModuleDict(targets)] keeps the targets in insertion order;
    [next(iter(...))] on an empty one raises [StopIteration].  The
    [softmask] argument is not saved. *)
Definition Separator_init (targets : list (string * OpenUnmix)) (niter : Z)
  (softmask : bool) (residual : option string) (batch_size : option Z)
  : result Separator :=
  match targets with
  | (_, first) :: _ =>
      Ok (mkSeparator niter residual batch_size targets (length targets)
            (sample_rate first))
  | [] => Raise StopIteration
  end.

(** Lines 407 to 421: every target model is applied to the mixture and its
    output stored in slice [j] of [spectrograms], allocated at the first
    target.  The state carries [spectrograms] and the loop variable
    [unmix_target], both unset before the first iteration. *)
Fixpoint estimate_targets (ts : list (string * OpenUnmix)) (j nb_sources : nat)
  (audio : handle) (acc : option (Tensor * OpenUnmix)) (h : heap)
  : result (option (Tensor * OpenUnmix) * heap) :=
  match ts with
  | [] => Ok (acc, h)
  | (_, unmix_target) :: ts' =>
      r <- OpenUnmix_forward unmix_target audio h ;;
      let (target_spectrogram, h) := r in
      let spectrograms :=
        match acc with
        | None => zeros (shape target_spectrogram ++ [nb_sources])
        | Some (s, _) => s
        end in
      spectrograms <- set_last spectrograms j target_spectrogram ;;
      estimate_targets ts' (S j) nb_sources audio
        (Some (spectrograms, unmix_target)) h
  end.

Section Refinement.

Variable self : Separator.
Variables spectrograms mix_stft : Tensor.
Variable nb_frames : Z.

(** Lines 455 and 456: the frames of the window that starts at [pos], and
    the next start. *)
Definition next_window (pos batch_size : Z) : result (list Z * Z) :=
  t <- arange pos (Z.min nb_frames (pos + batch_size)) ;;
  l <- last_item t ;;
  Ok (t, (l + 1)%Z).

(** Lines 458 to 462: one call of the refinement on the frames [t]. *)
Definition refine_window (sample : nat) (t : list Z) (targets_stft : Tensor)
  : list WienerCall * result Tensor :=
  match (s <- index_rows spectrograms sample t ;;
         m <- index_rows mix_stft sample t ;;
         Ok (s, m)) with
  | Ok (s, m) =>
      ([mkWienerCall sample t s m (niter self) false (residual self)],
       w <- wiener s m (niter self) false (residual self) ;;
       index_put_rows targets_stft sample t w)
  | Raise e => ([], Raise e)
  | OutOfFuel => ([], OutOfFuel)
  end.

(** The [while pos < nb_frames] loop, bounded by [fuel] iterations. *)
Fixpoint refine_frames (fuel : nat) (sample : nat) (pos batch_size : Z)
  (targets_stft : Tensor) : list WienerCall * result Tensor :=
  if (pos <? nb_frames)%Z then
    match fuel with
    | O => ([], OutOfFuel)
    | S fuel' =>
        match next_window pos batch_size with
        | Ok (t, pos') =>
            match refine_window sample t targets_stft with
            | (calls, Ok targets_stft') =>
                let (calls', r) :=
                  refine_frames fuel' sample pos' batch_size targets_stft' in
                (calls ++ calls', r)
            | (calls, r) => (calls, r)
            end
        | Raise e => ([], Raise e)
        | OutOfFuel => ([], OutOfFuel)
        end
    end
  else ([], Ok targets_stft).

(** [self.batch_size if self.batch_size else nb_frames]: [None] and [0]
    are false. *)
Definition effective_batch_size : Z :=
  match batch_size self with
  | Some b => if (b =? 0)%Z then nb_frames else b
  | None => nb_frames
  end.

(** The [for sample in range(nb_samples)] loop. *)
Fixpoint refine_samples (samples : list nat) (targets_stft : Tensor)
  : list WienerCall * result Tensor :=
  match samples with
  | [] => ([], Ok targets_stft)
  | sample :: samples' =>
      match refine_frames (Z.to_nat nb_frames) sample 0 effective_batch_size
              targets_stft with
      | (calls, Ok targets_stft') =>
          let (calls', r) := refine_samples samples' targets_stft' in
          (calls ++ calls', r)
      | (calls, r) => (calls, r)
      end
  end.

End Refinement.

(** Lines 401 to 433: the stacked estimates and the mixture transform,
    with the model of the last target. *)
Definition Separator_analysis (self : Separator) (audio : handle) (h : heap)
  : result (nat * Tensor * Tensor * OpenUnmix * heap) :=
  let nb_sources := nb_targets self in
  audio_v <- load h audio ;;
  nb_samples <- size_at audio_v 0 ;;
  r <- estimate_targets (targets self) 0 nb_sources audio None h ;;
  let (acc, h) := r in
  match acc with
  | None => Raise AttributeError
  | Some (spectrograms, unmix_target) =>
      spectrograms <- permute [1; 0; 3; 2; 4] spectrograms ;;
      audio_v <- load h audio ;;
      mix_stft <- STFT_forward (stft unmix_target) audio_v ;;
      mix_stft <- permute [0; 3; 2; 1; 4] mix_stft ;;
      Ok (nb_samples, spectrograms, mix_stft, unmix_target, h)
  end.

(** Lines 435 to 439: the target names, with the residual. *)
Definition effective_targets (self : Separator) : list string :=
  map fst (targets self) ++
  match residual self with
  | Some name => [name]
  | None => []
  end.

Definition effective_nb_sources (self : Separator) : nat :=
  nb_targets self +
  match residual self with
  | Some _ => 1
  | None => 0
  end.

(** Lines 446 to 481, after the guard. *)
Definition Separator_synthesis (self : Separator) (audio : handle)
  (a : nat * Tensor * Tensor * OpenUnmix * heap)
  : list WienerCall * result (PyValue * heap) :=
  let '(nb_samples, spectrograms, mix_stft, unmix_target, h) := a in
  match size_at spectrograms 1 with
  | Ok nb_frames =>
      let targets_stft :=
        zeros (shape mix_stft ++ [effective_nb_sources self]) in
      let (calls, r) :=
        refine_samples self spectrograms mix_stft (Z.of_nat nb_frames)
          (seq 0 nb_samples) targets_stft in
      (calls,
       targets_stft <- r ;;
       let estimates := PyDict [] in
       targets_stft <- permute [0; 5; 3; 2; 1; 4] targets_stft ;;
       audio_v <- load h audio ;;
       length <- size_last audio_v ;;
       estimates <- fmap PyTensor
                      (istft targets_stft
                         (n_fft (stft unmix_target))
                         (n_hop (stft unmix_target))
                         (window (stft unmix_target))
                         (center (stft unmix_target))
                         false true "reflect" length) ;;
       Ok (estimates, h))
  | Raise e => ([], Raise e)
  | OutOfFuel => ([], OutOfFuel)
  end.

(** [Separator.forward], with the calls of the refinement it made. *)
Definition Separator_forward_traced (self : Separator) (audio : handle)
  (h : heap) : list WienerCall * result (PyValue * heap) :=
  match Separator_analysis self audio h with
  | Ok a =>
      if (length (effective_targets self) =? 1) && (0 <? niter self)%Z
      then ([], Raise (Exception em_error_message))
      else Separator_synthesis self audio a
  | Raise e => ([], Raise e)
  | OutOfFuel => ([], OutOfFuel)
  end.

Definition Separator_forward (self : Separator) (audio : handle) (h : heap)
  : result (PyValue * heap) :=
  snd (Separator_forward_traced self audio h).

End Model.

(** ** Vocabulary of the statements *)

(** The exception of the guard of [Separator.forward]. *)
Definition em_error : exn := Exception em_error_message.

(** The outcome of a computation, its value forgotten. *)
Definition outcome {A : Type} (r : result A) : result unit :=
  fmap (fun _ => tt) r.

(** [r] does not end as [o]. *)
Definition avoids {A : Type} (o : result unit) (r : result A) : Prop :=
  outcome r <> o.

(** The outcomes no tensor operation of the model has: running out of
    fuel, and raising a plain [Exception]. *)
Definition foreign (o : result unit) : Prop :=
  o = OutOfFuel \/ exists msg, o = Raise (Exception msg).

(** The integers from [a] up to [b - 1]. *)
Definition zrange (a b : Z) : list Z :=
  map (fun k => (a + Z.of_nat k)%Z) (seq 0 (Z.to_nat (b - a))).

(** The windows the loop of [Separator.forward] takes from [pos] on, for
    [nb_frames] frames and windows of [bs] frames. *)
Inductive windows_from (nb_frames bs : Z) : Z -> list (list Z) -> Prop :=
| windows_end pos :
    (nb_frames <= pos)%Z -> windows_from nb_frames bs pos []
| windows_next pos ws :
    (pos < nb_frames)%Z ->
    (0 < bs)%Z ->
    windows_from nb_frames bs (Z.min nb_frames (pos + bs)) ws ->
    windows_from nb_frames bs pos
      (zrange pos (Z.min nb_frames (pos + bs)) :: ws).

(** The number of frames [torch.stft] documents for [T] samples: with
    [center], the signal is first padded by [n_fft // 2] on both sides. *)
Definition stft_nb_frames (T n_fft n_hop : nat) (center : bool) : nat :=
  (if center then T + 2 * (n_fft / 2) - n_fft else T - n_fft) / n_hop + 1.

(** The shape [torch.stft] documents for a batch of [N] signals: one-sided
    bins, frames, real and imaginary part. *)
Definition stft_shape_contract
  (torch_stft : Tensor -> nat -> nat -> Tensor -> bool -> bool -> bool ->
                string -> result Tensor) : Prop :=
  forall x N T n_fft n_hop w c nz os pm y,
    shape x = [N; T] ->
    torch_stft x n_fft n_hop w c nz os pm = Ok y ->
    shape y = [N; n_fft / 2 + 1; stft_nb_frames T n_fft n_hop c; 2].

(** The frames [a .. a + n - 1] of a tensor whose leading axis counts
    frames. *)
Definition rows (a n : nat) (x : Tensor) : Tensor :=
  build (n :: tl (shape x))
    (fun idx =>
       match idx with
       | k :: r => get x (a + k :: r)
       | [] => 0%R
       end).

(** The frames [a .. a + n - 1] of item [sample] of a tensor indexed by
    item and frame. *)
Definition sample_rows (x : Tensor) (sample a n : nat) : Tensor :=
  build (n :: tl (tl (shape x)))
    (fun idx =>
       match idx with
       | k :: r => get x (sample :: a + k :: r)
       | [] => 0%R
       end).

(** A refinement works frame by frame, for a number of iterations and a
    residual, when, given some of the frames, it returns those frames of
    what it returns given all of them. *)
Definition framewise
  (wiener : Tensor -> Tensor -> Z -> bool -> option string -> result Tensor)
  (it : Z) (res : option string) : Prop :=
  forall s m F rs rm a n,
    shape s = F :: rs ->
    shape m = F :: rm ->
    a + n <= F ->
    wiener (rows a n s) (rows a n m) it false res =
    fmap (rows a n) (wiener s m it false res).

(** The refinement returns the mixture's shape with one more axis, for the
    sources. *)
Definition wiener_shape_contract
  (wiener : Tensor -> Tensor -> Z -> bool -> option string -> result Tensor)
  : Prop :=
  forall s m it res w,
    wiener s m it false res = Ok w -> exists k, shape w = shape m ++ [k].

(** The separator [self] with another [batch_size]. *)
Definition with_batch_size (self : Separator) (bs : option Z) : Separator :=
  mkSeparator (niter self) (residual self) bs (targets self)
    (nb_targets self) (sep_sample_rate self).

(** A tensor whose data has one entry for each index of its shape. *)
Definition canonical (t : Tensor) : Prop := t = build (shape t) (get t).

(** A shape that broadcasts to a slot of the same number of axes: each
    size is the slot's, or 1. *)
Definition fits (w slot : list nat) : Prop :=
  Forall2 (fun a b => a = b \/ a = 1) w slot.

(** The refined tensor once the frames before [a] of item [sample] have
    been written from the refinement [w] of all the frames. *)
Definition refined_upto (t0 w : Tensor) (sample a : nat) : Tensor :=
  build (shape t0)
    (fun idx =>
       match idx with
       | s :: i :: r =>
           if (s =? sample) && (i <? a) then get_bcast w (i :: r)
           else get t0 idx
       | _ => get t0 idx
       end).

(** What the refinement loop of item [sample] needs to complete on [n]
    frames: the item and the frames exist in the estimates and in the
    mixture, the refinement of all the frames returns [w], and [w] fits the
    slot of the refined tensor, whose last axis has [e] sources. *)
Definition ready
  (wiener : Tensor -> Tensor -> Z -> bool -> option string -> result Tensor)
  (self : Separator) (sp mx : Tensor) (sample n e : nat) (w : Tensor)
  : Prop :=
  exists b1 f1 r1 b2 f2 r2 k,
    shape sp = b1 :: f1 :: r1 /\ sample < b1 /\ n <= f1 /\
    shape mx = b2 :: f2 :: r2 /\ sample < b2 /\ n <= f2 /\
    wiener (sample_rows sp sample 0 n) (sample_rows mx sample 0 n)
      (niter self) false (residual self) = Ok w /\
    shape w = n :: r2 ++ [k] /\
    fits (r2 ++ [k]) (r2 ++ [e]).

(** What a call of the refinement for item [sample] is passed: the frames
    of its window, of the estimates [sp] and of the mixture [mx], and the
    settings of the separator. *)
Definition passed (self : Separator) (sp mx : Tensor) (sample : nat)
  (c : WienerCall) : Prop :=
  wc_sample c = sample /\
  index_rows sp sample (wc_frames c) = Ok (wc_spectrograms c) /\
  index_rows mx sample (wc_frames c) = Ok (wc_mix_stft c) /\
  wc_iterations c = niter self /\
  wc_residual c = residual self.

(** The call [c] was made for the frames [a .. a + n - 1], and what the
    refinement returns for it is at these frames of item [wc_sample c] of
    [T'], a tensor of shape [sh]. *)
Definition stored
  (wiener : Tensor -> Tensor -> Z -> bool -> option string -> result Tensor)
  (sh : list nat) (T' : Tensor) (c : WienerCall) : Prop :=
  exists w a n,
    wc_frames c = map Z.of_nat (seq a n) /\
    wiener (wc_spectrograms c) (wc_mix_stft c) (wc_iterations c)
      (wc_use_softmask c) (wc_residual c) = Ok w /\
    forall j r,
      j < n ->
      in_bounds sh (wc_sample c :: a + j :: r) = true ->
      get T' (wc_sample c :: a + j :: r) = get_bcast w (j :: r).

(** ** Stand-ins for the library routines

    Small concrete routines with the interfaces of the library ones, on
    which the model can be run: a transform that samples the signal at the
    start of each frame, layers with all weights zero, and a model of the
    refinement routine. *)

Module Stubs.

Definition stub_hann_window (n : nat) : Tensor := ones n.

Definition stub_stft (x : Tensor) (n_fft n_hop : nat) (window : Tensor)
  (center normalized onesided : bool) (pad_mode : string) : result Tensor :=
  match shape x with
  | [N; T] =>
      Ok (build [N; n_fft / 2 + 1; stft_nb_frames T n_fft n_hop center; 2]
            (fun idx =>
               match idx with
               | [n; _; f; 0] => get x [n; Nat.min (f * n_hop) (T - 1)]
               | _ => 0%R
               end))
  | _ => Raise RuntimeError
  end.

Definition stub_istft (x : Tensor) (n_fft n_hop : nat) (window : Tensor)
  (center normalized onesided : bool) (pad_mode : string) (length : nat)
  : result Tensor :=
  match rev (shape x) with
  | 2 :: frames :: _ :: lead =>
      Ok (build (rev lead ++ [length])
            (fun idx =>
               get x (removelast idx ++
                      [0; Nat.min (last idx 0 / n_hop) (frames - 1); 0])))
  | _ => Raise RuntimeError
  end.

(** A [Linear] layer without bias whose weights are all zero. *)
Definition zero_linear (out_features : nat) (x : Tensor) : result Tensor :=
  match shape x with
  | [n; _] => Ok (zeros [n; out_features])
  | _ => Raise RuntimeError
  end.

Definition identity_norm (x : Tensor) : result Tensor := Ok x.

Definition zero_lstm (x : Tensor) : result Tensor := Ok (zeros (shape x)).

Definition zero_layers (hidden_size out_features : nat) : Layers :=
  mkLayers (zero_linear hidden_size) identity_norm zero_lstm
    (zero_linear hidden_size) identity_norm
    (zero_linear out_features) identity_norm.

(** A stand-in for [filtering.wiener], which [model.py] imports and calls
    and which is not part of the source.  It has the interface of the
    routine: the per-source magnitudes and the complex spectrogram of the
    mixture for some frames go in, with the iteration count, the mask flag
    and the residual; out comes the mixture's shape with an axis for the
    sources, one more of them when a residual is asked for.  Its values are
    not those of the routine, which neither the source nor the spec gives:
    with no iteration every source gets the mixture of the frame, and with
    iterations the mixture summed over the frames given, a value that
    depends on the window.  It serves to run the model on concrete inputs;
    the theorems are stated for every refinement routine. *)
Definition wiener_model (s m : Tensor) (iterations : Z)
  (use_softmask : bool) (residual : option string) : result Tensor :=
  match shape m with
  | frames :: _ =>
      let k := last (tl (shape s)) 1 +
               match residual with Some _ => 1 | None => 0 end in
      Ok (build (shape m ++ [k])
            (fun idx =>
               match idx with
               | f :: r =>
                   if (0 <? iterations)%Z
                   then sum_range frames (fun f' => get m (f' :: removelast r))
                   else get m (f :: removelast r)
               | [] => 0%R
               end))
  | [] => Raise RuntimeError
  end.

Definition stub_model (n_fft n_hop nb_channels : nat) : OpenUnmix :=
  OpenUnmix_init stub_hann_window n_fft n_hop false 1 nb_channels 44100
    None None None 1 (zero_layers 1 ((n_fft / 2 + 1) * nb_channels)).

Definition model_A : OpenUnmix := stub_model 2 1 1.

Definition audio_A : Tensor := mkTensor [1; 1; 2] [1%R; 2%R].

(** Two targets, with one EM iteration and with none. *)
Definition sep_A (bs : option Z) : Separator :=
  mkSeparator 1 None bs
    [("vocals"%string, model_A); ("drums"%string, model_A)] 2 44100.

Definition sep_A0 (bs : option Z) : Separator :=
  mkSeparator 0 None bs
    [("vocals"%string, model_A); ("drums"%string, model_A)] 2 44100.

(** A separator with a single target and one EM iteration. *)
Definition sep_single (niter : Z) : Separator :=
  mkSeparator niter None None [("vocals"%string, model_A)] 1 44100.

Definition handle_A : handle := mkHandle 0 [1; 1; 2].

(** Three frames of two bins, one channel, two sources, for one sample. *)
Definition spectrograms_W : Tensor := zeros [1; 3; 2; 1; 2].

Definition mix_stft_W : Tensor := zeros [1; 3; 2; 1; 2].

Definition targets_stft_W : Tensor := zeros [1; 3; 2; 1; 2; 2].

(** Estimators that take a spectrogram: one with the default
    normalisation, one built with [input_mean = [1, 1]]. *)
Definition model_S0 : OpenUnmix :=
  OpenUnmix_init stub_hann_window 2 1 true 1 1 44100 None None None 1
    (zero_layers 1 2).

Definition model_S : OpenUnmix :=
  OpenUnmix_init stub_hann_window 2 1 true 1 1 44100
    (Some [1%R; 1%R]) None None 1 (zero_layers 1 2).

Definition handle_S : handle := mkHandle 0 [1; 1; 1; 2].

Definition spec_S : Tensor := mkTensor [1; 1; 1; 2] [3%R; 4%R].

(** A tensor with a negative entry, passed as a spectrogram. *)
Definition spec_N : Tensor := mkTensor [1; 1; 1; 2] [(-1)%R; 4%R].

(** A stereo signal of two samples. *)
Definition audio_B : Tensor := mkTensor [1; 2; 2] [1%R; 2%R; 3%R; 4%R].

Definition handle_B : handle := mkHandle 0 [1; 2; 2].

(** An estimator for two channels. *)
Definition model_B : OpenUnmix := stub_model 2 1 2.

(** The transform of one frame of one bin: the number [3 + 4i]. *)
Definition stft_Q : Tensor := mkTensor [1; 1; 1; 1; 2] [3%R; 4%R].

(** A spectrogram of one bin, where the estimator expects two. *)
Definition handle_S1 : handle := mkHandle 0 [1; 1; 1; 1].

Definition spec_S1 : Tensor := mkTensor [1; 1; 1; 1] [5%R].

(** A separator whose one target takes spectrograms. *)
Definition sep_spec : Separator :=
  mkSeparator 0 None None [("vocals"%string, model_S0)] 1 44100.

(** An estimator for spectrograms built with [input_mean = [1, 1]] and
    [input_scale = [2, 2]]. *)
Definition model_S2 : OpenUnmix :=
  OpenUnmix_init stub_hann_window 2 1 true 1 1 44100
    (Some [1%R; 1%R]) (Some [2%R; 2%R]) None 1 (zero_layers 1 2).

End Stubs.

Import Stubs.

(** ** Facts about results and tensors *)

Lemma bind_Ok_inv {A B : Type} (r : result A) (k : A -> result B) (b : B) :
  bind r k = Ok b -> exists a, r = Ok a /\ k a = Ok b.
Proof.
  destruct r as [a | e |]; simpl; intros H; try discriminate.
  exists a; split; [reflexivity | exact H].
Qed.

Lemma in_bounds_length sh : forall idx,
  in_bounds sh idx = true -> length idx = length sh.
Proof.
  induction sh as [| d sh IH]; intros [| i idx]; simpl; try discriminate; auto.
  intros H. apply andb_prop in H. destruct H as [_ H]. f_equal. auto.
Qed.

Lemma ravel_lt sh : forall idx,
  in_bounds sh idx = true -> ravel sh idx < numel sh.
Proof.
  induction sh as [| d sh IH]; intros [| i idx]; simpl; try discriminate.
  - intros _. lia.
  - intros H. apply andb_prop in H. destruct H as [Hi H].
    apply Nat.ltb_lt in Hi. specialize (IH _ H).
    fold (numel sh). nia.
Qed.

Lemma unravel_in_bounds sh : forall k,
  k < numel sh -> in_bounds sh (unravel sh k) = true.
Proof.
  induction sh as [| d sh IH]; intros k Hk; simpl in *.
  - reflexivity.
  - fold (numel sh) in *.
    assert (Hpos : numel sh <> 0) by (intros E; rewrite E in Hk; lia).
    apply andb_true_intro; split.
    + apply Nat.ltb_lt. apply Nat.Div0.div_lt_upper_bound. lia.
    + apply IH. apply Nat.mod_upper_bound. exact Hpos.
Qed.

Lemma ravel_unravel sh : forall k,
  k < numel sh -> ravel sh (unravel sh k) = k.
Proof.
  induction sh as [| d sh IH]; intros k Hk; simpl in *.
  - lia.
  - fold (numel sh) in *.
    assert (Hpos : numel sh <> 0) by (intros E; rewrite E in Hk; lia).
    rewrite IH by (apply Nat.mod_upper_bound; exact Hpos).
    pose proof (Nat.div_mod_eq k (numel sh)). lia.
Qed.

Lemma unravel_ravel sh : forall idx,
  in_bounds sh idx = true -> unravel sh (ravel sh idx) = idx.
Proof.
  induction sh as [| d sh IH]; intros [| i idx]; simpl; try discriminate; auto.
  intros H. apply andb_prop in H. destruct H as [Hi H].
  fold (numel sh).
  pose proof (ravel_lt sh idx H) as Hlt.
  assert (Hpos : numel sh <> 0) by lia.
  f_equal.
  - rewrite Nat.div_add_l by exact Hpos.
    rewrite Nat.div_small by exact Hlt. lia.
  - rewrite Nat.add_comm, Nat.Div0.mod_add.
    rewrite Nat.mod_small by exact Hlt. apply IH. exact H.
Qed.

Lemma build_shape sh f : shape (build sh f) = sh.
Proof. reflexivity. Qed.

Lemma build_length sh f : length (data (build sh f)) = numel sh.
Proof. simpl. rewrite length_map, length_seq. reflexivity. Qed.

Lemma get_build sh f idx :
  in_bounds sh idx = true -> get (build sh f) idx = f idx.
Proof.
  intros H. unfold get, build; simpl.
  pose proof (ravel_lt sh idx H) as Hlt.
  rewrite nth_indep with (d' := f (unravel sh 0))
    by (rewrite length_map, length_seq; exact Hlt).
  rewrite (map_nth (fun k => f (unravel sh k))).
  rewrite seq_nth by exact Hlt. simpl.
  rewrite unravel_ravel by exact H. reflexivity.
Qed.

Lemma build_ext sh f g :
  (forall idx, in_bounds sh idx = true -> f idx = g idx) ->
  build sh f = build sh g.
Proof.
  intros H. unfold build. f_equal.
  apply map_ext_in. intros k Hk. apply in_seq in Hk.
  apply H. apply unravel_in_bounds. lia.
Qed.

Lemma build_Forall (P : R -> Prop) sh f :
  (forall idx, in_bounds sh idx = true -> P (f idx)) ->
  Forall P (data (build sh f)).
Proof.
  intros H. simpl. apply Forall_forall. intros v Hv.
  apply in_map_iff in Hv. destruct Hv as [k [<- Hk]].
  apply in_seq in Hk. apply H. apply unravel_in_bounds. lia.
Qed.

(** Evaluation of the model on concrete tensors: everything is computed
    except the arithmetic of the real numbers. *)
Ltac run_model :=
  cbv -[Rplus Rmult Rminus Rdiv Rinv Ropp IZR INR pow_real relu Rmax tanh
        Rpower Rle Rlt].

(** ** Properties of [Separator] *)

Section SeparatorProperties.

Variable torch_stft :
  Tensor -> nat -> nat -> Tensor -> bool -> bool -> bool -> string ->
  result Tensor.
Variable istft :
  Tensor -> nat -> nat -> Tensor -> bool -> bool -> bool -> string -> nat ->
  result Tensor.

Section WithWiener.

Variable wiener :
  Tensor -> Tensor -> Z -> bool -> option string -> result Tensor.

Let forward := Separator_forward torch_stft istft wiener.
Let forward_traced := Separator_forward_traced torch_stft istft wiener.

(** *** The calls of the refinement *)

Lemma refine_window_hard_mask self spectrograms mix_stft sample t T :
  Forall (fun c => wc_use_softmask c = false)
    (fst (refine_window wiener self spectrograms mix_stft sample t T)).
Proof.
  unfold refine_window.
  destruct (index_rows spectrograms sample t) as [s | e |]; simpl;
    try constructor.
  destruct (index_rows mix_stft sample t) as [m | e |]; simpl;
    repeat constructor.
Qed.

Lemma refine_frames_hard_mask self spectrograms mix_stft nb_frames fuel :
  forall sample pos bs T,
    Forall (fun c => wc_use_softmask c = false)
      (fst (refine_frames wiener self spectrograms mix_stft nb_frames fuel
              sample pos bs T)).
Proof.
  induction fuel as [| fuel IH]; intros sample pos bs T; simpl.
  - destruct (pos <? nb_frames)%Z; constructor.
  - destruct (pos <? nb_frames)%Z; [| constructor].
    destruct (next_window nb_frames pos bs) as [[t pos'] | e |];
      try constructor.
    pose proof (refine_window_hard_mask self spectrograms mix_stft sample t T)
      as Hw.
    destruct (refine_window wiener self spectrograms mix_stft sample t T)
      as [calls [T' | e |]]; simpl in *; try exact Hw.
    specialize (IH sample pos' bs T').
    destruct (refine_frames wiener self spectrograms mix_stft nb_frames fuel
                sample pos' bs T') as [calls' r]; simpl in *.
    apply Forall_app; split; assumption.
Qed.

Lemma refine_samples_hard_mask self spectrograms mix_stft nb_frames samples :
  forall T,
    Forall (fun c => wc_use_softmask c = false)
      (fst (refine_samples wiener self spectrograms mix_stft nb_frames
              samples T)).
Proof.
  induction samples as [| sample samples IH]; intros T; simpl.
  - constructor.
  - pose proof (refine_frames_hard_mask self spectrograms mix_stft nb_frames
                  (Z.to_nat nb_frames) sample 0%Z
                  (effective_batch_size self nb_frames) T) as Hf.
    destruct (refine_frames wiener self spectrograms mix_stft nb_frames
                (Z.to_nat nb_frames) sample 0%Z
                (effective_batch_size self nb_frames) T)
      as [calls [T' | e |]]; simpl in *; try exact Hf.
    specialize (IH T').
    destruct (refine_samples wiener self spectrograms mix_stft nb_frames
                samples T') as [calls' r]; simpl in *.
    apply Forall_app; split; assumption.
Qed.

Lemma forward_traced_hard_mask self audio h :
  Forall (fun c => wc_use_softmask c = false)
    (fst (forward_traced self audio h)).
Proof.
  unfold forward_traced, Separator_forward_traced.
  destruct (Separator_analysis torch_stft self audio h)
    as [[[[[nb_samples spectrograms] mix_stft] unmix_target] h'] | e |];
    simpl; try constructor.
  destruct ((length (effective_targets self) =? 1) && (0 <? niter self)%Z);
    simpl; try constructor.
  destruct (size_at spectrograms 1) as [nb_frames | e |]; simpl;
    try constructor.
  pose proof (refine_samples_hard_mask self spectrograms mix_stft
                (Z.of_nat nb_frames) (seq 0 nb_samples)
                (zeros (shape mix_stft ++ [effective_nb_sources self])))
    as Hs.
  destruct (refine_samples wiener self spectrograms mix_stft
              (Z.of_nat nb_frames) (seq 0 nb_samples)
              (zeros (shape mix_stft ++ [effective_nb_sources self])))
    as [calls r]; simpl in *.
  exact Hs.
Qed.

End WithWiener.

(** [Separator.forward] only depends on what the refinement does with the
    hard mask. *)
Lemma Separator_forward_hard_mask_only wiener1 wiener2 self audio h :
  (forall s m it r, wiener1 s m it false r = wiener2 s m it false r) ->
  Separator_forward_traced torch_stft istft wiener1 self audio h =
  Separator_forward_traced torch_stft istft wiener2 self audio h.
Proof.
  intros Hagree.
  assert (Hwin : forall sp mx sample t T,
             refine_window wiener1 self sp mx sample t T =
             refine_window wiener2 self sp mx sample t T).
  { intros. unfold refine_window.
    destruct (index_rows sp sample t) as [s | e |]; simpl; try reflexivity.
    destruct (index_rows mx sample t) as [m | e |]; simpl; try reflexivity.
    rewrite Hagree. reflexivity. }
  assert (Hfr : forall sp mx nbf fuel sample pos bs T,
             refine_frames wiener1 self sp mx nbf fuel sample pos bs T =
             refine_frames wiener2 self sp mx nbf fuel sample pos bs T).
  { intros sp mx nbf fuel.
    induction fuel as [| fuel IH]; intros sample pos bs T; simpl;
      [reflexivity |].
    destruct (pos <? nbf)%Z; [| reflexivity].
    destruct (next_window nbf pos bs) as [[t pos'] | e |]; try reflexivity.
    rewrite Hwin.
    destruct (refine_window wiener2 self sp mx sample t T)
      as [calls [T' | e |]]; try reflexivity.
    rewrite IH. reflexivity. }
  assert (Hsm : forall sp mx nbf samples T,
             refine_samples wiener1 self sp mx nbf samples T =
             refine_samples wiener2 self sp mx nbf samples T).
  { intros sp mx nbf samples.
    induction samples as [| sample samples IH]; intros T; simpl;
      [reflexivity |].
    rewrite Hfr.
    destruct (refine_frames wiener2 self sp mx nbf (Z.to_nat nbf) sample 0%Z
                (effective_batch_size self nbf) T)
      as [calls [T' | e |]]; try reflexivity.
    rewrite IH. reflexivity. }
  unfold Separator_forward_traced.
  destruct (Separator_analysis torch_stft self audio h)
    as [[[[[nb_samples sp] mx] unmix_target] h'] | e |]; try reflexivity.
  destruct ((length (effective_targets self) =? 1) && (0 <? niter self)%Z);
    try reflexivity.
  unfold Separator_synthesis.
  destruct (size_at sp 1) as [nbf | e |]; try reflexivity.
  rewrite Hsm. reflexivity.
Qed.

End SeparatorProperties.

(** C10. Building a [Separator] from an empty mapping of targets raises at
    construction: the sample rate is read from the first target, and
    [next] on the empty iterator raises [StopIteration]. *)
Theorem Separator_init_empty_raises :
  forall (niter : Z) (softmask : bool) (residual : option string)
         (batch_size : option Z),
    Separator_init [] niter softmask residual batch_size =
    Raise StopIteration.
Proof. intros. reflexivity. Qed.

(** C6. Every call of [wiener] that [Separator.forward] makes passes
    [use_softmask=False], whatever the configuration; and two separators
    built with the same arguments but for [softmask] are the same, so they
    return the same estimates. *)
Theorem wiener_calls_use_hard_mask :
  forall torch_stft istft wiener,
    (forall self audio h,
        Forall (fun c => wc_use_softmask c = false)
          (fst (Separator_forward_traced torch_stft istft wiener
                  self audio h))) /\
    (forall targets niter residual batch_size audio h,
        (self <- Separator_init targets niter true residual batch_size ;;
         Separator_forward torch_stft istft wiener self audio h) =
        (self <- Separator_init targets niter false residual batch_size ;;
         Separator_forward torch_stft istft wiener self audio h)).
Proof.
  intros torch_stft istft wiener. split.
  - intros self audio h. apply forward_traced_hard_mask.
  - intros. reflexivity.
Qed.

(** ** The guard of [Separator.forward] *)

Lemma avoids_bind {A B : Type} (o : result unit) (r : result A)
  (k : A -> result B) :
  avoids o r -> (forall a, avoids o (k a)) -> avoids o (bind r k).
Proof.
  unfold avoids. intros Hr Hk. destruct r as [a | e' |]; simpl.
  - apply Hk.
  - exact Hr.
  - exact Hr.
Qed.

Lemma avoids_Ok {A : Type} (o : result unit) (a : A) :
  foreign o -> avoids o (Ok a).
Proof. intros [-> | [msg ->]]; unfold avoids; discriminate. Qed.

Lemma avoids_Raise {A : Type} (o : result unit) (e : exn) :
  foreign o -> (forall msg, e <> Exception msg) -> avoids o (@Raise A e).
Proof.
  intros [-> | [msg ->]] He; unfold avoids; simpl; try discriminate.
  intros E. injection E as E. exact (He msg E).
Qed.

Lemma avoids_outcome {A B : Type} (o : result unit) (r : result A)
  (r' : result B) :
  outcome r' = outcome r -> avoids o r -> avoids o r'.
Proof. unfold avoids. intros ->. exact (fun H => H). Qed.

Lemma foreign_em_error : foreign (Raise em_error).
Proof. right. exists em_error_message. reflexivity. Qed.

Lemma foreign_OutOfFuel : foreign OutOfFuel.
Proof. left. reflexivity. Qed.

Ltac avoids_cases :=
  repeat match goal with
         | |- avoids _ (Ok _) => apply avoids_Ok; assumption
         | |- avoids _ (Raise _) =>
             apply avoids_Raise; [assumption | discriminate]
         | |- avoids _ (bind _ _) => apply avoids_bind; [| intros ?]
         | |- avoids _ (fmap _ _) => unfold fmap
         | |- avoids _ (match ?x with _ => _ end) => destruct x
         | |- avoids _ (if ?x then _ else _) => destruct x
         end.

Section TensorOutcomes.

Variable o : result unit.
Hypothesis Ho : foreign o.

Lemma avoids_norm_indices d t : avoids o (norm_indices d t).
Proof.
  induction t as [| z t IH]; simpl.
  - avoids_cases.
  - apply avoids_bind; [unfold norm_index; avoids_cases |].
    intros i. apply avoids_bind; [exact IH | intros; avoids_cases].
Qed.

Lemma avoids_broadcast_rev a : forall b, avoids o (broadcast_rev a b).
Proof.
  induction a as [| x a IH]; intros [| y b]; simpl; try (avoids_cases; fail).
  apply avoids_bind; [apply IH |]. intros r. avoids_cases.
Qed.

Lemma avoids_broadcast_shapes a b : avoids o (broadcast_shapes a b).
Proof.
  unfold broadcast_shapes, fmap.
  apply avoids_bind; [apply avoids_broadcast_rev | intros; avoids_cases].
Qed.

Lemma avoids_index_rows x sample t : avoids o (index_rows x sample t).
Proof.
  unfold index_rows.
  destruct (shape x) as [| b [| f rest]]; try (avoids_cases; fail).
  destruct (sample <? b); [| avoids_cases].
  apply avoids_bind; [apply avoids_norm_indices | intros; avoids_cases].
Qed.

Lemma avoids_index_put_rows x sample t v :
  avoids o (index_put_rows x sample t v).
Proof.
  unfold index_put_rows.
  destruct (shape x) as [| b [| f rest]]; try (avoids_cases; fail).
  destruct (sample <? b); [| avoids_cases].
  apply avoids_bind; [apply avoids_norm_indices |]. intros rows.
  apply avoids_bind; [apply avoids_broadcast_shapes |]. intros sh.
  avoids_cases.
Qed.

Lemma avoids_next_window nb_frames pos bs :
  avoids o (next_window nb_frames pos bs).
Proof. unfold next_window, arange, last_item. avoids_cases. Qed.

Lemma avoids_permute dims t : avoids o (permute dims t).
Proof. unfold permute. avoids_cases. Qed.

Lemma avoids_load h x : avoids o (load h x).
Proof. unfold load. avoids_cases. Qed.

Lemma avoids_size_last t : avoids o (size_last t).
Proof. unfold size_last. avoids_cases. Qed.

Lemma avoids_size_at t i : avoids o (size_at t i).
Proof. unfold size_at. avoids_cases. Qed.

(** The refinement loop ends as the library routine may end, or as a
    tensor operation may. *)
Section Loop.

Variable wiener :
  Tensor -> Tensor -> Z -> bool -> option string -> result Tensor.
Hypothesis wiener_avoids : forall s m it sm r, avoids o (wiener s m it sm r).

Lemma avoids_refine_window self sp mx sample t T :
  avoids o (snd (refine_window wiener self sp mx sample t T)).
Proof.
  unfold refine_window.
  pose proof (avoids_index_rows sp sample t) as Hs.
  destruct (index_rows sp sample t) as [s | e |]; simpl;
    [| exact Hs | exact Hs].
  pose proof (avoids_index_rows mx sample t) as Hm.
  destruct (index_rows mx sample t) as [m | e |]; simpl;
    [| exact Hm | exact Hm].
  apply avoids_bind; [apply wiener_avoids |].
  intros w. apply avoids_index_put_rows.
Qed.

End Loop.

End TensorOutcomes.

(** ** The windows of the refinement loop *)

Lemma next_window_spec nbf pos bs t pos' :
  (pos < nbf)%Z ->
  next_window nbf pos bs = Ok (t, pos') ->
  (0 < bs)%Z /\ pos' = Z.min nbf (pos + bs) /\ t = zrange pos pos'.
Proof.
  intros Hpos. unfold next_window, arange.
  destruct (Z.min nbf (pos + bs) <? pos)%Z eqn:Hlt; simpl; [discriminate |].
  apply Z.ltb_ge in Hlt.
  unfold last_item.
  remember (Z.to_nat (Z.min nbf (pos + bs) - pos)) as n eqn:Hn.
  destruct n as [| n].
  - simpl. discriminate.
  - rewrite seq_S, map_app, rev_app_distr. simpl.
    intros H. injection H as Ht Hp.
    assert (Hmin : Z.min nbf (pos + bs) = (pos + Z.of_nat (S n))%Z) by lia.
    assert (Hp' : pos' = Z.min nbf (pos + bs)) by lia.
    split; [lia |]. split; [exact Hp' |].
    rewrite <- Ht. unfold zrange. rewrite Hp', <- Hn.
    rewrite seq_S, map_app. reflexivity.
Qed.

Lemma refine_window_calls wiener self sp mx sample t T calls T' :
  refine_window wiener self sp mx sample t T = (calls, Ok T') ->
  map wc_frames calls = [t].
Proof.
  unfold refine_window.
  destruct (index_rows sp sample t) as [s | e |]; simpl; try discriminate.
  destruct (index_rows mx sample t) as [m | e |]; simpl; try discriminate.
  intros H. injection H as <- _. reflexivity.
Qed.

Lemma refine_frames_windows wiener self sp mx nbf fuel :
  forall sample pos bs T calls T',
    refine_frames wiener self sp mx nbf fuel sample pos bs T =
    (calls, Ok T') ->
    windows_from nbf bs pos (map wc_frames calls).
Proof.
  induction fuel as [| fuel IH]; intros sample pos bs T calls T'; simpl;
    destruct (pos <? nbf)%Z eqn:Hpos;
    try (intros H; injection H as <- _; apply windows_end;
         apply Z.ltb_ge; exact Hpos);
    try discriminate.
  apply Z.ltb_lt in Hpos.
  destruct (next_window nbf pos bs) as [[t pos'] | e |] eqn:Hn;
    try discriminate.
  destruct (next_window_spec nbf pos bs t pos' Hpos Hn) as [Hbs [-> ->]].
  destruct (refine_window wiener self sp mx sample _ T)
    as [calls1 [T1 | e |]] eqn:Hw; try discriminate.
  destruct (refine_frames wiener self sp mx nbf fuel sample _ bs T1)
    as [calls2 r] eqn:Hf.
  intros H. injection H as <- ->.
  rewrite map_app, (refine_window_calls _ _ _ _ _ _ _ _ _ Hw). simpl.
  apply windows_next; [exact Hpos | exact Hbs |].
  exact (IH _ _ _ _ _ _ Hf).
Qed.

Lemma zrange_length a b : length (zrange a b) = Z.to_nat (b - a).
Proof. unfold zrange. rewrite length_map, length_seq. reflexivity. Qed.

Lemma map_seq_shift {A : Type} (m : nat) : forall (n : nat) (f : nat -> A),
  map f (seq n m) = map (fun k => f (n + k)) (seq 0 m).
Proof.
  induction m as [| m IH]; intros n f; simpl; [reflexivity |].
  rewrite Nat.add_0_r. f_equal.
  rewrite (IH (S n) f), (IH 1 (fun k => f (n + k))).
  apply map_ext. intros k. f_equal. lia.
Qed.

Lemma zrange_app a b c :
  (a <= b)%Z -> (b <= c)%Z -> zrange a b ++ zrange b c = zrange a c.
Proof.
  intros Hab Hbc. unfold zrange.
  replace (Z.to_nat (c - a)) with (Z.to_nat (b - a) + Z.to_nat (c - b))
    by lia.
  rewrite seq_app, map_app. f_equal. simpl.
  rewrite (map_seq_shift _ (Z.to_nat (b - a))).
  apply map_ext. intros k. lia.
Qed.

Lemma zrange_nil a b : (b <= a)%Z -> zrange a b = [].
Proof.
  intros H. unfold zrange. replace (Z.to_nat (b - a)) with 0 by lia.
  reflexivity.
Qed.

Lemma zrange_hd a b : (a < b)%Z -> hd 0%Z (zrange a b) = a.
Proof.
  intros H. unfold zrange.
  destruct (Z.to_nat (b - a)) as [| n] eqn:Hn; [lia |].
  simpl. lia.
Qed.

Lemma zrange_last a b : (a < b)%Z -> last (zrange a b) 0%Z = (b - 1)%Z.
Proof.
  intros H. unfold zrange.
  destruct (Z.to_nat (b - a)) as [| n] eqn:Hn; [lia |].
  rewrite seq_S, map_app. simpl. rewrite last_last. lia.
Qed.

Lemma zrange_nat n : zrange 0 (Z.of_nat n) = map Z.of_nat (seq 0 n).
Proof.
  unfold zrange. replace (Z.to_nat (Z.of_nat n - 0)) with n by lia.
  apply map_ext. intros k. lia.
Qed.

Lemma windows_from_concat nbf bs pos ws :
  windows_from nbf bs pos ws -> concat ws = zrange pos nbf.
Proof.
  induction 1 as [pos Hpos | pos ws Hpos Hbs Hw IH]; simpl.
  - symmetry. apply zrange_nil. exact Hpos.
  - rewrite IH. apply zrange_app; lia.
Qed.

Lemma windows_from_sizes nbf bs pos ws :
  windows_from nbf bs pos ws ->
  Forall (fun w => w <> [] /\ (Z.of_nat (length w) <= bs)%Z) ws.
Proof.
  induction 1 as [pos Hpos | pos ws Hpos Hbs Hw IH]; constructor;
    [| exact IH].
  split.
  - intros E. apply (f_equal (@length Z)) in E.
    rewrite zrange_length in E. simpl in E. lia.
  - rewrite zrange_length. lia.
Qed.

Lemma windows_from_chain nbf bs pos ws :
  windows_from nbf bs pos ws ->
  forall i, S i < length ws ->
    Z.of_nat (length (nth i ws [])) = bs /\
    hd 0%Z (nth (S i) ws []) = (last (nth i ws []) 0 + 1)%Z.
Proof.
  induction 1 as [pos Hpos | pos ws Hpos Hbs Hw IH]; intros i Hi; simpl in Hi.
  - lia.
  - destruct i as [| i].
    + inversion Hw as [pos' Hp' | pos' ws' Hp' Hbs' Hw' E1 E2]; subst; simpl in *;
        [lia |].
      rewrite zrange_length, zrange_hd, zrange_last by lia.
      split; lia.
    + simpl. apply IH. lia.
Qed.

Lemma windows_from_single nbf bs ws :
  windows_from nbf bs 0 ws -> (0 < nbf)%Z -> (nbf <= bs)%Z ->
  ws = [zrange 0 nbf].
Proof.
  intros Hw Hn Hb.
  inversion Hw as [pos Hp | pos ws' Hp Hbs Hw' E1 E2]; subst; [lia |].
  replace (Z.min nbf (0 + bs)) with nbf in * by lia.
  inversion Hw' as [pos Hp' | pos ws'' Hp' Hbs' Hw'' E1 E2]; subst;
    [reflexivity | lia].
Qed.

Section Loop.

Variable wiener :
  Tensor -> Tensor -> Z -> bool -> option string -> result Tensor.
Variable o : result unit.
Hypothesis Ho : foreign o.
Hypothesis wiener_avoids : forall s m it sm r, avoids o (wiener s m it sm r).

(** With a step of fuel for every frame left, the loop does not run out
    of fuel. *)
Lemma avoids_refine_frames self sp mx nbf fuel : forall sample pos bs T,
  (o = OutOfFuel -> Z.to_nat (nbf - pos) <= fuel) ->
  avoids o (snd (refine_frames wiener self sp mx nbf fuel sample pos bs T)).
Proof.
  induction fuel as [| fuel IH]; intros sample pos bs T Hfuel; simpl;
    destruct (pos <? nbf)%Z eqn:Hpos; simpl;
    try (apply avoids_Ok; exact Ho).
  - apply Z.ltb_lt in Hpos.
    destruct Ho as [E | [msg E]].
    + specialize (Hfuel E). lia.
    + rewrite E. unfold avoids. discriminate.
  - apply Z.ltb_lt in Hpos.
    pose proof (avoids_next_window o Ho nbf pos bs) as Hn.
    destruct (next_window nbf pos bs) as [[t pos'] | e |] eqn:Hnw; simpl;
      [| exact Hn | exact Hn].
    destruct (next_window_spec nbf pos bs t pos' Hpos Hnw) as [Hbs [Hp' Ht]].
    pose proof (avoids_refine_window o Ho wiener wiener_avoids self sp mx
                  sample t T) as Hw.
    destruct (refine_window wiener self sp mx sample t T)
      as [calls [T' | e |]]; simpl in *; [| exact Hw | exact Hw].
    assert (Hfuel' : o = OutOfFuel -> Z.to_nat (nbf - pos') <= fuel)
      by (intros E; specialize (Hfuel E); lia).
    specialize (IH sample pos' bs T' Hfuel').
    destruct (refine_frames wiener self sp mx nbf fuel sample pos' bs T')
      as [calls' r]; simpl in *.
    exact IH.
Qed.

Lemma avoids_refine_samples self sp mx nbf samples : forall T,
  avoids o (snd (refine_samples wiener self sp mx nbf samples T)).
Proof.
  induction samples as [| sample samples IH]; intros T; simpl.
  - apply avoids_Ok; exact Ho.
  - assert (Hfuel : o = OutOfFuel -> Z.to_nat (nbf - 0) <= Z.to_nat nbf)
      by (intros _; lia).
    pose proof (avoids_refine_frames self sp mx nbf (Z.to_nat nbf) sample 0%Z
                  (effective_batch_size self nbf) T Hfuel) as Hf.
    destruct (refine_frames wiener self sp mx nbf (Z.to_nat nbf) sample 0%Z
                (effective_batch_size self nbf) T)
      as [calls [T' | e |]]; simpl in *; [| exact Hf | exact Hf].
    specialize (IH T').
    destruct (refine_samples wiener self sp mx nbf samples T')
      as [calls' r]; simpl in *.
    exact IH.
Qed.

End Loop.

(** ** The guard of [Separator.forward] *)

Section Guard.

Variable torch_stft :
  Tensor -> nat -> nat -> Tensor -> bool -> bool -> bool -> string ->
  result Tensor.
Variable istft :
  Tensor -> nat -> nat -> Tensor -> bool -> bool -> bool -> string -> nat ->
  result Tensor.
Variable wiener :
  Tensor -> Tensor -> Z -> bool -> option string -> result Tensor.

(** The library routines raise errors of their own, not the one of the
    guard. *)
Hypothesis wiener_avoids :
  forall s m it sm r, avoids (Raise em_error) (wiener s m it sm r).
Hypothesis istft_avoids :
  forall x n_fft n_hop w c nz os pm len,
    avoids (Raise em_error) (istft x n_fft n_hop w c nz os pm len).

Lemma avoids_synthesis self audio a :
  avoids (Raise em_error)
    (snd (Separator_synthesis istft wiener self audio a)).
Proof.
  destruct a as [[[[nb_samples sp] mx] unmix_target] h].
  unfold Separator_synthesis.
  pose proof foreign_em_error as Ho.
  pose proof (avoids_size_at _ Ho sp 1) as Hn.
  destruct (size_at sp 1) as [nb_frames | e |]; simpl;
    [| exact Hn | exact Hn].
  pose proof (avoids_refine_samples wiener _ Ho wiener_avoids self sp mx
                (Z.of_nat nb_frames) (seq 0 nb_samples)
                (zeros (shape mx ++ [effective_nb_sources self]))) as Hs.
  destruct (refine_samples wiener self sp mx (Z.of_nat nb_frames)
              (seq 0 nb_samples)
              (zeros (shape mx ++ [effective_nb_sources self])))
    as [calls r]; simpl in *.
  apply avoids_bind; [exact Hs |]. intros T.
  apply avoids_bind; [apply avoids_permute; exact Ho |]. intros T'.
  apply avoids_bind; [apply avoids_load; exact Ho |]. intros audio_v.
  apply avoids_bind; [apply avoids_size_last; exact Ho |]. intros len.
  apply avoids_bind; [| intros; apply avoids_Ok; exact Ho].
  unfold fmap. apply avoids_bind; [apply istft_avoids |].
  intros; apply avoids_Ok; exact Ho.
Qed.

(** C2. Once the estimates and the mixture transform are computed,
    [Separator.forward] raises the error of its guard if and only if the
    target names, residual included, are exactly one and [niter] is
    positive; with [niter = 0] the call goes on to the refinement. *)
Theorem em_guard_iff :
  forall self audio h a,
    Separator_analysis torch_stft self audio h = Ok a ->
    (Separator_forward torch_stft istft wiener self audio h = Raise em_error
     <-> length (effective_targets self) = 1 /\ (0 < niter self)%Z) /\
    (niter self = 0%Z ->
     Separator_forward_traced torch_stft istft wiener self audio h =
     Separator_synthesis istft wiener self audio a).
Proof.
  intros self audio h a Ha.
  unfold Separator_forward, Separator_forward_traced. rewrite Ha.
  split.
  - destruct ((length (effective_targets self) =? 1) && (0 <? niter self)%Z)
      eqn:G.
    + apply andb_prop in G. destruct G as [G1 G2].
      apply Nat.eqb_eq in G1. apply Z.ltb_lt in G2. simpl.
      split; [intros _; split; assumption | reflexivity].
    + split.
      * intros H. exfalso. apply (avoids_synthesis self audio a).
        unfold outcome. rewrite H. reflexivity.
      * intros [G1 G2]. apply Nat.eqb_eq in G1. apply Z.ltb_lt in G2.
        rewrite G1, G2 in G. discriminate.
  - intros H0. rewrite H0. rewrite andb_false_r. reflexivity.
Qed.

End Guard.

Lemma wiener_model_avoids :
  forall s m it sm r, avoids (Raise em_error) (wiener_model s m it sm r).
Proof.
  intros. unfold wiener_model.
  destruct (shape m); unfold avoids; discriminate.
Defined.

Lemma stub_istft_avoids :
  forall x n_fft n_hop w c nz os pm len,
    avoids (Raise em_error) (stub_istft x n_fft n_hop w c nz os pm len).
Proof.
  intros. unfold stub_istft.
  destruct (rev (shape x)) as [| [| [| [| k]]] [| frames [| bins lead]]];
    unfold avoids; discriminate.
Defined.

Lemma em_guard_iff_witness :
  Separator_forward stub_stft stub_istft wiener_model (sep_single 1)
    handle_A [audio_A] = Raise em_error /\
  Separator_forward stub_stft stub_istft wiener_model (sep_single 0)
    handle_A [audio_A] <> Raise em_error.
Proof.
  assert (H1 : exists a, Separator_analysis stub_stft (sep_single 1)
                           handle_A [audio_A] = Ok a)
    by (eexists; run_model; reflexivity).
  assert (H0 : exists a, Separator_analysis stub_stft (sep_single 0)
                           handle_A [audio_A] = Ok a)
    by (eexists; run_model; reflexivity).
  destruct H1 as [a1 H1]. destruct H0 as [a0 H0].
  split.
  - apply (em_guard_iff stub_stft stub_istft wiener_model
             wiener_model_avoids stub_istft_avoids _ _ _ a1 H1).
    split; reflexivity.
  - intros E.
    apply (em_guard_iff stub_stft stub_istft wiener_model
             wiener_model_avoids stub_istft_avoids _ _ _ a0 H0) in E.
    destruct E as [_ E]. discriminate E.
Defined.

(** ** The value [Separator.forward] returns *)

(** C1. Whenever [Separator.forward] returns, what it returns is the
    tensor [istft] produced: the dictionary [estimates] is overwritten and
    no mapping from target names to waveforms is built. *)
Theorem Separator_forward_returns_tensor :
  forall torch_stft istft wiener self audio h v h',
    Separator_forward torch_stft istft wiener self audio h = Ok (v, h') ->
    exists t, v = PyTensor t /\ forall items, v <> PyDict items.
Proof.
  intros torch_stft istft wiener self audio h v h'.
  unfold Separator_forward, Separator_forward_traced.
  destruct (Separator_analysis torch_stft self audio h)
    as [[[[[nb_samples sp] mx] unmix_target] h1] | e |];
    simpl; try discriminate.
  destruct ((length (effective_targets self) =? 1) && (0 <? niter self)%Z);
    simpl; try discriminate.
  destruct (size_at sp 1) as [nb_frames | e |]; simpl; try discriminate.
  destruct (refine_samples wiener self sp mx (Z.of_nat nb_frames)
              (seq 0 nb_samples)
              (zeros (shape mx ++ [effective_nb_sources self])))
    as [calls r]; simpl.
  intros H.
  apply bind_Ok_inv in H. destruct H as [T [_ H]].
  apply bind_Ok_inv in H. destruct H as [T' [_ H]].
  apply bind_Ok_inv in H. destruct H as [audio_v [_ H]].
  apply bind_Ok_inv in H. destruct H as [len [_ H]].
  apply bind_Ok_inv in H. destruct H as [estimates [He H]].
  unfold fmap in He.
  apply bind_Ok_inv in He. destruct He as [t [_ He]].
  injection He as <-. injection H as <- _.
  exists t. split; [reflexivity | discriminate].
Qed.

Lemma Separator_forward_returns_tensor_witness :
  exists t h',
    Separator_forward stub_stft stub_istft wiener_model (sep_A None)
      handle_A [audio_A] = Ok (PyTensor t, h') /\
    shape t = [1; 2; 1; 2] /\
    forall items, PyTensor t <> PyDict items.
Proof.
  assert (H : exists t h',
             Separator_forward stub_stft stub_istft wiener_model
               (sep_A None) handle_A [audio_A] = Ok (PyTensor t, h') /\
             shape t = [1; 2; 1; 2])
    by (do 2 eexists; split; [run_model; reflexivity | reflexivity]).
  destruct H as [t [h' [H Hs]]].
  exists t, h'. split; [exact H | split; [exact Hs |]].
  destruct (Separator_forward_returns_tensor _ _ _ _ _ _ _ _ H)
    as [t' [_ Hd]].
  exact Hd.
Defined.

(** C7. When the refinement loop of one sample completes, the frame
    windows it processed are, in order, consecutive runs that together
    list the frames [0 .. nb_frames - 1] once each: no window is empty or
    longer than the batch size in force (all frames when [batch_size] is
    unset), every window but the last has exactly that size, and each
    window starts one past the last frame of the window before it. *)
Theorem frame_windows_partition :
  forall wiener self spectrograms mix_stft (nb_frames fuel sample : nat)
         targets_stft calls targets_stft',
    let bs := effective_batch_size self (Z.of_nat nb_frames) in
    let ws := map wc_frames calls in
    refine_frames wiener self spectrograms mix_stft (Z.of_nat nb_frames)
      fuel sample 0 bs targets_stft = (calls, Ok targets_stft') ->
    concat ws = map Z.of_nat (seq 0 nb_frames) /\
    Forall (fun w => w <> [] /\ (Z.of_nat (length w) <= bs)%Z) ws /\
    (forall i, S i < length ws ->
       Z.of_nat (length (nth i ws [])) = bs /\
       hd 0%Z (nth (S i) ws []) = (last (nth i ws []) 0 + 1)%Z) /\
    (batch_size self = None -> 0 < nb_frames ->
     ws = [map Z.of_nat (seq 0 nb_frames)]).
Proof.
  intros wiener self spectrograms mix_stft nb_frames fuel sample T calls T'
    bs ws H.
  pose proof (refine_frames_windows _ _ _ _ _ _ _ _ _ _ _ _ H) as Hw.
  fold ws in Hw.
  split; [| split; [| split]].
  - rewrite (windows_from_concat _ _ _ _ Hw). apply zrange_nat.
  - exact (windows_from_sizes _ _ _ _ Hw).
  - exact (windows_from_chain _ _ _ _ Hw).
  - intros Hnone Hpos. rewrite <- zrange_nat.
    apply (windows_from_single _ bs); [exact Hw | lia |].
    unfold bs, effective_batch_size. rewrite Hnone. lia.
Qed.

Lemma frame_windows_partition_witness :
  exists calls T',
    refine_frames wiener_model (sep_A (Some 2%Z)) spectrograms_W mix_stft_W
      3 3 0 0 2 targets_stft_W = (calls, Ok T') /\
    map wc_frames calls = [[0; 1]; [2]]%Z /\
    concat (map wc_frames calls) = [0; 1; 2]%Z.
Proof.
  assert (H : exists calls T',
             refine_frames wiener_model (sep_A (Some 2%Z)) spectrograms_W
               mix_stft_W 3 3 0 0 2 targets_stft_W = (calls, Ok T') /\
             map wc_frames calls = [[0; 1]; [2]]%Z)
    by (do 2 eexists; split; [run_model; reflexivity | reflexivity]).
  destruct H as [calls [T' [H Hw]]].
  exists calls, T'. split; [exact H | split; [exact Hw |]].
  exact (proj1 (frame_windows_partition wiener_model (sep_A (Some 2%Z))
                  spectrograms_W mix_stft_W 3 3 0 targets_stft_W calls T' H)).
Defined.

(** ** Properties of [OpenUnmix] *)

Lemma get_nonneg t idx :
  Forall (Rle 0) (data t) -> (0 <= get t idx)%R.
Proof.
  intros H. unfold get.
  destruct (nth_in_or_default (ravel (shape t) idx) (data t) 0%R)
    as [Hin | ->]; [| lra].
  exact (proj1 (Forall_forall _ _) H _ Hin).
Qed.

Lemma relu_nonneg x : (0 <= relu x)%R.
Proof. unfold relu. apply Rmax_l. Qed.

Lemma pow_real_nonneg x p : (0 <= pow_real x p)%R.
Proof.
  unfold pow_real.
  destruct (Req_dec_T x 0); [destruct (Req_dec_T p 0); lra |].
  unfold Rpower. left. apply exp_pos.
Qed.

Lemma map_tensor_nonneg f t :
  (forall v, 0 <= f v)%R -> Forall (Rle 0) (data (map_tensor f t)).
Proof.
  intros H. simpl. apply Forall_forall. intros v Hv.
  apply in_map_iff in Hv. destruct Hv as [u [<- _]]. apply H.
Qed.

Lemma sum_range_nonneg n f :
  (forall k, 0 <= f k)%R -> (0 <= sum_range n f)%R.
Proof.
  intros H. unfold sum_range.
  induction (seq 0 n) as [| k l IH]; simpl; [lra |].
  specialize (H k). lra.
Qed.

Lemma permute_nonneg dims t p :
  permute dims t = Ok p -> Forall (Rle 0) (data t) -> Forall (Rle 0) (data p).
Proof.
  unfold permute. destruct (is_permutation dims (dim t)); [| discriminate].
  intros H Ht. injection H as <-.
  apply build_Forall. intros idx _. apply get_nonneg. exact Ht.
Qed.

Lemma sum_last_nonneg t p :
  sum_last t = Ok p -> Forall (Rle 0) (data t) -> Forall (Rle 0) (data p).
Proof.
  unfold sum_last. destruct (size_last t) as [d | e |]; simpl;
    try discriminate.
  intros H Ht. injection H as <-.
  apply build_Forall. intros idx _. apply sum_range_nonneg.
  intros k. apply get_nonneg. exact Ht.
Qed.

Lemma mean_dim1_keepdim_nonneg t p :
  mean_dim1_keepdim t = Ok p ->
  Forall (Rle 0) (data t) -> Forall (Rle 0) (data p).
Proof.
  unfold mean_dim1_keepdim.
  destruct (shape t) as [| b [| c rest]]; try discriminate.
  intros H Ht. injection H as <-.
  apply build_Forall. intros [| i [| j tl]] _; try lra.
  assert (Hs : (0 <= sum_range c (fun k => get t (i :: k :: tl)))%R)
    by (apply sum_range_nonneg; intros k; apply get_nonneg; exact Ht).
  destruct c as [| c].
  - unfold sum_range. simpl. unfold Rdiv. rewrite Rmult_0_l. lra.
  - unfold Rdiv. apply Rmult_le_pos; [exact Hs |].
    left. apply Rinv_0_lt_compat. apply lt_0_INR. lia.
Qed.

Lemma Spectrogram_forward_nonneg self stft_f p :
  Spectrogram_forward self stft_f = Ok p -> Forall (Rle 0) (data p).
Proof.
  unfold Spectrogram_forward. intros H.
  apply bind_Ok_inv in H. destruct H as [t1 [_ H]].
  apply bind_Ok_inv in H. destruct H as [t2 [H2 H]].
  apply bind_Ok_inv in H. destruct H as [t3 [H3 H]].
  apply (permute_nonneg _ _ _ H).
  assert (Hpow : Forall (Rle 0)
                   (data (map_tensor (fun v => pow_real v (power self / 2))
                            t2)))
    by (apply map_tensor_nonneg; intros v; apply pow_real_nonneg).
  destruct (mono self).
  - exact (mean_dim1_keepdim_nonneg _ _ H3 Hpow).
  - injection H3 as <-. exact Hpow.
Qed.

Lemma load_nonneg h x v base :
  nth_error h (h_loc x) = Some base ->
  Forall (Rle 0) (data base) ->
  load h x = Ok v -> Forall (Rle 0) (data v).
Proof.
  unfold load. intros -> Hb H. injection H as <-.
  apply build_Forall. intros idx _. apply get_nonneg. exact Hb.
Qed.

(** The mixture magnitude [mix] that [forward] retains is non-negative
    when it was computed from a waveform. *)
Lemma OpenUnmix_transform_nonneg torch_stft self x h x1 h1 mix :
  input_is_spectrogram self = false ->
  OpenUnmix_transform torch_stft self x h = Ok (x1, h1) ->
  load h1 x1 = Ok mix ->
  Forall (Rle 0) (data mix).
Proof.
  unfold OpenUnmix_transform. intros -> H Hmix.
  apply bind_Ok_inv in H. destruct H as [v [_ H]].
  apply bind_Ok_inv in H. destruct H as [s [_ H]].
  apply bind_Ok_inv in H. destruct H as [p [Hp H]].
  unfold alloc in H. injection H as <- <-.
  refine (load_nonneg _ _ _ p _ (Spectrogram_forward_nonneg _ _ _ Hp) Hmix).
  simpl. rewrite nth_error_app2 by lia. rewrite Nat.sub_diag. reflexivity.
Qed.

(** C4. In the arithmetic of the model, real numbers, that is on the
    runs of the program in which no value overflows to infinity or is NaN,
    the output of [OpenUnmix.forward] is element-wise non-negative for a
    waveform, and for a spectrogram that is itself element-wise
    non-negative: it is a rectified gain times the retained mixture
    magnitude. *)
Theorem OpenUnmix_forward_nonneg :
  forall torch_stft self x h out h',
    OpenUnmix_forward torch_stft self x h = Ok (out, h') ->
    (input_is_spectrogram self = true ->
     forall v, load h x = Ok v -> Forall (Rle 0) (data v)) ->
    Forall (Rle 0) (data out).
Proof.
  intros torch_stft self x h out h' H Hin.
  unfold OpenUnmix_forward in H.
  apply bind_Ok_inv in H. destruct H as [[x1 h1] [Ht H]].
  destruct (h_shape x1) as [| nb_frames [| nb_samples [| nb_channels
                          [| nb_bins_in [| d sh]]]]];
    try discriminate.
  apply bind_Ok_inv in H. destruct H as [mix [Hmix H]].
  assert (Hnn : Forall (Rle 0) (data mix)).
  { destruct (input_is_spectrogram self) eqn:Hs.
    - unfold OpenUnmix_transform in Ht. rewrite Hs in Ht.
      injection Ht as <- <-. exact (Hin eq_refl mix Hmix).
    - exact (OpenUnmix_transform_nonneg _ _ _ _ _ _ _ Hs Ht Hmix). }
  apply bind_Ok_inv in H. destruct H as [sh' [_ H]].
  apply bind_Ok_inv in H. destruct H as [h2 [_ H]].
  apply bind_Ok_inv in H. destruct H as [h3 [_ H]].
  apply bind_Ok_inv in H. destruct H as [xv [_ H]].
  apply bind_Ok_inv in H. destruct H as [y1 [_ H]].
  apply bind_Ok_inv in H. destruct H as [y2 [_ H]].
  apply bind_Ok_inv in H. destruct H as [y3 [_ H]].
  apply bind_Ok_inv in H. destruct H as [y4 [Hmul H]].
  injection H as <- _.
  unfold mul, binop in Hmul.
  apply bind_Ok_inv in Hmul. destruct Hmul as [bsh [_ Hmul]].
  injection Hmul as <-.
  apply build_Forall. intros idx _. unfold get_bcast.
  apply Rmult_le_pos.
  - apply get_nonneg. apply map_tensor_nonneg. apply relu_nonneg.
  - apply get_nonneg. exact Hnn.
Qed.

Lemma OpenUnmix_forward_nonneg_witness :
  exists out h',
    OpenUnmix_forward stub_stft model_S0 handle_S [spec_S] = Ok (out, h') /\
    Forall (Rle 0) (data out).
Proof.
  assert (H : exists out h',
             OpenUnmix_forward stub_stft model_S0 handle_S [spec_S] =
             Ok (out, h'))
    by (do 2 eexists; run_model; reflexivity).
  destruct H as [out [h' H]].
  exists out, h'. split; [exact H |].
  apply (OpenUnmix_forward_nonneg _ _ _ _ _ _ H).
  intros _ v Hv. revert Hv. run_model. intros Hv. injection Hv as <-.
  repeat constructor; lra.
Defined.

(** Counterexample to C4 as stated: an estimator built with
    [input_is_spectrogram=True] and given a tensor with a negative entry
    returns a negative entry. *)
Lemma OpenUnmix_forward_negative_output :
  exists out h',
    OpenUnmix_forward stub_stft model_S0 handle_S [spec_N] = Ok (out, h') /\
    ~ Forall (Rle 0) (data out).
Proof.
  do 2 eexists. split; [run_model; reflexivity |].
  intros F. apply Forall_inv in F.
  unfold relu, Rmax in F.
  destruct (Rle_dec 0 (0 * 1 + 1)) in F; lra.
Qed.

(** *** In-place normalisation of the input *)

Lemma nth_error_update_other {A : Type} (l : list A) : forall n k a,
  k <> n -> nth_error (update l n a) k = nth_error l k.
Proof.
  induction l as [| x l IH]; intros [| n] [| k] a Hk; simpl;
    try reflexivity; try contradiction.
  apply IH. lia.
Qed.

(** With a waveform the storage of the caller's tensor is left as it
    was: the normalisation writes to the spectrogram [forward] computed. *)
Lemma OpenUnmix_forward_waveform_keeps_input torch_stft self x h out h' :
  input_is_spectrogram self = false ->
  h_loc x < length h ->
  OpenUnmix_forward torch_stft self x h = Ok (out, h') ->
  nth_error h' (h_loc x) = nth_error h (h_loc x).
Proof.
  intros Hs Hx H. unfold OpenUnmix_forward in H.
  apply bind_Ok_inv in H. destruct H as [[x1 h1] [Ht H]].
  unfold OpenUnmix_transform in Ht. rewrite Hs in Ht.
  apply bind_Ok_inv in Ht. destruct Ht as [v [_ Ht]].
  apply bind_Ok_inv in Ht. destruct Ht as [s [_ Ht]].
  apply bind_Ok_inv in Ht. destruct Ht as [p [_ Ht]].
  unfold alloc in Ht. injection Ht as <- <-. simpl in H.
  destruct (shape p) as [| nb_frames [| nb_samples [| nb_channels
                       [| nb_bins_in [| d sh]]]]];
    try discriminate.
  apply bind_Ok_inv in H. destruct H as [mix [_ H]].
  apply bind_Ok_inv in H. destruct H as [sh' [_ H]].
  apply bind_Ok_inv in H. destruct H as [h2 [H2 H]].
  apply bind_Ok_inv in H. destruct H as [h3 [H3 H]].
  apply bind_Ok_inv in H. destruct H as [xv [_ H]].
  apply bind_Ok_inv in H. destruct H as [y1 [_ H]].
  apply bind_Ok_inv in H. destruct H as [y2 [_ H]].
  apply bind_Ok_inv in H. destruct H as [y3 [_ H]].
  apply bind_Ok_inv in H. destruct H as [y4 [_ H]].
  injection H as _ <-.
  unfold inplace_view in H2, H3. simpl in H2, H3.
  destruct (nth_error (h ++ [p]) (length h)) as [base |]; [| discriminate].
  apply bind_Ok_inv in H2. destruct H2 as [s2 [_ H2]].
  destruct (list_eq_dec Nat.eq_dec s2 sh'); [| discriminate].
  injection H2 as <-.
  destruct (nth_error (update (h ++ [p]) (length h) _) (length h))
    as [base' |]; [| discriminate].
  apply bind_Ok_inv in H3. destruct H3 as [s3 [_ H3]].
  destruct (list_eq_dec Nat.eq_dec s3 sh'); [| discriminate].
  injection H3 as <-.
  rewrite !nth_error_update_other by lia.
  apply nth_error_app1. exact Hx.
Qed.

(** C5. With [input_is_spectrogram=True] the call writes to its
    argument: the estimator built with [input_mean = [1, 1]] leaves, in the
    caller's tensor [[3, 4]], the values [[2, 3]]. *)
Theorem OpenUnmix_forward_writes_input :
  exists out h',
    OpenUnmix_forward stub_stft model_S handle_S [spec_S] = Ok (out, h') /\
    load [spec_S] handle_S = Ok spec_S /\
    load h' handle_S = Ok (mkTensor [1; 1; 1; 2] [2%R; 3%R]) /\
    load h' handle_S <> load [spec_S] handle_S.
Proof.
  do 2 eexists. split; [run_model; reflexivity |].
  split; [run_model; reflexivity |].
  assert (E : load [mkTensor [1; 1; 1; 2]
                      [((3 + - (1)) * 1)%R; ((4 + - (1)) * 1)%R]] handle_S =
              Ok (mkTensor [1; 1; 1; 2] [2%R; 3%R])).
  { run_model. do 3 f_equal; [lra | f_equal; lra]. }
  split; [exact E |].
  rewrite E. run_model. intros H. injection H as H _. lra.
Qed.

(** *** The shape of the estimate *)

Lemma numel_app a b : numel (a ++ b) = numel a * numel b.
Proof.
  induction a as [| x a IH]; simpl; [lia |].
  fold (numel (a ++ b)) (numel a). rewrite IH. lia.
Qed.

Lemma existsb_below_of_nat l :
  existsb (fun z => (z <? -1)%Z) (map Z.of_nat l) = false.
Proof.
  induction l as [| x l IH]; simpl; [reflexivity |].
  rewrite IH. destruct (Z.ltb_spec (Z.of_nat x) (-1)); [lia | reflexivity].
Qed.

Lemma filter_known_of_nat l :
  filter (fun z => negb (z =? -1)%Z) (map Z.of_nat l) = map Z.of_nat l.
Proof.
  induction l as [| x l IH]; simpl; [reflexivity |].
  destruct (Z.eqb_spec (Z.of_nat x) (-1)); [lia |]. simpl. f_equal. exact IH.
Qed.

Lemma filter_unknown_of_nat l :
  filter (fun z => (z =? -1)%Z) (map Z.of_nat l) = [].
Proof.
  induction l as [| x l IH]; simpl; [reflexivity |].
  destruct (Z.eqb_spec (Z.of_nat x) (-1)); [lia | exact IH].
Qed.

Lemma to_nat_of_nat l : map Z.to_nat (map Z.of_nat l) = l.
Proof.
  rewrite map_map. rewrite <- (map_id l) at 2.
  apply map_ext. intros x. apply Nat2Z.id.
Qed.

Lemma infer_of_nat k l :
  map (fun z => if (z =? -1)%Z then k else Z.to_nat z) (map Z.of_nat l) = l.
Proof.
  rewrite map_map. rewrite <- (map_id l) at 2.
  apply map_ext. intros x.
  destruct (Z.eqb_spec (Z.of_nat x) (-1)); [lia | apply Nat2Z.id].
Qed.

(** A request with every size given is granted as it is. *)
Lemma infer_shape_all n l sh :
  infer_shape n (map Z.of_nat l) = Ok sh -> sh = l.
Proof.
  unfold infer_shape.
  rewrite existsb_below_of_nat, filter_unknown_of_nat. simpl.
  destruct (_ =? n); [| discriminate].
  intros H. injection H as <-. apply to_nat_of_nat.
Qed.

(** A request with one [-1] gets the size that accounts for the
    elements. *)
Lemma infer_shape_one n pre post sh :
  infer_shape n (map Z.of_nat pre ++ (-1)%Z :: map Z.of_nat post) = Ok sh ->
  exists k,
    sh = pre ++ k :: post /\
    n = numel pre * numel post * k /\
    numel pre * numel post <> 0.
Proof.
  unfold infer_shape.
  rewrite existsb_app. simpl. rewrite !existsb_below_of_nat. simpl.
  rewrite !filter_app. simpl.
  rewrite !filter_known_of_nat, !filter_unknown_of_nat. simpl.
  rewrite map_app, !to_nat_of_nat.
  fold (numel (pre ++ post)). rewrite numel_app.
  destruct (Nat.eqb_spec (numel pre * numel post) 0) as [E | E];
    [discriminate |].
  destruct (Nat.eqb_spec (n mod (numel pre * numel post)) 0) as [M | M];
    [| discriminate].
  intros H. injection H as <-.
  exists (n / (numel pre * numel post)).
  split; [| split; [| exact E]].
  - rewrite map_app. simpl.
    rewrite !infer_of_nat.
    reflexivity.
  - pose proof (Nat.div_mod_eq n (numel pre * numel post)). lia.
Qed.

Lemma reshape_shape spec t t' sh :
  reshape spec t = Ok t' ->
  (forall sh', infer_shape (numel (shape t)) spec = Ok sh' -> sh' = sh) ->
  shape t' = sh.
Proof.
  unfold reshape. intros H Hsh.
  apply bind_Ok_inv in H. destruct H as [sh' [Hi H]].
  injection H as <-. simpl. exact (Hsh _ Hi).
Qed.

Lemma broadcast_rev_same l : broadcast_rev l l = Ok l.
Proof.
  induction l as [| x l IH]; simpl; [reflexivity |].
  rewrite IH. simpl. rewrite Nat.eqb_refl. reflexivity.
Qed.

Lemma broadcast_shapes_same l : broadcast_shapes l l = Ok l.
Proof.
  unfold broadcast_shapes. rewrite broadcast_rev_same. simpl.
  rewrite rev_involutive. reflexivity.
Qed.

Lemma inplace_shape f x v y : inplace f x v = Ok y -> shape y = shape x.
Proof.
  unfold inplace. intros H.
  apply bind_Ok_inv in H. destruct H as [sh [_ H]].
  destruct (list_eq_dec Nat.eq_dec sh (shape x)); [| discriminate].
  injection H as <-. reflexivity.
Qed.

Lemma load_shape h x v : load h x = Ok v -> shape v = h_shape x.
Proof.
  unfold load. destruct (nth_error h (h_loc x)); [| discriminate].
  intros H. injection H as <-. reflexivity.
Qed.

Section Shapes.

Variable torch_stft :
  Tensor -> nat -> nat -> Tensor -> bool -> bool -> bool -> string ->
  result Tensor.
Hypothesis torch_stft_shape : stft_shape_contract torch_stft.

Lemma STFT_forward_shape self x y B C T :
  shape x = [B; C; T] ->
  STFT_forward torch_stft self x = Ok y ->
  shape y = [B; C; n_fft self / 2 + 1;
             stft_nb_frames T (n_fft self) (n_hop self) (center self); 2].
Proof.
  intros Hx H. unfold STFT_forward in H. rewrite Hx in H.
  apply bind_Ok_inv in H. destruct H as [x1 [H1 H]].
  apply bind_Ok_inv in H. destruct H as [y0 [H0 H]].
  assert (Hx1 : shape x1 = [B * C; T]).
  { apply (reshape_shape _ _ _ _ H1). intros sh' Hi. rewrite Hx in Hi.
    change [Z.of_nat (B * C); (-1)%Z]
      with (map Z.of_nat [B * C] ++ (-1)%Z :: map Z.of_nat []) in Hi.
    apply infer_shape_one in Hi. destruct Hi as [k [-> [Hn Hk]]].
    simpl in *. f_equal. f_equal. nia. }
  pose proof (torch_stft_shape _ _ _ _ _ _ _ _ _ _ _ Hx1 H0) as Hy0.
  apply (reshape_shape _ _ _ _ H). intros sh' Hi. rewrite Hy0 in Hi.
  change [Z.of_nat B; Z.of_nat C; Z.of_nat (n_fft self / 2 + 1); (-1)%Z; 2%Z]
    with (map Z.of_nat [B; C; n_fft self / 2 + 1] ++
          (-1)%Z :: map Z.of_nat [2]) in Hi.
  apply infer_shape_one in Hi. destruct Hi as [k [-> [Hn Hk]]].
  simpl in *. do 3 f_equal. f_equal. nia.
Qed.

Lemma Spectrogram_forward_shape self x y B C bins F :
  shape x = [B; C; bins; F; 2] ->
  Spectrogram_forward self x = Ok y ->
  shape y = [F; B; if mono self then 1 else C; bins].
Proof.
  intros Hx H. unfold Spectrogram_forward in H.
  apply bind_Ok_inv in H. destruct H as [t1 [H1 H]].
  apply bind_Ok_inv in H. destruct H as [t2 [H2 H]].
  apply bind_Ok_inv in H. destruct H as [t3 [H3 H]].
  assert (S1 : shape t1 = [B; C; F; bins; 2]).
  { unfold transpose, permute, dim in H1. rewrite Hx in H1. simpl in H1.
    injection H1 as <-. reflexivity. }
  assert (S2 : shape t2 = [B; C; F; bins]).
  { unfold sum_last, size_last in H2. simpl in H2. rewrite S1 in H2.
    simpl in H2. injection H2 as <-. reflexivity. }
  assert (S3 : shape t3 = [B; if mono self then 1 else C; F; bins]).
  { destruct (mono self).
    - unfold mean_dim1_keepdim in H3. simpl in H3. rewrite S2 in H3.
      injection H3 as <-. reflexivity.
    - injection H3 as <-. exact S2. }
  unfold permute, dim in H. rewrite S3 in H. simpl in H.
  injection H as <-. reflexivity.
Qed.

Lemma OpenUnmix_forward_shape self x h out h' B C T :
  input_is_spectrogram self = false ->
  nb_output_bins self = n_fft (stft self) / 2 + 1 ->
  h_shape x = [B; C; T] ->
  OpenUnmix_forward torch_stft self x h = Ok (out, h') ->
  shape out =
  [stft_nb_frames T (n_fft (stft self)) (n_hop (stft self))
     (center (stft self));
   B; if mono (spec self) then 1 else C; n_fft (stft self) / 2 + 1].
Proof.
  intros Hs Hbins Hx H. unfold OpenUnmix_forward in H.
  apply bind_Ok_inv in H. destruct H as [[x1 h1] [Ht H]].
  unfold OpenUnmix_transform in Ht. rewrite Hs in Ht.
  apply bind_Ok_inv in Ht. destruct Ht as [v [Hv Ht]].
  apply bind_Ok_inv in Ht. destruct Ht as [s [Hst Ht]].
  apply bind_Ok_inv in Ht. destruct Ht as [p [Hp Ht]].
  apply load_shape in Hv. rewrite Hx in Hv.
  pose proof (STFT_forward_shape _ _ _ _ _ _ Hv Hst) as Sst.
  pose proof (Spectrogram_forward_shape _ _ _ _ _ _ _ Sst Hp) as Sp.
  unfold alloc in Ht. injection Ht as <- <-. cbn [h_shape h_loc] in H.
  rewrite Sp in H.
  apply bind_Ok_inv in H. destruct H as [mix [Hmix H]].
  apply load_shape in Hmix. cbn [h_shape] in Hmix.
  apply bind_Ok_inv in H. destruct H as [sh' [_ H]].
  apply bind_Ok_inv in H. destruct H as [h2 [_ H]].
  apply bind_Ok_inv in H. destruct H as [h3 [_ H]].
  apply bind_Ok_inv in H. destruct H as [xv [_ H]].
  apply bind_Ok_inv in H. destruct H as [y1 [Hnet H]].
  apply bind_Ok_inv in H. destruct H as [y2 [Hy2 H]].
  apply bind_Ok_inv in H. destruct H as [y3 [Hy3 H]].
  apply bind_Ok_inv in H. destruct H as [y4 [Hmul H]].
  injection H as <- _.
  assert (S1 : shape y1 =
               [stft_nb_frames T (n_fft (stft self)) (n_hop (stft self))
                  (center (stft self));
                B; if mono (spec self) then 1 else C;
                nb_output_bins self]).
  { unfold OpenUnmix_network in Hnet.
    do 12 (apply bind_Ok_inv in Hnet; destruct Hnet as [? [_ Hnet]]).
    apply (reshape_shape _ _ _ _ Hnet). intros sh1 Hi.
    exact (infer_shape_all _ [_; _; _; _] _ Hi). }
  apply inplace_shape in Hy2. apply inplace_shape in Hy3.
  unfold mul, binop in Hmul.
  apply bind_Ok_inv in Hmul. destruct Hmul as [bsh [Hb Hmul]].
  injection Hmul as <-. cbn [shape build].
  unfold map_tensor in Hb. cbn [shape] in Hb. rewrite Hy3, Hy2, S1, Hmix, Hbins in Hb.
  rewrite broadcast_shapes_same in Hb. injection Hb as <-. reflexivity.
Qed.

End Shapes.

(** C9. For a waveform of shape [(B, C, T)], the estimate has shape
    [(frames, B, C', full_bins)]: [full_bins] is [n_fft // 2 + 1] whatever
    [max_bin], [frames] is the frame count of the transform for [T]
    samples, and the channel axis [C'] is [C], but [1] when the estimator
    was built with [nb_channels = 1] and averages the channels. *)
Theorem OpenUnmix_output_shape :
  forall hann_window torch_stft n_fft n_hop hidden_size nb_channels
         sample_rate input_mean input_scale max_bin power layers
         x h out h' B C T,
    stft_shape_contract torch_stft ->
    h_shape x = [B; C; T] ->
    OpenUnmix_forward torch_stft
      (OpenUnmix_init hann_window n_fft n_hop false hidden_size nb_channels
         sample_rate input_mean input_scale max_bin power layers)
      x h = Ok (out, h') ->
    shape out =
    [stft_nb_frames T n_fft n_hop true; B;
     if nb_channels =? 1 then 1 else C; n_fft / 2 + 1].
Proof.
  intros hann_window torch_stft n_fft n_hop hidden_size nb_channels
    sample_rate input_mean input_scale max_bin power layers
    x h out h' B C T Hc Hx H.
  exact (OpenUnmix_forward_shape torch_stft Hc
           (OpenUnmix_init hann_window n_fft n_hop false hidden_size
              nb_channels sample_rate input_mean input_scale max_bin power
              layers)
           x h out h' B C T eq_refl eq_refl Hx H).
Qed.

Lemma stub_stft_shape : stft_shape_contract stub_stft.
Proof.
  intros x N T n_fft n_hop w c nz os pm y Hx H.
  unfold stub_stft in H. rewrite Hx in H. injection H as <-. reflexivity.
Defined.

Lemma OpenUnmix_output_shape_witness :
  exists out h',
    OpenUnmix_forward stub_stft model_B handle_B [audio_B] = Ok (out, h') /\
    shape out = [3; 1; 2; 2].
Proof.
  assert (H : exists out h',
             OpenUnmix_forward stub_stft model_B handle_B [audio_B] =
             Ok (out, h'))
    by (do 2 eexists; run_model; reflexivity).
  destruct H as [out [h' H]].
  exists out, h'. split; [exact H |].
  exact (OpenUnmix_output_shape stub_hann_window stub_stft 2 1 1 2 44100
           None None None 1 (zero_layers 1 4) handle_B [audio_B] out h'
           1 2 2 stub_stft_shape eq_refl H).
Defined.

(** Counterexample to C9 as stated: an estimator built with
    [nb_channels = 1] averages the two channels of a stereo waveform, and
    the channel axis of its estimate has size 1, not 2. *)
Lemma OpenUnmix_output_shape_mono :
  exists out h',
    OpenUnmix_forward stub_stft model_A handle_B [audio_B] = Ok (out, h') /\
    shape out = [3; 1; 1; 2] /\
    shape out <> [stft_nb_frames 2 2 1 true; 1; 2; 2 / 2 + 1].
Proof.
  do 2 eexists. split; [run_model; reflexivity |].
  split; [reflexivity | discriminate].
Qed.


(** ** Windowed refinement and refinement in one pass *)

Lemma zrange_nat_seq a m :
  zrange (Z.of_nat a) (Z.of_nat (a + m)) = map Z.of_nat (seq a m).
Proof.
  unfold zrange.
  replace (Z.to_nat (Z.of_nat (a + m) - Z.of_nat a)) with m by lia.
  rewrite (map_seq_shift m a Z.of_nat). apply map_ext. intros k. lia.
Qed.

Lemma norm_indices_of_nat f l :
  Forall (fun i => i < f) l -> norm_indices f (map Z.of_nat l) = Ok l.
Proof.
  induction 1 as [| x l Hx Hl IH]; simpl; [reflexivity |].
  unfold norm_index.
  destruct (Z.leb_spec 0 (Z.of_nat x)); [| lia].
  destruct (Z.ltb_spec (Z.of_nat x) (Z.of_nat f)); [| lia].
  simpl. rewrite IH. simpl. rewrite Nat2Z.id. reflexivity.
Qed.

Lemma norm_indices_of_nat_inv f l : forall r,
  norm_indices f (map Z.of_nat l) = Ok r ->
  r = l /\ Forall (fun i => i < f) l.
Proof.
  induction l as [| x l IH]; simpl; intros r H.
  - injection H as <-. split; constructor.
  - apply bind_Ok_inv in H. destruct H as [i [Hi H]].
    apply bind_Ok_inv in H. destruct H as [r' [Hr H]].
    injection H as <-. destruct (IH _ Hr) as [-> HF].
    unfold norm_index in Hi.
    destruct (Z.leb_spec 0 (Z.of_nat x)); [| lia].
    destruct (Z.ltb_spec (Z.of_nat x) (Z.of_nat f)); simpl in Hi.
    + injection Hi as <-. rewrite Nat2Z.id.
      split; [reflexivity | constructor; [lia | exact HF]].
    + destruct (Z.ltb_spec (Z.of_nat x) 0); [lia |].
      rewrite andb_false_r in Hi. discriminate.
Qed.

Lemma Forall_seq_lt a m f :
  Forall (fun i => i < f) (seq a m) <-> m = 0 \/ a + m <= f.
Proof.
  rewrite Forall_forall. split.
  - intros H. destruct m as [| m]; [left; reflexivity | right].
    assert (Hin : In (a + m) (seq a (S m))) by (apply in_seq; lia).
    specialize (H _ Hin). lia.
  - intros H i Hi. apply in_seq in Hi. lia.
Qed.

Lemma find_index_seq i m : forall a,
  find_index i (seq a m) =
  if (a <=? i) && (i <? a + m) then Some (i - a) else None.
Proof.
  induction m as [| m IH]; intros a; simpl.
  - destruct (Nat.leb_spec a i), (Nat.ltb_spec i (a + 0)); simpl;
      try reflexivity; lia.
  - rewrite IH.
    destruct (Nat.eqb_spec a i) as [-> | Hne].
    + rewrite Nat.leb_refl.
      destruct (Nat.ltb_spec i (i + S m)); [| lia].
      simpl. f_equal. lia.
    + destruct (Nat.leb_spec (S a) i), (Nat.ltb_spec i (S a + m)),
        (Nat.leb_spec a i), (Nat.ltb_spec i (a + S m)); simpl;
        try reflexivity; try lia.
      f_equal. lia.
Qed.

Lemma index_rows_seq x sample a m b f rest :
  shape x = b :: f :: rest ->
  sample < b ->
  m = 0 \/ a + m <= f ->
  index_rows x sample (map Z.of_nat (seq a m)) =
  Ok (sample_rows x sample a m).
Proof.
  intros Hx Hs Hm. unfold index_rows, sample_rows. rewrite Hx.
  destruct (Nat.ltb_spec sample b); [| lia].
  rewrite norm_indices_of_nat by (apply Forall_seq_lt; exact Hm).
  simpl. rewrite length_seq. f_equal.
  apply build_ext. intros [| k r] Hin; [reflexivity |].
  simpl in Hin. apply andb_prop in Hin. destruct Hin as [Hk _].
  apply Nat.ltb_lt in Hk. rewrite seq_nth by exact Hk. reflexivity.
Qed.

Lemma index_rows_seq_inv x sample a m r :
  index_rows x sample (map Z.of_nat (seq a m)) = Ok r ->
  exists b f rest,
    shape x = b :: f :: rest /\ sample < b /\ (m = 0 \/ a + m <= f) /\
    r = sample_rows x sample a m.
Proof.
  intros H. pose proof H as H'. unfold index_rows in H.
  destruct (shape x) as [| b [| f rest]] eqn:Hx; try discriminate.
  destruct (Nat.ltb_spec sample b) as [Hs | Hs]; [| discriminate].
  apply bind_Ok_inv in H. destruct H as [rws [Hn _]].
  apply norm_indices_of_nat_inv in Hn. destruct Hn as [_ HF].
  apply Forall_seq_lt in HF.
  exists b, f, rest. repeat split; try assumption.
  rewrite (index_rows_seq _ _ _ _ _ _ _ Hx Hs HF) in H'.
  injection H' as <-. reflexivity.
Qed.

Lemma rows_sample_rows x sample a m n :
  a + m <= n ->
  rows a m (sample_rows x sample 0 n) = sample_rows x sample a m.
Proof.
  intros Ham. unfold rows, sample_rows. cbn [shape build tl].
  apply build_ext. intros [| k r] Hin; [reflexivity |].
  simpl in Hin. apply andb_prop in Hin. destruct Hin as [Hk Hr].
  apply Nat.ltb_lt in Hk.
  rewrite get_build; [reflexivity |].
  simpl. rewrite Hr. destruct (Nat.ltb_spec (a + k) n); [reflexivity | lia].
Qed.

Lemma broadcast_rev_fits a : forall b,
  length a = length b -> (broadcast_rev a b = Ok b <-> fits a b).
Proof.
  unfold fits.
  induction a as [| x a IH]; intros [| y b] Hlen; simpl in *;
    try discriminate.
  - split; [constructor | reflexivity].
  - injection Hlen as Hlen. specialize (IH b Hlen). split.
    + intros H. apply bind_Ok_inv in H. destruct H as [r [Hr H]].
      destruct (Nat.eqb_spec x y) as [-> | Hxy].
      * injection H as ->. constructor; [left; reflexivity |].
        apply IH. exact Hr.
      * destruct (Nat.eqb_spec x 1) as [-> | Hx1].
        -- injection H as ->. constructor; [right; reflexivity |].
           apply IH. exact Hr.
        -- destruct (y =? 1); [| discriminate].
           injection H as E _. contradiction.
    + intros H. inversion H as [| ? ? ? ? Hxy Hab]; subst.
      rewrite (proj2 IH Hab). simpl.
      destruct (Nat.eqb_spec x y) as [-> | Hne]; [reflexivity |].
      destruct Hxy as [-> | ->]; [contradiction |]. reflexivity.
Qed.

Lemma fits_rev a b : fits a b -> fits (rev a) (rev b).
Proof.
  unfold fits. induction 1 as [| x y a b Hxy Hab IH]; simpl; [constructor |].
  apply Forall2_app; [exact IH |].
  constructor; [exact Hxy | constructor].
Qed.

Lemma broadcast_shapes_fits a b :
  length a = length b -> (broadcast_shapes a b = Ok b <-> fits a b).
Proof.
  intros Hlen. unfold broadcast_shapes, fmap.
  assert (Hr : length (rev a) = length (rev b))
    by (rewrite !length_rev; exact Hlen).
  split.
  - intros H. apply bind_Ok_inv in H. destruct H as [r [Hb H]].
    injection H as H.
    assert (E : r = rev b) by (rewrite <- H, rev_involutive; reflexivity).
    subst r. apply (broadcast_rev_fits _ _ Hr) in Hb.
    apply fits_rev in Hb. rewrite !rev_involutive in Hb. exact Hb.
  - intros H. apply fits_rev in H.
    rewrite (proj2 (broadcast_rev_fits _ _ Hr) H). simpl.
    rewrite rev_involutive. reflexivity.
Qed.

Lemma clamp_in_bounds w slot :
  fits w slot -> forall idx,
    in_bounds slot idx = true -> in_bounds w (clamp_index w idx) = true.
Proof.
  unfold fits. induction 1 as [| x y w slot Hxy Hw IH]; intros [| i idx] Hin;
    simpl in *; try discriminate; [reflexivity |].
  apply andb_prop in Hin. destruct Hin as [Hi Hin].
  apply Nat.ltb_lt in Hi. rewrite (IH _ Hin), andb_true_r.
  destruct (Nat.eqb_spec x 1) as [-> | Hx1]; [reflexivity |].
  destruct Hxy as [-> | ->]; [| contradiction].
  apply Nat.ltb_lt. exact Hi.
Qed.

Lemma get_bcast_rows W n wrest slot r a m j :
  shape W = n :: wrest ->
  fits wrest slot ->
  in_bounds slot r = true ->
  j < m -> a + m <= n ->
  get_bcast (rows a m W) (j :: r) = get_bcast W (a + j :: r).
Proof.
  intros HW Hfit Hr Hj Ham.
  assert (Hlen : length r = length wrest).
  { rewrite (in_bounds_length _ _ Hr).
    symmetry. exact (Forall2_length Hfit). }
  pose proof (clamp_in_bounds _ _ Hfit _ Hr) as Hc.
  unfold get_bcast, bcast_index, rows. cbn [shape build].
  rewrite HW. cbn [tl length]. rewrite Hlen, Nat.sub_diag. cbn [skipn clamp_index].
  replace (if m =? 1 then 0 else j) with j
    by (destruct (Nat.eqb_spec m 1); lia).
  replace (if n =? 1 then 0 else a + j) with (a + j)
    by (destruct (Nat.eqb_spec n 1); lia).
  rewrite get_build; [reflexivity |].
  simpl. rewrite Hc. destruct (Nat.ltb_spec j m); [reflexivity | lia].
Qed.


Lemma last_item_zrange a b :
  (a < b)%Z -> last_item (zrange a b) = Ok (b - 1)%Z.
Proof.
  intros H. unfold last_item, zrange.
  destruct (Z.to_nat (b - a)) as [| k] eqn:E; [lia |].
  rewrite seq_S, map_app, rev_app_distr. simpl. f_equal. lia.
Qed.

Lemma next_window_ok nbf pos bs :
  (pos < nbf)%Z -> (0 < bs)%Z ->
  next_window nbf pos bs =
  Ok (zrange pos (Z.min nbf (pos + bs)), Z.min nbf (pos + bs)).
Proof.
  intros Hp Hb. unfold next_window, arange.
  destruct (Z.ltb_spec (Z.min nbf (pos + bs)) pos); [lia |]. simpl.
  fold (zrange pos (Z.min nbf (pos + bs))).
  rewrite last_item_zrange by lia. simpl.
  do 2 f_equal. lia.
Qed.

Lemma index_put_rows_seq T sample a m v b f rest :
  shape T = b :: f :: rest ->
  sample < b ->
  m = 0 \/ a + m <= f ->
  broadcast_shapes (shape v) (m :: rest) = Ok (m :: rest) ->
  index_put_rows T sample (map Z.of_nat (seq a m)) v =
  Ok (build (shape T)
        (fun idx =>
           match idx with
           | s :: i :: r =>
               if s =? sample then
                 match find_index i (seq a m) with
                 | Some k => get_bcast v (k :: r)
                 | None => get T idx
                 end
               else get T idx
           | _ => 0%R
           end)).
Proof.
  intros HT Hs Hm Hb. unfold index_put_rows. rewrite HT.
  destruct (Nat.ltb_spec sample b); [| lia].
  rewrite norm_indices_of_nat by (apply Forall_seq_lt; exact Hm).
  cbn [bind]. rewrite length_seq, Hb. cbn [bind].
  destruct (list_eq_dec Nat.eq_dec (m :: rest) (m :: rest));
    [reflexivity | contradiction].
Qed.

Lemma index_put_rows_seq_inv T sample a m v T' b f rest :
  shape T = b :: f :: rest ->
  index_put_rows T sample (map Z.of_nat (seq a m)) v = Ok T' ->
  broadcast_shapes (shape v) (m :: rest) = Ok (m :: rest).
Proof.
  intros HT H. unfold index_put_rows in H. rewrite HT in H.
  destruct (sample <? b); [| discriminate].
  apply bind_Ok_inv in H. destruct H as [rws [Hn H]].
  apply norm_indices_of_nat_inv in Hn. destruct Hn as [-> _].
  rewrite length_seq in H.
  apply bind_Ok_inv in H. destruct H as [sh [Hb H]].
  destruct (list_eq_dec Nat.eq_dec sh (m :: rest)) as [-> |];
    [exact Hb | discriminate].
Qed.

Section Windowing.

Variable wiener :
  Tensor -> Tensor -> Z -> bool -> option string -> result Tensor.
Variable self : Separator.
Variables sp mx : Tensor.
Variable sample : nat.

Lemma refine_window_inv t T T' :
  snd (refine_window wiener self sp mx sample t T) = Ok T' ->
  exists s m w,
    index_rows sp sample t = Ok s /\
    index_rows mx sample t = Ok m /\
    wiener s m (niter self) false (residual self) = Ok w /\
    index_put_rows T sample t w = Ok T'.
Proof.
  unfold refine_window.
  destruct (index_rows sp sample t) as [s | |]; simpl; try discriminate.
  destruct (index_rows mx sample t) as [m | |]; simpl; try discriminate.
  intros H. apply bind_Ok_inv in H. destruct H as [w [Hw H]].
  exists s, m, w. repeat split; assumption.
Qed.

Lemma refine_window_ok t T T' s m w :
  index_rows sp sample t = Ok s ->
  index_rows mx sample t = Ok m ->
  wiener s m (niter self) false (residual self) = Ok w ->
  index_put_rows T sample t w = Ok T' ->
  snd (refine_window wiener self sp mx sample t T) = Ok T'.
Proof.
  intros Hs Hm Hw Hp. unfold refine_window.
  rewrite Hs, Hm. simpl. rewrite Hw. simpl. exact Hp.
Qed.

Variable nbf : Z.

Lemma refine_frames_done fuel pos bs T :
  (nbf <= pos)%Z ->
  refine_frames wiener self sp mx nbf fuel sample pos bs T = ([], Ok T).
Proof.
  intros H. destruct fuel; simpl;
    (destruct (Z.ltb_spec pos nbf); [lia | reflexivity]).
Qed.

Lemma refine_frames_step fuel pos bs T t pos' T1 :
  (pos < nbf)%Z ->
  next_window nbf pos bs = Ok (t, pos') ->
  snd (refine_window wiener self sp mx sample t T) = Ok T1 ->
  snd (refine_frames wiener self sp mx nbf (S fuel) sample pos bs T) =
  snd (refine_frames wiener self sp mx nbf fuel sample pos' bs T1).
Proof.
  intros Hp Hn Hw. simpl.
  destruct (Z.ltb_spec pos nbf); [| lia].
  rewrite Hn.
  destruct (refine_window wiener self sp mx sample t T) as [calls r].
  simpl in Hw. subst r.
  destruct (refine_frames wiener self sp mx nbf fuel sample pos' bs T1).
  reflexivity.
Qed.

Lemma refine_frames_step_inv fuel pos bs T T' :
  (pos < nbf)%Z ->
  snd (refine_frames wiener self sp mx nbf fuel sample pos bs T) = Ok T' ->
  exists fuel' T1,
    fuel = S fuel' /\ (0 < bs)%Z /\
    snd (refine_window wiener self sp mx sample
           (zrange pos (Z.min nbf (pos + bs))) T) = Ok T1 /\
    snd (refine_frames wiener self sp mx nbf fuel' sample
           (Z.min nbf (pos + bs)) bs T1) = Ok T'.
Proof.
  intros Hp H. destruct fuel as [| fuel]; simpl in H;
    (destruct (Z.ltb_spec pos nbf); [| lia]); [discriminate |].
  destruct (next_window nbf pos bs) as [[t pos'] | |] eqn:Hn;
    try discriminate.
  destruct (next_window_spec nbf pos bs t pos' Hp Hn) as [Hbs [-> ->]].
  destruct (refine_window wiener self sp mx sample _ T)
    as [calls [T1 | |]] eqn:Hw; try discriminate.
  exists fuel, T1. split; [reflexivity |]. split; [exact Hbs |].
  split; [reflexivity |].
  destruct (refine_frames wiener self sp mx nbf fuel sample _ bs T1).
  exact H.
Qed.

End Windowing.


Section OnePass.

Variable wiener :
  Tensor -> Tensor -> Z -> bool -> option string -> result Tensor.
Variable self : Separator.
Hypothesis wiener_framewise : framewise wiener (niter self) (residual self).
Hypothesis wiener_shape : wiener_shape_contract wiener.

Variables sp mx : Tensor.
Variables sample n e : nat.

(** The frames the loop reads are frames of the estimates and of the
    mixture. *)
Lemma frames_in_range b1 f1 r1 b2 f2 r2 :
  shape sp = b1 :: f1 :: r1 ->
  shape mx = b2 :: f2 :: r2 ->
  forall fuel a bs T T',
    a < n ->
    snd (refine_frames wiener self sp mx (Z.of_nat n) fuel sample
           (Z.of_nat a) bs T) = Ok T' ->
    n <= f1 /\ n <= f2.
Proof.
  intros Hsp Hmx fuel.
  induction fuel as [| fuel IH]; intros a bs T T' Ha H;
    apply refine_frames_step_inv in H; try lia;
    destruct H as [fuel' [T1 [Hf [Hbs [Hw H]]]]]; [discriminate |].
  injection Hf as <-.
  set (m := Z.to_nat (Z.min (Z.of_nat n) (Z.of_nat a + bs) - Z.of_nat a)).
  assert (Hmin : Z.min (Z.of_nat n) (Z.of_nat a + bs) = Z.of_nat (a + m))
    by lia.
  assert (Hm : 0 < m /\ a + m <= n) by lia.
  rewrite Hmin in Hw, H. rewrite zrange_nat_seq in Hw.
  apply refine_window_inv in Hw.
  destruct Hw as [s [mm [w [Hs [Hmm _]]]]].
  apply index_rows_seq_inv in Hs.
  destruct Hs as [b [f [rest [Hsp' [_ [Hr1 _]]]]]].
  apply index_rows_seq_inv in Hmm.
  destruct Hmm as [b' [f' [rest' [Hmx' [_ [Hr2 _]]]]]].
  rewrite Hsp in Hsp'. injection Hsp' as <- <- <-.
  rewrite Hmx in Hmx'. injection Hmx' as <- <- <-.
  destruct (Nat.eq_dec (a + m) n) as [E | E]; [lia |].
  apply (IH (a + m) bs T1 T'); [lia | exact H].
Qed.

Variable T0 : Tensor.
Hypothesis T0_canonical : canonical T0.
Hypothesis T0_shape : shape T0 = shape mx ++ [e].

Lemma refined_upto_0 W : refined_upto T0 W sample 0 = T0.
Proof.
  transitivity (build (shape T0) (get T0));
    [| symmetry; exact T0_canonical].
  unfold refined_upto. apply build_ext.
  intros [| s [| i r]] _; try reflexivity.
  rewrite andb_false_r. reflexivity.
Qed.

(** One window, when the loop is ready: the frames of the window are
    written from the refinement of all the frames. *)
Lemma refine_window_ready W a m :
  ready wiener self sp mx sample n e W ->
  0 < m -> a + m <= n ->
  snd (refine_window wiener self sp mx sample (map Z.of_nat (seq a m))
         (refined_upto T0 W sample a)) =
  Ok (refined_upto T0 W sample (a + m)).
Proof.
  intros (b1 & f1 & r1 & b2 & f2 & r2 & k & Hsp & Hs1 & Hn1 & Hmx & Hs2
          & Hn2 & HW & HshW & Hfit) Hm Ham.
  assert (HT : shape T0 = b2 :: f2 :: r2 ++ [e])
    by (rewrite T0_shape, Hmx; reflexivity).
  eapply refine_window_ok.
  - apply (index_rows_seq _ _ _ _ _ _ _ Hsp Hs1). right; lia.
  - apply (index_rows_seq _ _ _ _ _ _ _ Hmx Hs2). right; lia.
  - rewrite <- !(rows_sample_rows _ _ _ _ n Ham).
    rewrite (wiener_framewise _ _ n (tl (tl (shape sp)))
               (tl (tl (shape mx))) a m);
      [rewrite HW; reflexivity | reflexivity | reflexivity | exact Ham].
  - rewrite (index_put_rows_seq (refined_upto T0 W sample a) sample a m
               (rows a m W) b2 f2 (r2 ++ [e]));
      [| exact HT | exact Hs2 | right; lia |].
    + f_equal. unfold refined_upto. cbn [shape build].
      apply build_ext. intros idx Hin.
      rewrite HT in Hin.
      destruct idx as [| s [| i r]];
        try (simpl in Hin; rewrite ?andb_false_r in Hin; discriminate Hin).
      assert (Hin' : in_bounds (shape T0) (s :: i :: r) = true)
        by (rewrite HT; exact Hin).
      simpl in Hin. apply andb_prop in Hin. destruct Hin as [_ Hin].
      apply andb_prop in Hin. destruct Hin as [_ Hr].
      rewrite (get_build _ _ _ Hin').
      destruct (s =? sample); simpl; [| reflexivity].
      rewrite find_index_seq.
      destruct (Nat.leb_spec a i), (Nat.ltb_spec i (a + m)),
        (Nat.ltb_spec i a); simpl; try reflexivity; try lia.
      rewrite (get_bcast_rows W n (r2 ++ [k]) (r2 ++ [e]) r a m (i - a)
                 HshW Hfit Hr) by lia.
      do 2 f_equal. lia.
    + apply broadcast_shapes_fits.
      * unfold rows. cbn [shape build]. rewrite HshW. simpl.
        rewrite !length_app. reflexivity.
      * unfold rows. cbn [shape build]. rewrite HshW. cbn [tl].
        constructor; [left; reflexivity | exact Hfit].
Qed.

(** The loop, when it is ready: whatever the size of the windows, it
    writes the refinement of all the frames. *)
Lemma refine_frames_ready W :
  ready wiener self sp mx sample n e W ->
  forall fuel a bs,
    (0 < bs)%Z -> a <= n -> n - a <= fuel ->
    snd (refine_frames wiener self sp mx (Z.of_nat n) fuel sample
           (Z.of_nat a) bs (refined_upto T0 W sample a)) =
    Ok (refined_upto T0 W sample n).
Proof.
  intros HR fuel. induction fuel as [| fuel IH]; intros a bs Hbs Ha Hfuel.
  - assert (a = n) by lia. subst a.
    rewrite refine_frames_done by lia. reflexivity.
  - destruct (Nat.eq_dec a n) as [-> | Hne];
      [rewrite refine_frames_done by lia; reflexivity |].
    set (m := Z.to_nat (Z.min (Z.of_nat n) (Z.of_nat a + bs) - Z.of_nat a)).
    assert (Hmin : Z.min (Z.of_nat n) (Z.of_nat a + bs) = Z.of_nat (a + m))
      by lia.
    assert (Hm : 0 < m /\ a + m <= n) by lia.
    rewrite (refine_frames_step wiener self sp mx sample (Z.of_nat n) fuel
               (Z.of_nat a) bs _ (map Z.of_nat (seq a m))
               (Z.of_nat (a + m)) (refined_upto T0 W sample (a + m))).
    + apply IH; lia.
    + lia.
    + rewrite next_window_ok by lia.
      rewrite Hmin, zrange_nat_seq. reflexivity.
    + apply refine_window_ready; [exact HR | lia | lia].
Qed.

(** A loop that completes was ready. *)
Lemma refine_frames_was_ready fuel bs T' :
  0 < n ->
  snd (refine_frames wiener self sp mx (Z.of_nat n) fuel sample 0 bs T0) =
  Ok T' ->
  (0 < bs)%Z /\ exists W, ready wiener self sp mx sample n e W.
Proof.
  intros Hn H. pose proof H as Hrun.
  change 0%Z with (Z.of_nat 0) in H, Hrun.
  apply refine_frames_step_inv in H; [| lia].
  destruct H as [fuel' [T1 [Hf [Hbs [Hw _]]]]].
  split; [exact Hbs |].
  set (m := Z.to_nat (Z.min (Z.of_nat n) (Z.of_nat 0 + bs) - Z.of_nat 0)).
  assert (Hmin : Z.min (Z.of_nat n) (Z.of_nat 0 + bs) = Z.of_nat (0 + m))
    by lia.
  assert (Hm : 0 < m /\ m <= n) by lia.
  rewrite Hmin, zrange_nat_seq in Hw.
  apply refine_window_inv in Hw.
  destruct Hw as [s1 [m1 [w1 [Hs [Hmm [Hw Hp]]]]]].
  apply index_rows_seq_inv in Hs.
  destruct Hs as [b1 [f1 [r1 [Hsp [Hs1 [_ ->]]]]]].
  apply index_rows_seq_inv in Hmm.
  destruct Hmm as [b2 [f2 [r2 [Hmx [Hs2 [_ ->]]]]]].
  destruct (frames_in_range _ _ _ _ _ _ Hsp Hmx _ 0 _ _ _ Hn Hrun)
    as [Hn1 Hn2].
  assert (Hmn : 0 + m <= n) by lia.
  rewrite <- !(rows_sample_rows _ _ _ _ n Hmn) in Hw.
  rewrite (wiener_framewise _ _ n (tl (tl (shape sp)))
             (tl (tl (shape mx))) 0 m) in Hw;
    [| reflexivity | reflexivity | exact Hmn].
  destruct (wiener (sample_rows sp sample 0 n) (sample_rows mx sample 0 n)
              (niter self) false (residual self)) as [W | |] eqn:HW;
    try discriminate.
  simpl in Hw. injection Hw as <-.
  destruct (wiener_shape _ _ _ _ _ HW) as [k Hk].
  unfold sample_rows in Hk at 1. cbn [shape build] in Hk.
  rewrite Hmx in Hk. cbn [tl app] in Hk.
  assert (HT : shape T0 = b2 :: f2 :: r2 ++ [e])
    by (rewrite T0_shape, Hmx; reflexivity).
  apply (index_put_rows_seq_inv _ _ _ _ _ _ _ _ _ HT) in Hp.
  unfold rows in Hp. cbn [shape build] in Hp. rewrite Hk in Hp.
  cbn [tl] in Hp.
  apply broadcast_shapes_fits in Hp;
    [| simpl; rewrite !length_app; reflexivity].
  inversion Hp as [| ? ? ? ? _ Hfit]; subst.
  exists W, b1, f1, r1, b2, f2, r2, k.
  repeat split; assumption.
Qed.

(** A loop that completes returns the same with windows of any other
    size. *)
Lemma refine_frames_any_window bs1 bs2 T' :
  (0 < n -> (0 < bs2)%Z) ->
  snd (refine_frames wiener self sp mx (Z.of_nat n) n sample 0 bs1 T0) =
  Ok T' ->
  snd (refine_frames wiener self sp mx (Z.of_nat n) n sample 0 bs2 T0) =
  Ok T'.
Proof.
  intros Hbs2 H.
  destruct (Nat.eq_dec n 0) as [E | E].
  - rewrite refine_frames_done in * by lia. exact H.
  - destruct (refine_frames_was_ready _ _ _ ltac:(lia) H) as [Hbs1 [W HR]].
    pose proof (refine_frames_ready W HR n 0 bs1 Hbs1 ltac:(lia) ltac:(lia))
      as H1.
    pose proof (refine_frames_ready W HR n 0 bs2 (Hbs2 ltac:(lia))
                  ltac:(lia) ltac:(lia)) as H2.
    rewrite refined_upto_0 in H1, H2. change (Z.of_nat 0) with 0%Z in H1, H2.
    rewrite H1 in H. rewrite H2. exact H.
Qed.

End OnePass.


Lemma build_canonical sh f : canonical (build sh f).
Proof.
  unfold canonical. cbn [shape build]. apply build_ext.
  intros idx Hin. symmetry. apply get_build. exact Hin.
Qed.

Lemma index_put_rows_canonical T sample t v T' :
  index_put_rows T sample t v = Ok T' ->
  canonical T' /\ shape T' = shape T.
Proof.
  unfold index_put_rows.
  destruct (shape T) as [| b [| f rest]] eqn:HT; try discriminate.
  destruct (sample <? b); [| discriminate].
  intros H.
  apply bind_Ok_inv in H. destruct H as [rws [_ H]].
  apply bind_Ok_inv in H. destruct H as [sh [_ H]].
  destruct (list_eq_dec Nat.eq_dec sh (length rws :: rest));
    [| discriminate].
  injection H as <-. split; [apply build_canonical | reflexivity].
Qed.

Section AnyWindow.

Variable wiener :
  Tensor -> Tensor -> Z -> bool -> option string -> result Tensor.
Variable self : Separator.
Hypothesis wiener_framewise : framewise wiener (niter self) (residual self).
Hypothesis wiener_shape : wiener_shape_contract wiener.

Variables sp mx : Tensor.
Variables n e : nat.

Lemma refine_frames_canonical fuel : forall sample pos bs T T',
  canonical T ->
  snd (refine_frames wiener self sp mx (Z.of_nat n) fuel sample pos bs T) =
  Ok T' ->
  canonical T' /\ shape T' = shape T.
Proof.
  induction fuel as [| fuel IH]; intros sample pos bs T T' HT H;
    (destruct (Z.lt_ge_cases pos (Z.of_nat n)) as [Hp | Hp];
     [| rewrite refine_frames_done in H by exact Hp;
        injection H as <-; split; [exact HT | reflexivity]]);
    apply refine_frames_step_inv in H; try exact Hp;
    destruct H as [fuel' [T1 [Hf [_ [Hw H]]]]]; [discriminate |].
  injection Hf as <-.
  apply refine_window_inv in Hw. destruct Hw as [s [m [w [_ [_ [_ Hp']]]]]].
  apply index_put_rows_canonical in Hp'. destruct Hp' as [Hc Hs].
  destruct (IH _ _ _ _ _ Hc H) as [Hc' Hs'].
  split; [exact Hc' | rewrite Hs'; exact Hs].
Qed.

(** The loop over the items of the batch returns the same with any other
    batch size. *)
Lemma refine_samples_any_window b1 b2 samples : forall T T',
  canonical T ->
  shape T = shape mx ++ [e] ->
  (0 < n ->
   (0 < effective_batch_size (with_batch_size self b2) (Z.of_nat n))%Z) ->
  snd (refine_samples wiener (with_batch_size self b1) sp mx (Z.of_nat n)
         samples T) = Ok T' ->
  snd (refine_samples wiener (with_batch_size self b2) sp mx (Z.of_nat n)
         samples T) = Ok T'.
Proof.
  induction samples as [| sample samples IH]; intros T T' Hc Hs Hb2 H;
    simpl in *; [exact H |].
  rewrite Nat2Z.id in *.
  destruct (refine_frames wiener (with_batch_size self b1) sp mx (Z.of_nat n)
              n sample 0%Z
              (effective_batch_size (with_batch_size self b1) (Z.of_nat n))
              T) as [calls1 r1] eqn:E1.
  assert (E1' : snd (refine_frames wiener self sp mx (Z.of_nat n) n sample
                       0%Z (effective_batch_size (with_batch_size self b1)
                              (Z.of_nat n)) T) = r1)
    by (change (refine_frames wiener self)
          with (refine_frames wiener (with_batch_size self b1));
        rewrite E1; reflexivity).
  destruct r1 as [T1 | |]; try discriminate.
  pose proof (refine_frames_any_window wiener self wiener_framewise
                wiener_shape sp mx sample n e T Hc Hs _ _ T1 Hb2 E1') as E2.
  destruct (refine_frames_canonical _ _ _ _ _ _ Hc E1') as [Hc1 Hs1].
  change (refine_frames wiener self)
    with (refine_frames wiener (with_batch_size self b2)) in E2.
  destruct (refine_frames wiener (with_batch_size self b2) sp mx (Z.of_nat n)
              n sample 0%Z
              (effective_batch_size (with_batch_size self b2) (Z.of_nat n))
              T) as [calls2 r2].
  simpl in E2. subst r2.
  assert (Hs1' : shape T1 = shape mx ++ [e]) by (rewrite Hs1; exact Hs).
  specialize (IH T1 T' Hc1 Hs1' Hb2).
  destruct (refine_samples wiener (with_batch_size self b1) sp mx (Z.of_nat n)
              samples T1) as [c1 q1].
  destruct (refine_samples wiener (with_batch_size self b2) sp mx (Z.of_nat n)
              samples T1) as [c2 q2].
  simpl in *. apply IH. exact H.
Qed.

End AnyWindow.

Lemma bind_Ok_iff {A B : Type} (r1 r2 : result A) (k : A -> result B) :
  (forall a, r1 = Ok a <-> r2 = Ok a) ->
  forall b, bind r1 k = Ok b <-> bind r2 k = Ok b.
Proof.
  intros H b.
  destruct r1 as [a1 | e1 |].
  - rewrite (proj1 (H a1) eq_refl). reflexivity.
  - destruct r2 as [a2 | e2 |]; simpl.
    + pose proof (proj2 (H a2) eq_refl). discriminate.
    + split; discriminate.
    + split; discriminate.
  - destruct r2 as [a2 | e2 |]; simpl.
    + pose proof (proj2 (H a2) eq_refl). discriminate.
    + split; discriminate.
    + split; discriminate.
Qed.

(** X25. With a refinement routine that, for the separator's [niter] and
    [residual], works frame by frame and returns the mixture's shape with
    an axis for the sources, and a batch size that is not negative,
    [Separator.forward] returns with windows what it returns with all the
    frames in one window.  Whether [filtering.wiener] is such a routine is
    not decided by [model.py]. *)
Theorem windowed_refinement_same_estimates :
  forall torch_stft istft wiener self audio h b v,
    framewise wiener (niter self) (residual self) ->
    wiener_shape_contract wiener ->
    (0 <= b)%Z ->
    (Separator_forward torch_stft istft wiener
       (with_batch_size self (Some b)) audio h = Ok v <->
     Separator_forward torch_stft istft wiener
       (with_batch_size self None) audio h = Ok v).
Proof.
  intros torch_stft istft wiener self audio h b v Hfw Hsh Hb.
  unfold Separator_forward, Separator_forward_traced.
  change (Separator_analysis torch_stft (with_batch_size self (Some b)))
    with (Separator_analysis torch_stft self).
  change (Separator_analysis torch_stft (with_batch_size self None))
    with (Separator_analysis torch_stft self).
  destruct (Separator_analysis torch_stft self audio h)
    as [[[[[nb_samples sp] mx] unmix_target] h1] | |]; try reflexivity.
  change (effective_targets (with_batch_size self (Some b)))
    with (effective_targets self).
  change (effective_targets (with_batch_size self None))
    with (effective_targets self).
  change (niter (with_batch_size self (Some b))) with (niter self).
  change (niter (with_batch_size self None)) with (niter self).
  destruct ((length (effective_targets self) =? 1) && (0 <? niter self)%Z);
    try reflexivity.
  unfold Separator_synthesis.
  destruct (size_at sp 1) as [n | |]; try reflexivity.
  change (effective_nb_sources (with_batch_size self (Some b)))
    with (effective_nb_sources self).
  change (effective_nb_sources (with_batch_size self None))
    with (effective_nb_sources self).
  set (T0 := zeros (shape mx ++ [effective_nb_sources self])).
  assert (Hc : canonical T0) by apply build_canonical.
  assert (Hs : shape T0 = shape mx ++ [effective_nb_sources self])
    by reflexivity.
  assert (Hsame : forall T',
             snd (refine_samples wiener (with_batch_size self (Some b)) sp mx
                    (Z.of_nat n) (seq 0 nb_samples) T0) = Ok T' <->
             snd (refine_samples wiener (with_batch_size self None) sp mx
                    (Z.of_nat n) (seq 0 nb_samples) T0) = Ok T').
  { intros T'. split.
    - apply (refine_samples_any_window wiener self Hfw Hsh sp mx n _
               (Some b) None _ _ _ Hc Hs).
      intros Hn. unfold effective_batch_size. simpl. lia.
    - apply (refine_samples_any_window wiener self Hfw Hsh sp mx n _
               None (Some b) _ _ _ Hc Hs).
      intros Hn. unfold effective_batch_size. simpl.
      destruct (Z.eqb_spec b 0); lia. }
  destruct (refine_samples wiener (with_batch_size self (Some b)) sp mx
              (Z.of_nat n) (seq 0 nb_samples) T0) as [c1 r1].
  destruct (refine_samples wiener (with_batch_size self None) sp mx
              (Z.of_nat n) (seq 0 nb_samples) T0) as [c2 r2].
  simpl in *. apply bind_Ok_iff. exact Hsame.
Qed.


Lemma in_bounds_removelast sh k : forall r,
  in_bounds (sh ++ [k]) r = true -> in_bounds sh (removelast r) = true.
Proof.
  induction sh as [| d sh IH]; intros [| i r] H; simpl in H;
    try discriminate.
  - destruct r; [reflexivity |].
    rewrite andb_false_r in H. discriminate.
  - apply andb_prop in H. destruct H as [Hi Hr].
    destruct r as [| j r].
    + destruct sh; discriminate Hr.
    + change (removelast (i :: j :: r)) with (i :: removelast (j :: r)).
      simpl. rewrite Hi. exact (IH _ Hr).
Defined.

Lemma wiener_model_framewise res : framewise wiener_model 0 res.
Proof.
  intros s m F rs rm a n Hs Hm Han.
  unfold wiener_model.
  unfold rows at 1 2 3 4. cbn [shape build tl fmap bind]. rewrite Hs, Hm.
  cbn [tl fmap bind Z.ltb Z.compare]. f_equal.
  unfold rows. cbn [shape build tl app].
  apply build_ext. intros [| j r] Hin; [reflexivity |].
  simpl in Hin. apply andb_prop in Hin. destruct Hin as [Hj Hr].
  apply Nat.ltb_lt in Hj. rewrite ?Hm. cbn [tl].
  rewrite get_build.
  - rewrite get_build; [reflexivity |].
    simpl. rewrite Hr.
    destruct (Nat.ltb_spec (a + j) F); [reflexivity | lia].
  - simpl. rewrite (in_bounds_removelast _ _ _ Hr).
    destruct (Nat.ltb_spec j n); [reflexivity | lia].
Defined.

Lemma wiener_model_shape : wiener_shape_contract wiener_model.
Proof.
  intros s m it res w H. unfold wiener_model in H.
  destruct (shape m) as [| F rm] eqn:Hm; [discriminate |].
  injection H as <-. eexists. reflexivity.
Defined.

Lemma windowed_refinement_same_estimates_witness :
  exists v,
    Separator_forward stub_stft stub_istft wiener_model
      (with_batch_size (sep_A0 None) (Some 2%Z)) handle_A [audio_A] = Ok v /\
    Separator_forward stub_stft stub_istft wiener_model
      (with_batch_size (sep_A0 None) None) handle_A [audio_A] = Ok v.
Proof.
  assert (H : exists v,
             Separator_forward stub_stft stub_istft wiener_model
               (with_batch_size (sep_A0 None) (Some 2%Z)) handle_A
               [audio_A] = Ok v)
    by (eexists; run_model; reflexivity).
  destruct H as [v H]. exists v. split; [exact H |].
  apply (windowed_refinement_same_estimates stub_stft stub_istft
           wiener_model (sep_A0 None) handle_A [audio_A] 2 v
           (wiener_model_framewise None) wiener_model_shape).
  - lia.
  - exact H.
Defined.

(** ** Further properties of the modules *)

(** *** [STFT.forward] *)

(** A request with one [-1] is granted when the sizes given divide the
    number of elements. *)
Lemma infer_shape_one_ok n pre post k :
  numel pre * numel post <> 0 ->
  n = numel pre * numel post * k ->
  infer_shape n (map Z.of_nat pre ++ (-1)%Z :: map Z.of_nat post) =
  Ok (pre ++ k :: post).
Proof.
  intros Hk Hn. unfold infer_shape.
  rewrite existsb_app. simpl. rewrite !existsb_below_of_nat. simpl.
  rewrite !filter_app. simpl.
  rewrite !filter_known_of_nat, !filter_unknown_of_nat. simpl.
  rewrite map_app, !to_nat_of_nat.
  fold (numel (pre ++ post)). rewrite numel_app.
  destruct (Nat.eqb_spec (numel pre * numel post) 0) as [E | E];
    [contradiction |].
  assert (M : n mod (numel pre * numel post) = 0).
  { rewrite Hn, Nat.mul_comm. apply Nat.Div0.mod_mul. }
  rewrite M. simpl.
  assert (D : n / (numel pre * numel post) = k).
  { rewrite Hn, Nat.mul_comm. apply Nat.div_mul. exact E. }
  rewrite D, map_app. simpl. rewrite !infer_of_nat. reflexivity.
Qed.

(** A request with one [-1] is refused when the sizes given multiply to
    zero: the missing size could be any number. *)
Lemma infer_shape_one_ambiguous n pre post :
  numel pre * numel post = 0 ->
  infer_shape n (map Z.of_nat pre ++ (-1)%Z :: map Z.of_nat post) =
  Raise RuntimeError.
Proof.
  intros Hk. unfold infer_shape.
  rewrite existsb_app. simpl. rewrite !existsb_below_of_nat. simpl.
  rewrite !filter_app. simpl.
  rewrite !filter_known_of_nat, !filter_unknown_of_nat. simpl.
  rewrite map_app, !to_nat_of_nat.
  fold (numel (pre ++ post)). rewrite numel_app, Hk. reflexivity.
Qed.

Section STFTProperties.

Variable torch_stft :
  Tensor -> nat -> nat -> Tensor -> bool -> bool -> bool -> string ->
  result Tensor.

Lemma STFT_forward_unfold self x B C T :
  stft_shape_contract torch_stft ->
  shape x = [B; C; T] ->
  0 < B * C ->
  STFT_forward torch_stft self x =
  (y <- torch_stft (mkTensor [B * C; T] (data x)) (n_fft self) (n_hop self)
          (window self) (center self) false true "reflect"%string ;;
   Ok (mkTensor
         [B; C; n_fft self / 2 + 1;
          stft_nb_frames T (n_fft self) (n_hop self) (center self); 2]
         (data y))).
Proof.
  intros Hc Hx Hpos. unfold STFT_forward. rewrite Hx.
  unfold reshape at 1. rewrite Hx.
  change [Z.of_nat (B * C); (-1)%Z]
    with (map Z.of_nat [B * C] ++ (-1)%Z :: map Z.of_nat []).
  rewrite (infer_shape_one_ok _ [B * C] [] T) by (simpl; nia).
  cbn [bind app].
  destruct (torch_stft _ _ _ _ _ _ _ _) as [y | e |] eqn:Hy;
    [| reflexivity | reflexivity].
  cbn [bind].
  pose proof (Hc (mkTensor [B * C; T] (data x)) _ _ _ _ _ _ _ _ _ _
                eq_refl Hy) as Sy.
  unfold reshape. rewrite Sy.
  change [Z.of_nat B; Z.of_nat C; Z.of_nat (n_fft self / 2 + 1); (-1)%Z; 2%Z]
    with (map Z.of_nat [B; C; n_fft self / 2 + 1] ++
          (-1)%Z :: map Z.of_nat [2]).
  rewrite (infer_shape_one_ok _ [B; C; n_fft self / 2 + 1] [2]
             (stft_nb_frames T (n_fft self) (n_hop self) (center self)))
    by (simpl; nia).
  reflexivity.
Qed.

End STFTProperties.

(** X1. [STFT.forward] on signals of shape [(B, C, T)], with a sample and
    a channel at least: row [s * C + c] of the batch passed to [torch.stft]
    is the signal of channel [c] of sample [s]; the call returns exactly
    when [torch.stft] does, with the shape [(B, C, n_fft // 2 + 1, frames,
    2)] and the data of what [torch.stft] returned; and entry [(s, c, b, f,
    k)] of the output is entry [(s * C + c, b, f, k)] of what [torch.stft]
    returned. *)
Theorem STFT_forward_per_channel :
  forall torch_stft self x B C T,
    stft_shape_contract torch_stft ->
    shape x = [B; C; T] ->
    0 < B * C ->
    let merged := mkTensor [B * C; T] (data x) in
    let called :=
      torch_stft merged (n_fft self) (n_hop self) (window self)
        (center self) false true "reflect"%string in
    (forall s c t, get merged [s * C + c; t] = get x [s; c; t]) /\
    (forall out,
        STFT_forward torch_stft self x = Ok out <->
        exists y,
          called = Ok y /\
          shape out =
          [B; C; n_fft self / 2 + 1;
           stft_nb_frames T (n_fft self) (n_hop self) (center self); 2] /\
          data out = data y) /\
    (forall out y,
        STFT_forward torch_stft self x = Ok out ->
        called = Ok y ->
        forall s c b f k,
          get out [s; c; b; f; k] = get y [s * C + c; b; f; k]).
Proof.
  intros torch_stft self x B C T Hc Hx Hpos merged called.
  pose proof (STFT_forward_unfold torch_stft self x B C T Hc Hx Hpos) as E.
  fold merged in E. fold called in E.
  split; [| split].
  - intros s c t. unfold get, merged. rewrite Hx. cbn [shape data ravel numel
      fold_right]. f_equal. clear. lia.
  - intros out. rewrite E. split.
    + intros H. apply bind_Ok_inv in H. destruct H as [y [Hy H]].
      injection H as <-. exists y. repeat split. exact Hy.
    + intros [y [Hy [Hs Hd]]]. rewrite Hy. cbn [bind].
      destruct out as [sh d]. cbn [shape data] in Hs, Hd.
      rewrite Hs, Hd. reflexivity.
  - intros out y Hout Hy s c b f k.
    pose proof (Hc merged _ _ _ _ _ _ _ _ _ _ eq_refl Hy) as Sy.
    rewrite E, Hy in Hout. revert Hout Sy.
    generalize (n_fft self / 2 + 1) as bins.
    generalize (stft_nb_frames T (n_fft self) (n_hop self) (center self))
      as F.
    intros F bins Hout Sy. cbn [bind] in Hout. injection Hout as <-.
    unfold get. rewrite Sy. cbn [shape data ravel numel fold_right].
    f_equal. clear. lia.
Qed.

Lemma STFT_forward_per_channel_witness :
  exists out y,
    STFT_forward stub_stft (stft model_B) audio_B = Ok out /\
    stub_stft (mkTensor [2; 2] (data audio_B)) 2 1 (ones 2) true false true
      "reflect"%string = Ok y /\
    shape out = [1; 2; 2; 3; 2] /\
    get out [0; 1; 0; 2; 0] = get y [1; 0; 2; 0].
Proof.
  destruct (STFT_forward_per_channel stub_stft (stft model_B) audio_B 1 2 2
              stub_stft_shape eq_refl (Nat.lt_0_succ 1)) as [_ [H2 H3]].
  assert (Hy : exists y,
             stub_stft (mkTensor [2; 2] (data audio_B)) 2 1 (ones 2) true
               false true "reflect"%string = Ok y) by (eexists; reflexivity).
  destruct Hy as [y Hy].
  assert (Hout : exists out,
             STFT_forward stub_stft (stft model_B) audio_B = Ok out /\
             shape out = [1; 2; 2; 3; 2]).
  { eexists (mkTensor _ (data y)). split; [| reflexivity].
    apply H2. exists y. repeat split. exact Hy. }
  destruct Hout as [out [Hout Hs]].
  exists out, y. repeat split; try assumption.
  exact (H3 out y Hout Hy 0 1 0 2 0).
Defined.

(** X2. [STFT.forward] unpacks three sizes: a tensor with another number
    of axes raises [ValueError] before [torch.stft] is called.  Signals of
    shape [(B, C, T)] with no sample or no channel raise [RuntimeError], at
    [reshape(B * C, -1)], where the size of the missing axis is not
    determined. *)
Theorem STFT_forward_rejects :
  forall torch_stft self x,
    (length (shape x) <> 3 ->
     STFT_forward torch_stft self x = Raise ValueError) /\
    (forall B C T,
        shape x = [B; C; T] -> B * C = 0 ->
        STFT_forward torch_stft self x = Raise RuntimeError).
Proof.
  intros torch_stft self x. split.
  - intros H. unfold STFT_forward.
    destruct (shape x) as [| a [| b [| c [| d sh]]]]; try reflexivity.
    simpl in H. contradiction.
  - intros B C T Hx H0. unfold STFT_forward. rewrite Hx.
    unfold reshape at 1. rewrite Hx.
    change [Z.of_nat (B * C); (-1)%Z]
      with (map Z.of_nat [B * C] ++ (-1)%Z :: map Z.of_nat []).
    rewrite infer_shape_one_ambiguous by (simpl; lia).
    reflexivity.
Qed.

Lemma STFT_forward_rejects_witness :
  STFT_forward stub_stft (stft model_A) spec_S = Raise ValueError /\
  STFT_forward stub_stft (stft model_A) (zeros [0; 1; 2]) =
  Raise RuntimeError.
Proof.
  destruct (STFT_forward_rejects stub_stft (stft model_A) spec_S)
    as [H1 _].
  destruct (STFT_forward_rejects stub_stft (stft model_A) (zeros [0; 1; 2]))
    as [_ H2].
  split.
  - apply H1. simpl. lia.
  - apply (H2 0 1 2); reflexivity.
Defined.

(** *** [Spectrogram.forward] *)

Lemma is_permutation_swap a b n :
  a < n -> b < n -> is_permutation (swap_axes a b n) n = true.
Proof.
  intros Ha Hb. unfold is_permutation, swap_axes.
  rewrite length_map, length_seq, Nat.eqb_refl. simpl.
  apply forallb_forall. intros d Hd. apply in_seq in Hd.
  apply existsb_exists. exists d. split; [| apply Nat.eqb_refl].
  apply in_map_iff.
  destruct (Nat.eq_dec d a) as [Ea | Ea];
    [| destruct (Nat.eq_dec d b) as [Eb | Eb]].
  - exists b. split; [| apply in_seq; lia].
    destruct (Nat.eqb_spec b a); [congruence |].
    rewrite Nat.eqb_refl. congruence.
  - exists a. split; [| apply in_seq; lia].
    rewrite Nat.eqb_refl. congruence.
  - exists d. split; [| apply in_seq; lia].
    destruct (Nat.eqb_spec d a); [contradiction |].
    destruct (Nat.eqb_spec d b); [contradiction | reflexivity].
Qed.

Lemma length_removelast {A : Type} (l : list A) :
  length (removelast l) = length l - 1.
Proof.
  rewrite removelast_firstn_len, length_firstn. lia.
Qed.

(** Up to its last step, [Spectrogram.forward] goes through on four axes
    or more, and loses one of them. *)
Lemma Spectrogram_forward_last_step self x :
  4 <= dim x ->
  exists t3,
    dim t3 = dim x - 1 /\
    Spectrogram_forward self x = permute [2; 0; 1; 3] t3.
Proof.
  intros Hn. unfold Spectrogram_forward, transpose.
  destruct (Nat.ltb_spec 2 (dim x)); [| lia].
  destruct (Nat.ltb_spec 3 (dim x)); [| lia].
  cbn [andb]. unfold permute at 1.
  rewrite is_permutation_swap by assumption. cbn [bind].
  set (t1 := build _ _).
  assert (S1 : length (shape t1) = dim x).
  { unfold t1, swap_axes. cbn [shape build].
    rewrite !length_map, length_seq. reflexivity. }
  unfold sum_last, size_last. cbn [map_tensor shape].
  destruct (rev (shape t1)) as [| d r] eqn:Hr.
  { apply (f_equal (@length nat)) in Hr. rewrite length_rev, S1 in Hr.
    cbn [length] in Hr. lia. }
  cbn [bind].
  set (t2 := map_tensor _ (build _ _)).
  assert (S2 : length (shape t2) = dim x - 1).
  { unfold t2. cbn [map_tensor shape build]. rewrite length_removelast.
    lia. }
  destruct (mono self).
  - unfold mean_dim1_keepdim.
    destruct (shape t2) as [| b [| c rest]] eqn:E2;
      try (cbn [length] in S2; lia).
    cbn [bind]. eexists. split; [| reflexivity].
    unfold dim in *. cbn [shape build length] in *. lia.
  - cbn [bind]. exists t2. split; [exact S2 | reflexivity].
Qed.

(** X3. [Spectrogram.forward] returns exactly on a tensor of five axes,
    [(nb_samples, nb_channels, nb_bins, nb_frames, 2)].  With fewer than
    four axes it raises [IndexError], at [transpose(2, 3)]; with four, or
    with more than five, it raises [RuntimeError], at [permute(2, 0, 1,
    3)]. *)
Theorem Spectrogram_forward_five_axes :
  forall self stft_f,
    ((exists y, Spectrogram_forward self stft_f = Ok y) <->
     dim stft_f = 5) /\
    (dim stft_f < 4 -> Spectrogram_forward self stft_f = Raise IndexError) /\
    (dim stft_f = 4 \/ 5 < dim stft_f ->
     Spectrogram_forward self stft_f = Raise RuntimeError).
Proof.
  intros self x.
  assert (Hlow : dim x < 4 -> Spectrogram_forward self x = Raise IndexError).
  { intros H. unfold Spectrogram_forward, transpose.
    destruct (Nat.ltb_spec 3 (dim x)); [lia |].
    rewrite andb_false_r. reflexivity. }
  assert (Hlast : forall t3, dim t3 <> 4 ->
                    permute [2; 0; 1; 3] t3 = Raise RuntimeError).
  { intros t3 H. unfold permute, is_permutation. cbn [length].
    destruct (Nat.eqb_spec 4 (dim t3)); [congruence | reflexivity]. }
  assert (Hbad : dim x = 4 \/ 5 < dim x ->
                 Spectrogram_forward self x = Raise RuntimeError).
  { intros H.
    destruct (Spectrogram_forward_last_step self x) as [t3 [D3 E]];
      [lia |].
    rewrite E. apply Hlast. lia. }
  assert (Hgood : dim x = 5 -> exists y, Spectrogram_forward self x = Ok y).
  { intros H.
    destruct (Spectrogram_forward_last_step self x) as [t3 [D3 E]];
      [lia |].
    rewrite E. unfold permute. rewrite D3, H. cbn. eexists. reflexivity. }
  split; [| split; assumption].
  split; [| exact Hgood].
  intros [y Hy].
  destruct (Nat.lt_ge_cases (dim x) 4) as [L | L].
  - rewrite (Hlow L) in Hy. discriminate.
  - destruct (Nat.eq_dec (dim x) 5) as [E | E]; [exact E |].
    rewrite Hbad in Hy by lia. discriminate.
Qed.

Lemma Spectrogram_forward_five_axes_witness :
  (exists y,
      Spectrogram_forward (mkSpectrogram 1 true) (zeros [1; 1; 1; 1; 2]) =
      Ok y) /\
  Spectrogram_forward (mkSpectrogram 1 true) (zeros [1; 1; 1; 2]) =
  Raise RuntimeError.
Proof.
  split.
  - apply (Spectrogram_forward_five_axes (mkSpectrogram 1 true)
             (zeros [1; 1; 1; 1; 2])). reflexivity.
  - apply (Spectrogram_forward_five_axes (mkSpectrogram 1 true)
             (zeros [1; 1; 1; 2])). left. reflexivity.
Defined.

Lemma get_map_tensor f t idx :
  in_bounds (shape t) idx = true ->
  length (data t) = numel (shape t) ->
  get (map_tensor f t) idx = f (get t idx).
Proof.
  intros Hin Hlen. unfold get, map_tensor. cbn [shape data].
  rewrite (nth_indep _ 0%R (f 0%R)).
  - apply map_nth.
  - rewrite length_map, Hlen. apply ravel_lt. exact Hin.
Qed.

Lemma sum_range_ext n f g :
  (forall k, k < n -> f k = g k) -> sum_range n f = sum_range n g.
Proof.
  intros H. unfold sum_range.
  assert (G : forall l, (forall k, In k l -> f k = g k) ->
                fold_right (fun k acc => (f k + acc)%R) 0%R l =
                fold_right (fun k acc => (g k + acc)%R) 0%R l).
  { induction l as [| k l IH]; intros Hl; simpl; [reflexivity |].
    rewrite (Hl k) by (left; reflexivity).
    rewrite IH by (intros; apply Hl; right; assumption). reflexivity. }
  apply G. intros k Hk. apply in_seq in Hk. apply H. lia.
Qed.

(** The squared magnitude, raised to half the power: what
    [pow(2).sum(-1).pow(power / 2.0)] makes of a real and an imaginary
    part. *)
Lemma Spectrogram_forward_magnitude self x S C B F :
  shape x = [S; C; B; F; 2] ->
  exists t2,
    shape t2 = [S; C; F; B] /\
    length (data t2) = numel (shape t2) /\
    (forall s c f b,
        in_bounds [S; C; F; B] [s; c; f; b] = true ->
        get t2 [s; c; f; b] =
        pow_real (get x [s; c; b; f; 0] * get x [s; c; b; f; 0] +
                  get x [s; c; b; f; 1] * get x [s; c; b; f; 1])
          (power self / 2)) /\
    Spectrogram_forward self x =
    (t3 <- (if mono self then mean_dim1_keepdim t2 else Ok t2) ;;
     permute [2; 0; 1; 3] t3).
Proof.
  intros Hx. unfold Spectrogram_forward, transpose, permute at 1, dim.
  rewrite Hx. cbn [length Nat.ltb Nat.leb andb is_permutation swap_axes seq
                   map Nat.eqb forallb existsb orb nth bind].
  set (t1 := build [S; C; F; B; 2] _).
  assert (G1 : forall s c f b k,
             in_bounds [S; C; F; B] [s; c; f; b] = true -> k < 2 ->
             get (map_tensor (fun v => (v * v)%R) t1) [s; c; f; b; k] =
             (get x [s; c; b; f; k] * get x [s; c; b; f; k])%R).
  { intros s c f b k Hin Hk.
    assert (Hin' : in_bounds [S; C; F; B; 2] [s; c; f; b; k] = true).
    { cbn [in_bounds] in *. apply Nat.ltb_lt in Hk. rewrite Hk.
      cbn [andb]. exact Hin. }
    rewrite get_map_tensor;
      [| exact Hin' | unfold t1; rewrite build_length; reflexivity].
    unfold t1. rewrite get_build by exact Hin'. reflexivity. }
  unfold sum_last, size_last. cbn [map_tensor shape t1 build rev app bind
                                   removelast].
  fold t1.
  eexists. split; [| split; [| split; [| reflexivity]]].
  - reflexivity.
  - cbn [map_tensor shape data build]. rewrite !length_map, length_seq.
    reflexivity.
  - intros s c f b Hin.
    rewrite get_map_tensor;
      [| exact Hin | cbn [shape build]; apply build_length].
    rewrite get_build by exact Hin.
    unfold sum_range. cbn [seq fold_right app].
    rewrite !G1 by (exact Hin || lia).
    f_equal. lra.
Qed.

(** X4. [Spectrogram.forward] on a transform of shape [(S, C, B, F, 2)]:
    entry [(f, s, c, b)] of the output is the magnitude of bin [b] of frame
    [f] of channel [c] of sample [s], the sum of the squares of the real
    and the imaginary part raised to [power / 2]; with [mono], the one
    channel of the output is the mean of these magnitudes over the
    channels. *)
Theorem Spectrogram_forward_entries :
  forall self x y S C B F,
    shape x = [S; C; B; F; 2] ->
    0 < C ->
    Spectrogram_forward self x = Ok y ->
    let magnitude s c b f :=
      pow_real (get x [s; c; b; f; 0] * get x [s; c; b; f; 0] +
                get x [s; c; b; f; 1] * get x [s; c; b; f; 1])
        (power self / 2) in
    forall f s b,
      f < F -> s < S -> b < B ->
      if mono self
      then get y [f; s; 0; b] =
           (sum_range C (fun c => magnitude s c b f) / INR C)%R
      else forall c, c < C -> get y [f; s; c; b] = magnitude s c b f.
Proof.
  intros self x y S C B F Hx HC Hy magnitude f s b Hf Hs Hb.
  destruct (Spectrogram_forward_magnitude self x S C B F Hx)
    as [t2 [S2 [L2 [G2 E]]]].
  rewrite E in Hy. clear E.
  apply Nat.ltb_lt in Hf, Hs, Hb.
  destruct (mono self).
  - apply bind_Ok_inv in Hy. destruct Hy as [t3 [H3 Hy]].
    unfold mean_dim1_keepdim in H3. rewrite S2 in H3. injection H3 as <-.
    unfold permute, dim in Hy. cbn [shape build length] in Hy.
    change (is_permutation [2; 0; 1; 3] 4) with true in Hy.
    cbn [map nth] in Hy. injection Hy as <-.
    rewrite get_build by (cbn [in_bounds]; rewrite Hf, Hs, Hb; reflexivity).
    cbn [map seq index_of Nat.eqb nth].
    rewrite get_build by (cbn [in_bounds]; rewrite Hf, Hs, Hb; reflexivity).
    f_equal. apply sum_range_ext. intros c Hc.
    apply G2. cbn [in_bounds]. apply Nat.ltb_lt in Hc.
    rewrite Hf, Hs, Hb, Hc. reflexivity.
  - intros c Hc. apply Nat.ltb_lt in Hc.
    cbn [bind] in Hy.
    unfold permute, dim in Hy. rewrite S2 in Hy. cbn [length] in Hy.
    change (is_permutation [2; 0; 1; 3] 4) with true in Hy.
    cbn [map nth] in Hy. injection Hy as <-.
    rewrite get_build
      by (cbn [in_bounds]; rewrite Hf, Hs, Hb, Hc; reflexivity).
    cbn [map seq index_of Nat.eqb nth].
    apply G2. cbn [in_bounds]. rewrite Hf, Hs, Hb, Hc. reflexivity.
Qed.

Lemma Spectrogram_forward_entries_witness :
  exists y,
    Spectrogram_forward (mkSpectrogram 2 false) stft_Q = Ok y /\
    get y [0; 0; 0; 0] = pow_real (3 * 3 + 4 * 4) (2 / 2).
Proof.
  assert (H : exists y,
             Spectrogram_forward (mkSpectrogram 2 false) stft_Q = Ok y)
    by (eexists; run_model; reflexivity).
  destruct H as [y Hy]. exists y. split; [exact Hy |].
  exact (Spectrogram_forward_entries (mkSpectrogram 2 false) stft_Q y
           1 1 1 1 eq_refl Nat.lt_0_1 Hy 0 0 0
           Nat.lt_0_1 Nat.lt_0_1 Nat.lt_0_1 0 Nat.lt_0_1).
Defined.

(** *** [OpenUnmix.forward] *)

Lemma length_update {A : Type} (l : list A) : forall n a,
  length (update l n a) = length l.
Proof.
  induction l as [| x l IH]; intros [| n] a; simpl; try reflexivity.
  rewrite IH. reflexivity.
Qed.

Lemma nth_error_update_same {A : Type} (l : list A) : forall n a,
  n < length l -> nth_error (update l n a) n = Some a.
Proof.
  induction l as [| x l IH]; intros [| n] a H; simpl in *;
    try lia; try reflexivity.
  apply IH. lia.
Qed.

Lemma update_update {A : Type} (l : list A) : forall n a b,
  update (update l n a) n b = update l n b.
Proof.
  induction l as [| x l IH]; intros [| n] a b; simpl; try reflexivity.
  rewrite IH. reflexivity.
Qed.

Lemma update_same {A : Type} (l : list A) : forall n a,
  nth_error l n = Some a -> update l n a = l.
Proof.
  induction l as [| x l IH]; intros [| n] a H; simpl in *;
    try discriminate.
  - injection H as <-. reflexivity.
  - rewrite (IH _ _ H). reflexivity.
Qed.

Lemma inplace_view_inv f h x v h' :
  inplace_view f h x v = Ok h' ->
  exists base,
    nth_error h (h_loc x) = Some base /\
    broadcast_shapes (h_shape x) (shape v) = Ok (h_shape x) /\
    h' = update h (h_loc x)
           (build (shape base)
              (fun idx =>
                 if in_bounds (h_shape x) idx
                 then f (get base idx) (get_bcast v idx)
                 else get base idx)).
Proof.
  unfold inplace_view. intros H.
  destruct (nth_error h (h_loc x)) as [base |]; [| discriminate].
  apply bind_Ok_inv in H. destruct H as [sh [Hb H]].
  destruct (list_eq_dec Nat.eq_dec sh (h_shape x)) as [-> |];
    [| discriminate].
  injection H as <-. exists base. repeat split. exact Hb.
Qed.

(** Two writes through the same view, one after the other. *)
Lemma inplace_view_twice f g h x v w h1 h2 base :
  nth_error h (h_loc x) = Some base ->
  inplace_view f h x v = Ok h1 ->
  inplace_view g h1 x w = Ok h2 ->
  h2 = update h (h_loc x)
         (build (shape base)
            (fun idx =>
               if in_bounds (h_shape x) idx
               then g (f (get base idx) (get_bcast v idx)) (get_bcast w idx)
               else get base idx)).
Proof.
  intros Hb H1 H2.
  assert (Hlt : h_loc x < length h).
  { apply nth_error_Some. rewrite Hb. discriminate. }
  apply inplace_view_inv in H1. destruct H1 as [b [Hb' [_ ->]]].
  rewrite Hb in Hb'. injection Hb' as <-.
  apply inplace_view_inv in H2. destruct H2 as [b1 [Hb1 [_ ->]]].
  rewrite nth_error_update_same in Hb1 by exact Hlt.
  injection Hb1 as <-.
  rewrite update_update. f_equal. cbn [shape build].
  apply build_ext. intros idx Hin.
  rewrite get_build by exact Hin.
  destruct (in_bounds (h_shape x) idx); reflexivity.
Qed.

(** The steps of [forward] after the transform, when the call returns. *)
Lemma OpenUnmix_forward_inv torch_stft self x h out h' :
  OpenUnmix_forward torch_stft self x h = Ok (out, h') ->
  exists x1 h1 F S C d mix sh h2 xv y1 y2 y3,
    OpenUnmix_transform torch_stft self x h = Ok (x1, h1) /\
    h_shape x1 = [F; S; C; d] /\
    load h1 x1 = Ok mix /\
    narrow_last_shape (h_shape x1) (nb_bins self) = Ok sh /\
    inplace_view Rplus h1 (mkHandle (h_loc x1) sh) (input_mean self) =
    Ok h2 /\
    inplace_view Rmult h2 (mkHandle (h_loc x1) sh) (input_scale self) =
    Ok h' /\
    load h' (mkHandle (h_loc x1) sh) = Ok xv /\
    OpenUnmix_network self F S C xv = Ok y1 /\
    inplace Rmult y1 (output_scale self) = Ok y2 /\
    inplace Rplus y2 (output_mean self) = Ok y3 /\
    mul (map_tensor relu y3) mix = Ok out.
Proof.
  intros H. unfold OpenUnmix_forward in H.
  apply bind_Ok_inv in H. destruct H as [[x1 h1] [Ht H]].
  destruct (h_shape x1) as [| F [| S [| C [| d [| ? ?]]]]] eqn:Hs;
    try discriminate.
  apply bind_Ok_inv in H. destruct H as [mix [Hmix H]].
  apply bind_Ok_inv in H. destruct H as [sh [Hsh H]].
  apply bind_Ok_inv in H. destruct H as [h2 [H2 H]].
  apply bind_Ok_inv in H. destruct H as [h3 [H3 H]].
  apply bind_Ok_inv in H. destruct H as [xv [Hxv H]].
  apply bind_Ok_inv in H. destruct H as [y1 [Hy1 H]].
  apply bind_Ok_inv in H. destruct H as [y2 [Hy2 H]].
  apply bind_Ok_inv in H. destruct H as [y3 [Hy3 H]].
  apply bind_Ok_inv in H. destruct H as [y4 [Hy4 H]].
  injection H as <- <-.
  exists x1, h1, F, S, C, d, mix, sh, h2, xv, y1, y2, y3.
  rewrite Hs. repeat split; assumption.
Qed.

(** X5. [OpenUnmix.forward] raises [ValueError] on a tensor, held by the
    caller, that has not the number of axes of its input: four for a
    spectrogram, at the unpacking of [x.data.shape]; three for a waveform,
    at the unpacking of [x.size()] in [STFT.forward]. *)
Theorem OpenUnmix_forward_rank_error :
  forall torch_stft self x h base,
    nth_error h (h_loc x) = Some base ->
    length (h_shape x) <> (if input_is_spectrogram self then 4 else 3) ->
    OpenUnmix_forward torch_stft self x h = Raise ValueError.
Proof.
  intros torch_stft self x h base Hb Hr.
  unfold OpenUnmix_forward, OpenUnmix_transform.
  destruct (input_is_spectrogram self).
  - unfold NoOp_forward. cbn [bind].
    destruct (h_shape x) as [| F [| S [| C [| d [| ? ?]]]]];
      try reflexivity.
    simpl in Hr. contradiction.
  - unfold load. rewrite Hb. cbn [bind].
    unfold STFT_forward. cbn [shape build].
    destruct (h_shape x) as [| a [| b [| c [| ? ?]]]]; try reflexivity.
    simpl in Hr. contradiction.
Qed.

Lemma OpenUnmix_forward_rank_error_witness :
  OpenUnmix_forward stub_stft model_S0 handle_A [audio_A] =
  Raise ValueError /\
  OpenUnmix_forward stub_stft model_A handle_S [spec_S] = Raise ValueError.
Proof.
  split.
  - apply (OpenUnmix_forward_rank_error stub_stft model_S0 handle_A
             [audio_A] audio_A eq_refl).
    simpl. lia.
  - apply (OpenUnmix_forward_rank_error stub_stft model_A handle_S
             [spec_S] spec_S eq_refl).
    simpl. lia.
Defined.

(** X6. With a spectrogram as input, [OpenUnmix.forward] normalises in
    the caller's tensor: when the call returns, the tensor holds [(x +
    input_mean) * input_scale] on the bins below [nb_bins], its other
    entries are as they were, and so is every other tensor of the
    caller. *)
Theorem OpenUnmix_forward_normalises_in_place :
  forall torch_stft self x h out h' base,
    input_is_spectrogram self = true ->
    nth_error h (h_loc x) = Some base ->
    OpenUnmix_forward torch_stft self x h = Ok (out, h') ->
    exists sh,
      narrow_last_shape (h_shape x) (nb_bins self) = Ok sh /\
      nth_error h' (h_loc x) =
      Some (build (shape base)
              (fun idx =>
                 if in_bounds sh idx
                 then ((get base idx + get_bcast (input_mean self) idx) *
                       get_bcast (input_scale self) idx)%R
                 else get base idx)) /\
      forall k, k <> h_loc x -> nth_error h' k = nth_error h k.
Proof.
  intros torch_stft self x h out h' base Hs Hb H.
  apply OpenUnmix_forward_inv in H.
  destruct H as (x1 & h1 & F & S & C & d & mix & sh & h2 & xv & y1 & y2 &
                 y3 & Ht & _ & _ & Hsh & H2 & H3 & _).
  unfold OpenUnmix_transform in Ht. rewrite Hs in Ht.
  injection Ht as <- <-. unfold NoOp_forward in *.
  exists sh. split; [exact Hsh |].
  assert (Hlt : h_loc x < length h).
  { apply nth_error_Some. rewrite Hb. discriminate. }
  rewrite (inplace_view_twice _ _ _ (mkHandle (h_loc x) sh) _ _ _ _ base
             Hb H2 H3).
  cbn [h_loc h_shape]. split.
  - apply nth_error_update_same. exact Hlt.
  - intros k Hk. apply nth_error_update_other. exact Hk.
Qed.

Lemma OpenUnmix_forward_normalises_in_place_witness :
  exists out h',
    OpenUnmix_forward stub_stft model_S handle_S [spec_S] = Ok (out, h') /\
    nth_error h' 0 =
    Some (build [1; 1; 1; 2]
            (fun idx =>
               if in_bounds [1; 1; 1; 2] idx
               then ((get spec_S idx + get_bcast (input_mean model_S) idx) *
                     get_bcast (input_scale model_S) idx)%R
               else get spec_S idx)).
Proof.
  assert (H : exists out h',
             OpenUnmix_forward stub_stft model_S handle_S [spec_S] =
             Ok (out, h')) by (do 2 eexists; run_model; reflexivity).
  destruct H as [out [h' H]]. exists out, h'. split; [exact H |].
  destruct (OpenUnmix_forward_normalises_in_place stub_stft model_S handle_S
              [spec_S] out h' spec_S eq_refl eq_refl H)
    as [sh [Hsh [Hw _]]].
  injection Hsh as <-. exact Hw.
Defined.

Lemma get_bcast_vector l f s c b :
  b < length l -> get_bcast (vector l) [f; s; c; b] = nth b l 0%R.
Proof.
  intros Hb. unfold get_bcast, get, vector, bcast_index.
  cbn [shape data length Nat.sub skipn clamp_index ravel numel fold_right].
  destruct (Nat.eqb_spec (length l) 1) as [E | E]; f_equal; lia.
Qed.

Lemma nth_repeat_lt (a : R) n b : b < n -> nth b (repeat a n) 0%R = a.
Proof.
  intros H. rewrite (nth_indep _ 0%R a) by (rewrite repeat_length; exact H).
  apply nth_repeat.
Qed.

Lemma narrow_last_shape_4 F S C d k :
  narrow_last_shape [F; S; C; d] k = Ok [F; S; C; Nat.min k d].
Proof. reflexivity. Qed.

Lemma in_bounds_4 F S C d idx :
  in_bounds [F; S; C; d] idx = true ->
  exists f s c b, idx = [f; s; c; b] /\ b < d.
Proof.
  destruct idx as [| f [| s [| c [| b [| ? ?]]]]]; cbn [in_bounds];
    rewrite ?andb_false_r; try discriminate.
  intros H. exists f, s, c, b. split; [reflexivity |].
  repeat (apply andb_prop in H; destruct H as [? H]).
  apply Nat.ltb_lt. assumption.
Qed.

(** X7. An estimator built without [input_mean] and [input_scale] adds
    zero and multiplies by one: given a spectrogram, [forward] leaves the
    caller's tensors with the values they had. *)
Theorem OpenUnmix_forward_default_normalisation :
  forall hann_window torch_stft n_fft n_hop hidden_size nb_channels
         sample_rate max_bin power layers x h out h' base,
    nth_error h (h_loc x) = Some base ->
    canonical base ->
    OpenUnmix_forward torch_stft
      (OpenUnmix_init hann_window n_fft n_hop true hidden_size nb_channels
         sample_rate None None max_bin power layers)
      x h = Ok (out, h') ->
    h' = h.
Proof.
  intros hann_window torch_stft n_fft n_hop hidden_size nb_channels
         sample_rate max_bin power layers x h out h' base Hb Hc H.
  remember (OpenUnmix_init hann_window n_fft n_hop true hidden_size
              nb_channels sample_rate None None max_bin power layers)
    as self eqn:Eself.
  assert (Hsp : input_is_spectrogram self = true)
    by (rewrite Eself; reflexivity).
  assert (Hm : input_mean self = vector (repeat 0%R (nb_bins self)))
    by (rewrite Eself; reflexivity).
  assert (Hsc : input_scale self = ones (nb_bins self))
    by (rewrite Eself; reflexivity).
  clear Eself.
  apply OpenUnmix_forward_inv in H.
  destruct H as (x1 & h1 & F & S & C & d & mix & sh & h2 & xv & y1 & y2 &
                 y3 & Ht & Hs & _ & Hsh & H2 & H3 & _).
  unfold OpenUnmix_transform in Ht. rewrite Hsp in Ht.
  injection Ht as <- <-. unfold NoOp_forward in *.
  rewrite Hs, narrow_last_shape_4 in Hsh. injection Hsh as <-.
  rewrite (inplace_view_twice _ _ _ (mkHandle (h_loc x) _) _ _ _ _ base
             Hb H2 H3).
  cbn [h_loc h_shape].
  apply update_same. rewrite Hb. f_equal.
  unfold canonical in Hc. rewrite Hc at 1. apply build_ext. intros idx _.
  destruct (in_bounds _ idx) eqn:Hin; [| reflexivity].
  apply in_bounds_4 in Hin. destruct Hin as (f & s & c & b & -> & Hlt).
  assert (Hn : b < nb_bins self) by lia.
  rewrite Hm, Hsc. unfold ones.
  rewrite !get_bcast_vector by (rewrite repeat_length; exact Hn).
  rewrite !nth_repeat_lt by exact Hn. lra.
Qed.

Lemma OpenUnmix_forward_default_normalisation_witness :
  exists out h',
    OpenUnmix_forward stub_stft model_S0 handle_S [spec_S] = Ok (out, h') /\
    h' = [spec_S].
Proof.
  assert (H : exists out h',
             OpenUnmix_forward stub_stft model_S0 handle_S [spec_S] =
             Ok (out, h')) by (do 2 eexists; run_model; reflexivity).
  destruct H as [out [h' H]]. exists out, h'. split; [exact H |].
  exact (OpenUnmix_forward_default_normalisation stub_hann_window stub_stft
           2 1 1 1 44100%Z None 1%R (zero_layers 1 2) handle_S [spec_S]
           out h' spec_S eq_refl eq_refl H).
Defined.



(** X9. A spectrogram with fewer bins than [nb_bins] cannot be
    normalised: with [input_mean] of [nb_bins] entries, as the constructor
    makes it when none is given, [forward] raises [RuntimeError] at [x +=
    self.input_mean]. *)
Theorem OpenUnmix_forward_too_few_bins :
  forall torch_stft self x h base F S C d,
    input_is_spectrogram self = true ->
    nth_error h (h_loc x) = Some base ->
    h_shape x = [F; S; C; d] ->
    0 < d < nb_bins self ->
    shape (input_mean self) = [nb_bins self] ->
    OpenUnmix_forward torch_stft self x h = Raise RuntimeError.
Proof.
  intros torch_stft self x h base F S C d Hs Hb Hx Hd Hm.
  unfold OpenUnmix_forward, OpenUnmix_transform. rewrite Hs.
  unfold NoOp_forward. cbn [bind]. rewrite Hx.
  unfold load at 1. rewrite Hb. cbn [bind].
  rewrite narrow_last_shape_4. cbn [bind].
  unfold inplace_view at 1. cbn [h_loc h_shape]. rewrite Hb, Hm.
  rewrite Nat.min_r by lia.
  unfold broadcast_shapes, fmap. cbn [rev app broadcast_rev bind].
  destruct (Nat.eqb_spec d (nb_bins self)) as [E | _]; [lia |].
  destruct (Nat.eqb_spec d 1) as [E1 | E1].
  - cbn [bind rev app].
    match goal with
    | |- context [list_eq_dec Nat.eq_dec ?a ?b] =>
        destruct (list_eq_dec Nat.eq_dec a b) as [E | _]; [| reflexivity]
    end.
    injection E as E. lia.
  - destruct (Nat.eqb_spec (nb_bins self) 1) as [E | _]; [lia |].
    reflexivity.
Qed.

Lemma OpenUnmix_forward_too_few_bins_witness :
  OpenUnmix_forward stub_stft model_S0 handle_S1 [spec_S1] =
  Raise RuntimeError.
Proof.
  apply (OpenUnmix_forward_too_few_bins stub_stft model_S0 handle_S1
           [spec_S1] spec_S1 1 1 1 1); try reflexivity.
  simpl. lia.
Defined.

Lemma OpenUnmix_network_shape self F S C xv y :
  OpenUnmix_network self F S C xv = Ok y ->
  shape y = [F; S; C; nb_output_bins self].
Proof.
  intros Hnet. unfold OpenUnmix_network in Hnet.
  do 12 (apply bind_Ok_inv in Hnet; destruct Hnet as [? [_ Hnet]]).
  apply (reshape_shape _ _ _ _ Hnet). intros sh1 Hi.
  exact (infer_shape_all _ [_; _; _; _] _ Hi).
Qed.

(** X10. Given a spectrogram of shape [(F, S, C, d)], [forward] returns
    only when [d] and [nb_output_bins] are equal or one of them is 1, the
    sizes the final product with the mixture accepts; the estimate has the
    shape of the input when [d] is [nb_output_bins]. *)
Theorem OpenUnmix_forward_spectrogram_shape :
  forall torch_stft self x h out h' F S C d,
    input_is_spectrogram self = true ->
    h_shape x = [F; S; C; d] ->
    OpenUnmix_forward torch_stft self x h = Ok (out, h') ->
    (d = nb_output_bins self \/ d = 1 \/ nb_output_bins self = 1) /\
    shape out = [F; S; C; if d =? 1 then nb_output_bins self else d].
Proof.
  intros torch_stft self x h out h' F S C d Hs Hx H.
  apply OpenUnmix_forward_inv in H.
  destruct H as (x1 & h1 & F' & S' & C' & d' & mix & sh & h2 & xv & y1 &
                 y2 & y3 & Ht & Hs1 & Hmix & _ & _ & _ & _ & Hnet & Hy2 &
                 Hy3 & Hmul).
  unfold OpenUnmix_transform in Ht. rewrite Hs in Ht.
  injection Ht as <- <-. unfold NoOp_forward in *.
  rewrite Hx in Hs1. injection Hs1 as <- <- <- <-.
  apply load_shape in Hmix. rewrite Hx in Hmix.
  apply OpenUnmix_network_shape in Hnet.
  apply inplace_shape in Hy2. apply inplace_shape in Hy3.
  unfold mul, binop in Hmul.
  apply bind_Ok_inv in Hmul. destruct Hmul as [bsh [Hbs Hmul]].
  injection Hmul as <-. cbn [shape build].
  unfold map_tensor in Hbs. cbn [shape] in Hbs.
  rewrite Hy3, Hy2, Hnet, Hmix in Hbs.
  unfold broadcast_shapes, fmap in Hbs. cbn [rev app broadcast_rev] in Hbs.
  cbn [bind] in Hbs. rewrite !Nat.eqb_refl in Hbs. cbn [bind] in Hbs.
  destruct (Nat.eqb_spec (nb_output_bins self) d) as [E | E].
  - cbn [bind rev app] in Hbs. injection Hbs as <-.
    split; [left; congruence |].
    destruct (Nat.eqb_spec d 1); congruence.
  - destruct (Nat.eqb_spec (nb_output_bins self) 1) as [E1 | E1].
    + cbn [bind rev app] in Hbs. injection Hbs as <-.
      split; [right; right; exact E1 |].
      destruct (Nat.eqb_spec d 1); congruence.
    + destruct (Nat.eqb_spec d 1) as [Ed | Ed]; [| discriminate].
      cbn [bind rev app] in Hbs. injection Hbs as <-.
      split; [right; left; exact Ed | reflexivity].
Qed.

Lemma OpenUnmix_forward_spectrogram_shape_witness :
  exists out h',
    OpenUnmix_forward stub_stft model_S0 handle_S [spec_S] = Ok (out, h') /\
    shape out = [1; 1; 1; 2].
Proof.
  assert (H : exists out h',
             OpenUnmix_forward stub_stft model_S0 handle_S [spec_S] =
             Ok (out, h')) by (do 2 eexists; run_model; reflexivity).
  destruct H as [out [h' H]]. exists out, h'. split; [exact H |].
  exact (proj2 (OpenUnmix_forward_spectrogram_shape stub_stft model_S0
                  handle_S [spec_S] out h' 1 1 1 2 eq_refl eq_refl H)).
Defined.

(** *** The calls [Separator.forward] makes *)

Section CallArguments.

Variable wiener :
  Tensor -> Tensor -> Z -> bool -> option string -> result Tensor.
Variable self : Separator.
Variables sp mx : Tensor.

Lemma refine_window_passed sample t T :
  Forall (passed self sp mx sample)
    (fst (refine_window wiener self sp mx sample t T)).
Proof.
  unfold refine_window.
  destruct (index_rows sp sample t) as [s | e |] eqn:Hs; simpl;
    try constructor.
  destruct (index_rows mx sample t) as [m | e |] eqn:Hm; simpl;
    constructor; [| constructor].
  unfold passed. simpl. repeat split; assumption.
Qed.

Lemma refine_frames_passed nbf fuel : forall sample pos bs T,
  Forall (passed self sp mx sample)
    (fst (refine_frames wiener self sp mx nbf fuel sample pos bs T)).
Proof.
  induction fuel as [| fuel IH]; intros sample pos bs T; simpl.
  - destruct (pos <? nbf)%Z; constructor.
  - destruct (pos <? nbf)%Z; [| constructor].
    destruct (next_window nbf pos bs) as [[t pos'] | e |];
      try constructor.
    pose proof (refine_window_passed sample t T) as Hw.
    destruct (refine_window wiener self sp mx sample t T)
      as [calls [T' | e |]]; simpl in *; try exact Hw.
    specialize (IH sample pos' bs T').
    destruct (refine_frames wiener self sp mx nbf fuel sample pos' bs T')
      as [calls' r]; simpl in *.
    apply Forall_app; split; assumption.
Qed.

Lemma refine_samples_passed nbf samples : forall T,
  Forall
    (fun c => In (wc_sample c) samples /\ passed self sp mx (wc_sample c) c)
    (fst (refine_samples wiener self sp mx nbf samples T)).
Proof.
  induction samples as [| sample samples IH]; intros T; simpl.
  - constructor.
  - pose proof (refine_frames_passed nbf (Z.to_nat nbf) sample 0%Z
                  (effective_batch_size self nbf) T) as Hf.
    assert (Hf' : Forall
                    (fun c => (sample = wc_sample c \/
                               In (wc_sample c) samples) /\
                              passed self sp mx (wc_sample c) c)
                    (fst (refine_frames wiener self sp mx nbf (Z.to_nat nbf)
                            sample 0%Z (effective_batch_size self nbf) T))).
    { eapply Forall_impl; [| exact Hf].
      intros c Hc. split; [left; symmetry; apply Hc |].
      destruct Hc as [Es Hc]. unfold passed. rewrite Es.
      split; [reflexivity | exact Hc]. }
    clear Hf.
    destruct (refine_frames wiener self sp mx nbf (Z.to_nat nbf) sample 0%Z
                (effective_batch_size self nbf) T)
      as [calls [T' | e |]]; simpl in *; try exact Hf'.
    specialize (IH T').
    destruct (refine_samples wiener self sp mx nbf samples T')
      as [calls' r]; simpl in *.
    apply Forall_app; split; [exact Hf' |].
    eapply Forall_impl; [| exact IH].
    intros c [Hin Hc]. split; [right; exact Hin | exact Hc].
Qed.

End CallArguments.

(** X11. Every call of the refinement that [Separator.forward] makes is
    for a sample of the batch, and is passed the frames of its window of
    that sample, of the stacked estimates and of the transform of the
    mixture, with the [niter] and the [residual] of the separator. *)
Theorem wiener_calls_receive_windows :
  forall torch_stft istft wiener self audio h nb_samples sp mx ut h1,
    Separator_analysis torch_stft self audio h =
    Ok (nb_samples, sp, mx, ut, h1) ->
    Forall
      (fun c =>
         wc_sample c < nb_samples /\
         index_rows sp (wc_sample c) (wc_frames c) =
         Ok (wc_spectrograms c) /\
         index_rows mx (wc_sample c) (wc_frames c) = Ok (wc_mix_stft c) /\
         wc_iterations c = niter self /\
         wc_residual c = residual self)
      (fst (Separator_forward_traced torch_stft istft wiener self audio h)).
Proof.
  intros torch_stft istft wiener self audio h nb_samples sp mx ut h1 Ha.
  unfold Separator_forward_traced. rewrite Ha.
  destruct ((length (effective_targets self) =? 1) && (0 <? niter self)%Z);
    simpl; try constructor.
  destruct (size_at sp 1) as [nb_frames | e |]; simpl; try constructor.
  pose proof (refine_samples_passed wiener self sp mx (Z.of_nat nb_frames)
                (seq 0 nb_samples)
                (zeros (shape mx ++ [effective_nb_sources self]))) as Hs.
  destruct (refine_samples wiener self sp mx (Z.of_nat nb_frames)
              (seq 0 nb_samples)
              (zeros (shape mx ++ [effective_nb_sources self])))
    as [calls r]; simpl in *.
  eapply Forall_impl; [| exact Hs].
  intros c [Hin [_ Hc]]. apply in_seq in Hin.
  split; [lia | exact Hc].
Qed.

Lemma wiener_calls_receive_windows_witness :
  exists nb_samples sp mx ut h1,
    Separator_analysis stub_stft (sep_A None) handle_A [audio_A] =
    Ok (nb_samples, sp, mx, ut, h1) /\
    Forall
      (fun c =>
         wc_sample c < nb_samples /\
         index_rows sp (wc_sample c) (wc_frames c) =
         Ok (wc_spectrograms c) /\
         index_rows mx (wc_sample c) (wc_frames c) = Ok (wc_mix_stft c) /\
         wc_iterations c = 1%Z /\
         wc_residual c = None)
      (fst (Separator_forward_traced stub_stft stub_istft wiener_model
              (sep_A None) handle_A [audio_A])).
Proof.
  assert (H : exists a,
             Separator_analysis stub_stft (sep_A None) handle_A [audio_A] =
             Ok a) by (eexists; run_model; reflexivity).
  destruct H as [[[[[nb_samples sp] mx] ut] h1] H].
  exists nb_samples, sp, mx, ut, h1. split; [exact H |].
  exact (wiener_calls_receive_windows stub_stft stub_istft wiener_model
           (sep_A None) handle_A [audio_A] nb_samples sp mx ut h1 H).
Defined.

(** The number of windows of [bs] frames from [pos] on. *)
Lemma windows_from_count nbf bs pos ws :
  windows_from nbf bs pos ws ->
  (0 <= bs)%Z ->
  length ws = Z.to_nat ((nbf - pos + bs - 1) / bs).
Proof.
  induction 1 as [pos Hend | pos ws Hlt Hbs Hws IH]; intros H0.
  - simpl. destruct (Z.eq_dec bs 0) as [-> | Hn].
    + rewrite Z.div_0_r. reflexivity.
    + assert (Hq : ((nbf - pos + bs - 1) / bs <= 0)%Z).
      { apply Z.lt_succ_r. apply Z.div_lt_upper_bound; lia. }
      lia.
  - simpl. rewrite IH by exact H0. clear IH.
    destruct (Z.le_gt_cases nbf (pos + bs)) as [Hle | Hgt].
    + rewrite Z.min_l by exact Hle.
      replace (nbf - nbf + bs - 1)%Z with (bs - 1)%Z by lia.
      rewrite Z.div_small by lia.
      replace ((nbf - pos + bs - 1) / bs)%Z with 1%Z; [reflexivity |].
      apply Z.div_unique with (r := (nbf - pos - 1)%Z); lia.
    + rewrite Z.min_r by lia.
      replace (nbf - pos + bs - 1)%Z
        with (nbf - (pos + bs) + bs - 1 + 1 * bs)%Z by lia.
      rewrite Z.div_add by lia.
      assert (Hq : (0 <= (nbf - (pos + bs) + bs - 1) / bs)%Z)
        by (apply Z.div_pos; lia).
      lia.
Qed.

Lemma refine_samples_count wiener self sp mx nbf samples :
  (0 <= effective_batch_size self nbf)%Z ->
  forall T calls T',
    refine_samples wiener self sp mx nbf samples T = (calls, Ok T') ->
    length calls =
    length samples *
    Z.to_nat ((nbf + effective_batch_size self nbf - 1) /
              effective_batch_size self nbf).
Proof.
  intros Hbs.
  induction samples as [| sample samples IH]; intros T calls T' H;
    simpl in H.
  - injection H as <- _. reflexivity.
  - destruct (refine_frames wiener self sp mx nbf (Z.to_nat nbf) sample 0%Z
                (effective_batch_size self nbf) T)
      as [calls1 [T1 | e |]] eqn:Hf; try discriminate.
    destruct (refine_samples wiener self sp mx nbf samples T1)
      as [calls2 r] eqn:Hr.
    injection H as <- ->.
    apply refine_frames_windows in Hf.
    apply windows_from_count in Hf; [| exact Hbs].
    rewrite length_map, Z.sub_0_r in Hf.
    rewrite length_app, Hf, (IH _ _ _ Hr). simpl. lia.
Qed.

(** X12. When [Separator.forward] returns, with a batch size that is not
    negative, it has called the refinement once for each window of each
    sample: [nb_samples] times the number of frames divided by the
    effective batch size, rounded up. *)
Theorem wiener_call_count :
  forall torch_stft istft wiener self audio h nb_samples sp mx ut h1
         nb_frames calls v,
    Separator_analysis torch_stft self audio h =
    Ok (nb_samples, sp, mx, ut, h1) ->
    size_at sp 1 = Ok nb_frames ->
    (forall b, batch_size self = Some b -> (0 <= b)%Z) ->
    Separator_forward_traced torch_stft istft wiener self audio h =
    (calls, Ok v) ->
    let bs := effective_batch_size self (Z.of_nat nb_frames) in
    length calls =
    nb_samples * Z.to_nat ((Z.of_nat nb_frames + bs - 1) / bs).
Proof.
  intros torch_stft istft wiener self audio h nb_samples sp mx ut h1
         nb_frames calls v Ha Hn Hb H bs.
  assert (Hbs : (0 <= bs)%Z).
  { unfold bs, effective_batch_size.
    destruct (batch_size self) as [b |] eqn:Eb; [| lia].
    specialize (Hb b eq_refl). destruct (b =? 0)%Z; lia. }
  unfold Separator_forward_traced in H. rewrite Ha in H.
  destruct ((length (effective_targets self) =? 1) && (0 <? niter self)%Z);
    [discriminate |].
  unfold Separator_synthesis in H. rewrite Hn in H.
  destruct (refine_samples wiener self sp mx (Z.of_nat nb_frames)
              (seq 0 nb_samples)
              (zeros (shape mx ++ [effective_nb_sources self])))
    as [calls' r] eqn:Hr.
  injection H as <- H.
  destruct r as [T' | e |]; try discriminate.
  rewrite (refine_samples_count _ _ _ _ _ _ Hbs _ _ _ Hr), length_seq.
  reflexivity.
Qed.

Lemma wiener_call_count_witness :
  exists calls v,
    Separator_forward_traced stub_stft stub_istft wiener_model
      (sep_A (Some 2%Z)) handle_A [audio_A] = (calls, Ok v) /\
    length calls = 2.
Proof.
  assert (Ha : exists sp mx ut h1,
             Separator_analysis stub_stft (sep_A (Some 2%Z)) handle_A
               [audio_A] = Ok (1, sp, mx, ut, h1) /\
             size_at sp 1 = Ok 3)
    by (do 4 eexists; split; run_model; reflexivity).
  destruct Ha as (sp & mx & ut & h1 & Ha & Hn).
  assert (H : exists calls v,
             Separator_forward_traced stub_stft stub_istft wiener_model
               (sep_A (Some 2%Z)) handle_A [audio_A] = (calls, Ok v))
    by (do 2 eexists; run_model; reflexivity).
  destruct H as (calls & v & H). exists calls, v. split; [exact H |].
  apply (wiener_call_count stub_stft stub_istft wiener_model
           (sep_A (Some 2%Z)) handle_A [audio_A] 1 sp mx ut h1 3 calls v
           Ha Hn); [| exact H].
  intros b Eb. injection Eb as <-. lia.
Defined.

(** X13. A negative [batch_size] is taken as it is, being true for
    Python: the first window of the first sample is the empty range that
    [torch.arange] refuses, and [Separator.forward] raises [RuntimeError]
    before any call of the refinement, whenever the configuration passes
    the guard and there is a sample and a frame. *)
Theorem negative_batch_size_raises :
  forall torch_stft istft wiener self audio h nb_samples sp mx ut h1
         nb_frames b,
    Separator_analysis torch_stft self audio h =
    Ok (nb_samples, sp, mx, ut, h1) ->
    size_at sp 1 = Ok nb_frames ->
    0 < nb_samples ->
    0 < nb_frames ->
    batch_size self = Some b ->
    (b < 0)%Z ->
    (length (effective_targets self) =? 1) && (0 <? niter self)%Z = false ->
    Separator_forward_traced torch_stft istft wiener self audio h =
    ([], Raise RuntimeError).
Proof.
  intros torch_stft istft wiener self audio h nb_samples sp mx ut h1
         nb_frames b Ha Hn Hs Hf Hb Hneg Hg.
  unfold Separator_forward_traced. rewrite Ha, Hg.
  unfold Separator_synthesis. rewrite Hn.
  destruct nb_samples as [| k]; [lia |].
  cbn [seq refine_samples].
  assert (E : effective_batch_size self (Z.of_nat nb_frames) = b).
  { unfold effective_batch_size. rewrite Hb.
    destruct (Z.eqb_spec b 0); [lia | reflexivity]. }
  rewrite E.
  destruct (Z.to_nat (Z.of_nat nb_frames)) as [| fuel] eqn:Ef; [lia |].
  cbn [refine_frames].
  destruct (Z.ltb_spec 0 (Z.of_nat nb_frames)); [| lia].
  unfold next_window, arange.
  destruct (Z.ltb_spec (Z.min (Z.of_nat nb_frames) (0 + b)) 0); [| lia].
  reflexivity.
Qed.

Lemma negative_batch_size_raises_witness :
  Separator_forward_traced stub_stft stub_istft wiener_model
    (sep_A (Some (-1)%Z)) handle_A [audio_A] = ([], Raise RuntimeError).
Proof.
  assert (Ha : exists sp mx ut h1,
             Separator_analysis stub_stft (sep_A (Some (-1)%Z)) handle_A
               [audio_A] = Ok (1, sp, mx, ut, h1) /\
             size_at sp 1 = Ok 3)
    by (do 4 eexists; split; run_model; reflexivity).
  destruct Ha as (sp & mx & ut & h1 & Ha & Hn).
  apply (negative_batch_size_raises stub_stft stub_istft wiener_model
           (sep_A (Some (-1)%Z)) handle_A [audio_A] 1 sp mx ut h1 3
           (-1)%Z Ha Hn); try reflexivity; lia.
Defined.

(** The loop over the frames does the same with any bound that covers the
    frames left. *)
Lemma refine_frames_fuel wiener self sp mx nbf sample bs :
  forall fuel1 fuel2 pos T,
    Z.to_nat (nbf - pos) <= fuel1 ->
    Z.to_nat (nbf - pos) <= fuel2 ->
    refine_frames wiener self sp mx nbf fuel1 sample pos bs T =
    refine_frames wiener self sp mx nbf fuel2 sample pos bs T.
Proof.
  induction fuel1 as [| fuel1 IH]; intros fuel2 pos T H1 H2.
  - assert (Hp : (nbf <= pos)%Z) by lia.
    rewrite !refine_frames_done by exact Hp. reflexivity.
  - destruct (Z.le_gt_cases nbf pos) as [Hp | Hp].
    { rewrite !refine_frames_done by exact Hp. reflexivity. }
    destruct fuel2 as [| fuel2]; [lia |].
    cbn [refine_frames].
    destruct (Z.ltb_spec pos nbf); [| lia].
    destruct (next_window nbf pos bs) as [[t pos'] | e |] eqn:Hw;
      try reflexivity.
    apply next_window_spec in Hw; [| assumption].
    destruct Hw as [Hbs [-> _]].
    destruct (refine_window wiener self sp mx sample t T)
      as [calls [T1 | e |]]; try reflexivity.
    rewrite (IH fuel2) by lia. reflexivity.
Qed.

(** X14. The loop over the frames of a sample ends: each window has a
    frame at least, so [nb_frames] iterations are enough.  A larger bound
    changes neither the calls nor the result, and the loops never stop for
    lack of iterations when the refinement itself returns or raises. *)
Theorem frame_loop_terminates :
  forall wiener self sp mx (nb_frames : nat) samples T,
    (forall s m it sm r, avoids OutOfFuel (wiener s m it sm r)) ->
    (forall fuel sample bs T0,
        nb_frames <= fuel ->
        refine_frames wiener self sp mx (Z.of_nat nb_frames) fuel sample 0
          bs T0 =
        refine_frames wiener self sp mx (Z.of_nat nb_frames) nb_frames
          sample 0 bs T0) /\
    avoids OutOfFuel
      (snd (refine_samples wiener self sp mx (Z.of_nat nb_frames) samples
              T)).
Proof.
  intros wiener self sp mx nb_frames samples T Hw. split.
  - intros fuel sample bs T0 Hf. apply refine_frames_fuel; lia.
  - apply avoids_refine_samples; [apply foreign_OutOfFuel | exact Hw].
Qed.

Lemma wiener_model_returns :
  forall s m it sm r, avoids OutOfFuel (wiener_model s m it sm r).
Proof.
  intros s m it sm r. unfold wiener_model, avoids.
  destruct (shape m); discriminate.
Qed.

Lemma frame_loop_terminates_witness :
  refine_frames wiener_model (sep_A (Some 2%Z)) spectrograms_W mix_stft_W
    3 5 0 0 2 targets_stft_W =
  refine_frames wiener_model (sep_A (Some 2%Z)) spectrograms_W mix_stft_W
    3 3 0 0 2 targets_stft_W /\
  avoids OutOfFuel
    (snd (refine_samples wiener_model (sep_A (Some 2%Z)) spectrograms_W
            mix_stft_W 3 [0] targets_stft_W)).
Proof.
  destruct (frame_loop_terminates wiener_model (sep_A (Some 2%Z))
              spectrograms_W mix_stft_W 3 [0] targets_stft_W
              wiener_model_returns) as [H1 H2].
  split; [| exact H2].
  apply (H1 5 0 2%Z targets_stft_W). lia.
Defined.

(** *** [Separator.forward] and the caller's tensors *)

Lemma update_app_last {A : Type} (l : list A) a b :
  update (l ++ [a]) (length l) b = l ++ [b].
Proof.
  induction l as [| x l IH]; simpl; [reflexivity |].
  rewrite IH. reflexivity.
Qed.

(** Given a waveform, [OpenUnmix.forward] adds the spectrogram it computes
    to the store and writes nowhere else. *)
Lemma OpenUnmix_forward_waveform_store torch_stft self x h out h' :
  input_is_spectrogram self = false ->
  OpenUnmix_forward torch_stft self x h = Ok (out, h') ->
  exists p, h' = h ++ [p].
Proof.
  intros Hs H. apply OpenUnmix_forward_inv in H.
  destruct H as (x1 & h1 & F & S & C & d & mix & sh & h2 & xv & y1 & y2 &
                 y3 & Ht & _ & _ & _ & H2 & H3 & _).
  unfold OpenUnmix_transform in Ht. rewrite Hs in Ht.
  apply bind_Ok_inv in Ht. destruct Ht as [v [_ Ht]].
  apply bind_Ok_inv in Ht. destruct Ht as [s [_ Ht]].
  apply bind_Ok_inv in Ht. destruct Ht as [p [_ Ht]].
  unfold alloc in Ht. injection Ht as <- <-. cbn [h_loc] in *.
  assert (Hp : nth_error (h ++ [p]) (length h) = Some p).
  { rewrite nth_error_app2 by lia. rewrite Nat.sub_diag. reflexivity. }
  rewrite (inplace_view_twice _ _ _ (mkHandle (length h) sh) _ _ _ _ p
             Hp H2 H3).
  cbn [h_loc]. rewrite update_app_last. eexists. reflexivity.
Qed.

Lemma estimate_targets_store torch_stft ts : forall j nb audio acc h acc' h',
  (forall name m, In (name, m) ts -> input_is_spectrogram m = false) ->
  estimate_targets torch_stft ts j nb audio acc h = Ok (acc', h') ->
  exists added, h' = h ++ added /\ length added = length ts.
Proof.
  induction ts as [| [name m] ts IH]; intros j nb audio acc h acc' h' Hw H;
    simpl in H.
  - injection H as _ <-. exists []. rewrite app_nil_r. split; reflexivity.
  - apply bind_Ok_inv in H. destruct H as [[out h1] [Hf H]].
    apply bind_Ok_inv in H. destruct H as [sp [_ H]].
    apply OpenUnmix_forward_waveform_store in Hf;
      [| apply (Hw name); left; reflexivity].
    destruct Hf as [p ->].
    apply IH in H; [| intros n' m' Hin; apply (Hw n'); right; exact Hin].
    destruct H as [added [-> Hl]].
    exists (p :: added). rewrite <- app_assoc. split; [reflexivity |].
    simpl. rewrite Hl. reflexivity.
Qed.

(** X15. With targets that take waveforms, [Separator.forward] writes to
    no tensor of the caller, the mixture among them: the store it leaves
    is the store it was given, followed by the spectrograms of the
    targets, one each. *)
Theorem Separator_forward_keeps_store :
  forall torch_stft istft wiener self audio h v h',
    (forall name m,
        In (name, m) (targets self) -> input_is_spectrogram m = false) ->
    Separator_forward torch_stft istft wiener self audio h = Ok (v, h') ->
    exists added,
      h' = h ++ added /\ length added = length (targets self).
Proof.
  intros torch_stft istft wiener self audio h v h' Hw H.
  unfold Separator_forward, Separator_forward_traced in H.
  destruct (Separator_analysis torch_stft self audio h)
    as [[[[[nb_samples sp] mx] ut] h1] | e |] eqn:Ha;
    try discriminate.
  assert (Hh : exists added,
             h1 = h ++ added /\ length added = length (targets self)).
  { unfold Separator_analysis in Ha.
    apply bind_Ok_inv in Ha. destruct Ha as [av [_ Ha]].
    apply bind_Ok_inv in Ha. destruct Ha as [n [_ Ha]].
    apply bind_Ok_inv in Ha. destruct Ha as [[acc h2] [He Ha]].
    destruct acc as [[sp0 ut0] |]; [| discriminate].
    apply bind_Ok_inv in Ha. destruct Ha as [sp1 [_ Ha]].
    apply bind_Ok_inv in Ha. destruct Ha as [av1 [_ Ha]].
    apply bind_Ok_inv in Ha. destruct Ha as [m0 [_ Ha]].
    apply bind_Ok_inv in Ha. destruct Ha as [m1 [_ Ha]].
    injection Ha as _ _ _ _ <-.
    exact (estimate_targets_store _ _ _ _ _ _ _ _ _ Hw He). }
  destruct ((length (effective_targets self) =? 1) && (0 <? niter self)%Z);
    [discriminate |].
  unfold Separator_synthesis in H.
  destruct (size_at sp 1) as [nb_frames | e |]; try discriminate.
  destruct (refine_samples wiener self sp mx (Z.of_nat nb_frames)
              (seq 0 nb_samples)
              (zeros (shape mx ++ [effective_nb_sources self])))
    as [calls r].
  cbn [snd] in H.
  apply bind_Ok_inv in H. destruct H as [T' [_ H]].
  apply bind_Ok_inv in H. destruct H as [T2 [_ H]].
  apply bind_Ok_inv in H. destruct H as [av [_ H]].
  apply bind_Ok_inv in H. destruct H as [len [_ H]].
  apply bind_Ok_inv in H. destruct H as [est [_ H]].
  injection H as _ <-. exact Hh.
Qed.

Lemma Separator_forward_keeps_store_witness :
  exists v added,
    Separator_forward stub_stft stub_istft wiener_model (sep_A None)
      handle_A [audio_A] = Ok (v, [audio_A] ++ added) /\
    length added = 2.
Proof.
  assert (H : exists v h',
             Separator_forward stub_stft stub_istft wiener_model
               (sep_A None) handle_A [audio_A] = Ok (v, h'))
    by (do 2 eexists; run_model; reflexivity).
  destruct H as (v & h' & H).
  destruct (Separator_forward_keeps_store stub_stft stub_istft wiener_model
              (sep_A None) handle_A [audio_A] v h') as [added [E L]].
  - intros name m [Hin | [Hin | []]]; injection Hin as _ <-; reflexivity.
  - exact H.
  - exists v, added. rewrite <- E. split; [exact H | exact L].
Defined.

(** When [OpenUnmix.forward] returns, its input had the number of axes of
    its kind. *)
Lemma OpenUnmix_forward_spectrogram_rank torch_stft self x h out h' :
  input_is_spectrogram self = true ->
  OpenUnmix_forward torch_stft self x h = Ok (out, h') ->
  length (h_shape x) = 4.
Proof.
  intros Hs H. apply OpenUnmix_forward_inv in H.
  destruct H as (x1 & h1 & F & S & C & d & mix & sh & h2 & xv & y1 & y2 &
                 y3 & Ht & Hx & _).
  unfold OpenUnmix_transform in Ht. rewrite Hs in Ht.
  injection Ht as <- _. unfold NoOp_forward in Hx. rewrite Hx. reflexivity.
Qed.

Lemma estimate_targets_each torch_stft ts : forall j nb audio acc h r,
  estimate_targets torch_stft ts j nb audio acc h = Ok r ->
  forall name m, In (name, m) ts ->
    exists h0 out h1, OpenUnmix_forward torch_stft m audio h0 = Ok (out, h1).
Proof.
  induction ts as [| [name0 m0] ts IH]; intros j nb audio acc h r H name m Hin;
    simpl in H.
  - destruct Hin.
  - apply bind_Ok_inv in H. destruct H as [[out h1] [Hf H]].
    apply bind_Ok_inv in H. destruct H as [sp [_ H]].
    destruct Hin as [E | Hin].
    + injection E as _ <-. exists h, out, h1. exact Hf.
    + exact (IH _ _ _ _ _ _ H name m Hin).
Qed.

(** The analysis goes through only with targets that take waveforms: a
    target that takes spectrograms unpacks four sizes of the mixture, and
    [STFT.forward], applied to the same tensor afterwards, unpacks
    three. *)
Lemma analysis_targets_waveform torch_stft self audio h a :
  Separator_analysis torch_stft self audio h = Ok a ->
  forall name m,
    In (name, m) (targets self) -> input_is_spectrogram m = false.
Proof.
  intros Ha name m Hin.
  destruct (input_is_spectrogram m) eqn:Hs; [exfalso | reflexivity].
  unfold Separator_analysis in Ha.
  apply bind_Ok_inv in Ha. destruct Ha as [av [_ Ha]].
  apply bind_Ok_inv in Ha. destruct Ha as [n [_ Ha]].
  apply bind_Ok_inv in Ha. destruct Ha as [[acc h2] [He Ha]].
  destruct acc as [[sp0 ut0] |]; [| discriminate].
  apply bind_Ok_inv in Ha. destruct Ha as [sp1 [_ Ha]].
  apply bind_Ok_inv in Ha. destruct Ha as [av1 [Hl Ha]].
  apply bind_Ok_inv in Ha. destruct Ha as [m0 [Hst _]].
  destruct (estimate_targets_each _ _ _ _ _ _ _ _ He name m Hin)
    as (h0 & out & h3 & Hf).
  apply OpenUnmix_forward_spectrogram_rank in Hf; [| exact Hs].
  apply load_shape in Hl. unfold STFT_forward in Hst. rewrite Hl in Hst.
  destruct (h_shape audio) as [| a0 [| b [| c [| d [| ? ?]]]]];
    try discriminate.
Qed.

(** X16. A separator cannot run with a target that takes spectrograms:
    that target unpacks four sizes of the mixture, and [STFT.forward],
    applied to the same tensor afterwards, unpacks three.  Whatever the
    mixture, [Separator.forward] does not return. *)
Theorem Separator_forward_needs_waveform_targets :
  forall torch_stft istft wiener self audio h name m v,
    In (name, m) (targets self) ->
    input_is_spectrogram m = true ->
    Separator_forward torch_stft istft wiener self audio h <> Ok v.
Proof.
  intros torch_stft istft wiener self audio h name m v Hin Hs H.
  unfold Separator_forward, Separator_forward_traced in H.
  destruct (Separator_analysis torch_stft self audio h) as [a | e |] eqn:Ha;
    try discriminate.
  rewrite (analysis_targets_waveform _ _ _ _ _ Ha name m Hin) in Hs.
  discriminate.
Qed.

Lemma Separator_forward_needs_waveform_targets_witness :
  Separator_forward stub_stft stub_istft wiener_model sep_spec handle_S
    [spec_S] = Raise ValueError /\
  Separator_forward stub_stft stub_istft wiener_model sep_spec handle_S
    [spec_S] <> Ok (PyTensor spec_S, [spec_S]).
Proof.
  split; [run_model; reflexivity |].
  apply (Separator_forward_needs_waveform_targets stub_stft stub_istft
           wiener_model sep_spec handle_S [spec_S] "vocals"%string
           model_S0).
  - left. reflexivity.
  - reflexivity.
Defined.

(** *** The refined tensor *)

Lemma zrange_as_seq a b :
  (0 <= a)%Z ->
  zrange a b = map Z.of_nat (seq (Z.to_nat a) (Z.to_nat (b - a))).
Proof.
  intros Ha. unfold zrange.
  rewrite (map_seq_shift _ (Z.to_nat a)).
  apply map_ext. intros k. lia.
Qed.

(** An assignment to the frames [a .. b - 1] of item [sample] leaves the
    other frames, and the other items, as they were. *)
Lemma index_put_rows_outside T sample a b v T' :
  (0 <= a)%Z ->
  index_put_rows T sample (zrange a b) v = Ok T' ->
  shape T' = shape T /\
  forall s i r,
    in_bounds (shape T) (s :: i :: r) = true ->
    s <> sample \/ (Z.of_nat i < a)%Z \/ (b <= Z.of_nat i)%Z ->
    get T' (s :: i :: r) = get T (s :: i :: r).
Proof.
  intros Ha H. rewrite (zrange_as_seq a b Ha) in H.
  split; [exact (proj2 (index_put_rows_canonical _ _ _ _ _ H)) |].
  unfold index_put_rows in H.
  destruct (shape T) as [| b0 [| f rest]] eqn:ST; try discriminate.
  destruct (sample <? b0); [| discriminate].
  apply bind_Ok_inv in H. destruct H as [rows [Hr H]].
  apply norm_indices_of_nat_inv in Hr. destruct Hr as [-> _].
  apply bind_Ok_inv in H. destruct H as [sh [_ H]].
  match type of H with
  | (if ?c then _ else _) = _ => destruct c; [| discriminate]
  end.
  injection H as <-.
  intros s i r Hin Hout. rewrite get_build by exact Hin.
  destruct (Nat.eqb_spec s sample) as [Es | Es]; [| reflexivity].
  rewrite find_index_seq.
  destruct (Nat.leb_spec (Z.to_nat a) i) as [L1 | L1];
    destruct (Nat.ltb_spec i (Z.to_nat a + Z.to_nat (b - a))) as [L2 | L2];
    cbn [andb]; try reflexivity.
  exfalso. destruct Hout as [Hs | [Hlt | Hge]]; [contradiction | lia | lia].
Qed.

(** The loop over the frames of a sample writes to the frames it goes
    through, of that sample: the refined tensor keeps its shape, and its
    entries for another sample, or for a frame before the start of the loop
    or past the last frame, are as they were. *)
Lemma refine_frames_outside wiener self sp mx nbf fuel sample :
  forall pos bs T T',
    (0 <= pos)%Z ->
    snd (refine_frames wiener self sp mx nbf fuel sample pos bs T) =
    Ok T' ->
    shape T' = shape T /\
    forall s i r,
      in_bounds (shape T) (s :: i :: r) = true ->
      s <> sample \/ (Z.of_nat i < pos)%Z \/ (nbf <= Z.of_nat i)%Z ->
      get T' (s :: i :: r) = get T (s :: i :: r).
Proof.
  induction fuel as [| fuel IH]; intros pos bs T T' Hpos H.
  - cbn [refine_frames] in H.
    destruct (pos <? nbf)%Z; [discriminate |].
    injection H as <-. split; reflexivity.
  - destruct (Z.le_gt_cases nbf pos) as [Hp | Hp].
    { rewrite refine_frames_done in H by exact Hp.
      injection H as <-. split; reflexivity. }
    apply refine_frames_step_inv in H; [| lia].
    destruct H as (fuel' & T1 & Ef & Hbs & Hw & Hrest).
    injection Ef as <-.
    apply refine_window_inv in Hw.
    destruct Hw as (s0 & m0 & w & _ & _ & _ & Hput).
    apply index_put_rows_outside in Hput; [| exact Hpos].
    destruct Hput as [S1 G1].
    apply IH in Hrest; [| lia].
    destruct Hrest as [S2 G2].
    split; [congruence |].
    intros s i r Hin Hout.
    rewrite G2; [| rewrite S1; exact Hin | lia].
    apply G1; [exact Hin | lia].
Qed.

(** An assignment to the frames [a .. a + n - 1] of item [sample] puts
    there the frames of the value assigned. *)
Lemma index_put_rows_inside T sample a n v T' :
  index_put_rows T sample (map Z.of_nat (seq a n)) v = Ok T' ->
  forall j r,
    j < n ->
    in_bounds (shape T) (sample :: a + j :: r) = true ->
    get T' (sample :: a + j :: r) = get_bcast v (j :: r).
Proof.
  intros H. unfold index_put_rows in H.
  destruct (shape T) as [| b0 [| f rest]] eqn:ST; try discriminate.
  destruct (sample <? b0); [| discriminate].
  apply bind_Ok_inv in H. destruct H as [rows [Hr H]].
  apply norm_indices_of_nat_inv in Hr. destruct Hr as [-> _].
  apply bind_Ok_inv in H. destruct H as [sh [_ H]].
  match type of H with
  | (if ?c then _ else _) = _ => destruct c; [| discriminate]
  end.
  injection H as <-.
  intros j r Hj Hin. rewrite get_build by exact Hin.
  rewrite Nat.eqb_refl, find_index_seq.
  destruct (Nat.leb_spec a (a + j)); [| lia].
  destruct (Nat.ltb_spec (a + j) (a + n)); [| lia].
  cbn [andb]. replace (a + j - a) with j by lia. reflexivity.
Qed.

Section WindowResults.

Variable wiener :
  Tensor -> Tensor -> Z -> bool -> option string -> result Tensor.
Variable self : Separator.
Variables sp mx : Tensor.
Variable nbf : Z.

Lemma refine_frames_stored fuel sample : forall pos bs T calls T',
  (0 <= pos)%Z ->
  refine_frames wiener self sp mx nbf fuel sample pos bs T = (calls, Ok T') ->
  Forall (fun c => wc_sample c = sample /\ stored wiener (shape T) T' c)
    calls.
Proof.
  induction fuel as [| fuel IH]; intros pos bs T calls T' Hpos H;
    cbn [refine_frames] in H.
  - destruct (pos <? nbf)%Z; [discriminate |].
    injection H as <- _. constructor.
  - destruct (Z.ltb_spec pos nbf) as [Hp | Hp];
      [| injection H as <- _; constructor].
    destruct (next_window nbf pos bs) as [[t pos'] | e |] eqn:Hw;
      try discriminate.
    apply next_window_spec in Hw; [| exact Hp].
    destruct Hw as (Hbs & -> & ->).
    set (pos' := Z.min nbf (pos + bs)) in *.
    destruct (refine_window wiener self sp mx sample (zrange pos pos') T)
      as [calls1 [T1 | e |]] eqn:Hwin; try discriminate.
    destruct (refine_frames wiener self sp mx nbf fuel sample pos' bs T1)
      as [calls2 r] eqn:Hrest.
    injection H as <- ->.
    assert (Hput : exists s m w,
               calls1 =
               [mkWienerCall sample (zrange pos pos') s m (niter self) false
                  (residual self)] /\
               wiener s m (niter self) false (residual self) = Ok w /\
               index_put_rows T sample (zrange pos pos') w = Ok T1).
    { unfold refine_window in Hwin.
      destruct (index_rows sp sample (zrange pos pos')) as [s | e |];
        cbn [bind] in Hwin; try discriminate.
      destruct (index_rows mx sample (zrange pos pos')) as [m | e |];
        cbn [bind] in Hwin; try discriminate.
      injection Hwin as <- Hwin.
      apply bind_Ok_inv in Hwin. destruct Hwin as [w [Hw Hput]].
      exists s, m, w. repeat split; assumption. }
    destruct Hput as (s & m & w & -> & Hwi & Hput).
    assert (Hout : shape T' = shape T1 /\
                   forall s0 i r0,
                     in_bounds (shape T1) (s0 :: i :: r0) = true ->
                     s0 <> sample \/ (Z.of_nat i < pos')%Z \/
                     (nbf <= Z.of_nat i)%Z ->
                     get T' (s0 :: i :: r0) = get T1 (s0 :: i :: r0)).
    { apply (refine_frames_outside wiener self sp mx nbf fuel sample pos' bs);
        [unfold pos'; lia | rewrite Hrest; reflexivity]. }
    destruct Hout as [S2 G2].
    assert (S1 : shape T1 = shape T)
      by exact (proj2 (index_put_rows_canonical _ _ _ _ _ Hput)).
    rewrite (zrange_as_seq pos pos' Hpos) in Hput |- *.
    cbn [app]. constructor.
    + split; [reflexivity |].
      exists w, (Z.to_nat pos), (Z.to_nat (pos' - pos)).
      split; [reflexivity |]. split; [exact Hwi |].
      intros j r0 Hj Hin. cbn [wc_sample] in *.
      rewrite G2; [| rewrite S1; exact Hin | unfold pos' in *; lia].
      exact (index_put_rows_inside _ _ _ _ _ _ Hput j r0 Hj Hin).
    + apply IH in Hrest; [| unfold pos'; lia].
      rewrite S1 in Hrest. exact Hrest.
Qed.

Lemma refine_samples_stored samples : forall T calls T',
  NoDup samples ->
  refine_samples wiener self sp mx nbf samples T = (calls, Ok T') ->
  shape T' = shape T /\
  Forall (stored wiener (shape T) T') calls /\
  forall s i r,
    in_bounds (shape T) (s :: i :: r) = true ->
    ~ In s samples \/ (nbf <= Z.of_nat i)%Z ->
    get T' (s :: i :: r) = get T (s :: i :: r).
Proof.
  induction samples as [| sample samples IH]; intros T calls T' Hnd H;
    cbn [refine_samples] in H.
  - injection H as <- <-. repeat split. constructor.
  - destruct (refine_frames wiener self sp mx nbf (Z.to_nat nbf) sample 0%Z
                (effective_batch_size self nbf) T)
      as [calls1 [T1 | e |]] eqn:Hf; try discriminate.
    destruct (refine_samples wiener self sp mx nbf samples T1)
      as [calls2 r] eqn:Hr.
    injection H as <- ->.
    inversion Hnd as [| ? ? Hnotin Hnd']; subst.
    destruct (IH _ _ _ Hnd' Hr) as (S2 & F2 & G2).
    pose proof (refine_frames_stored _ _ _ _ _ _ _ (Z.le_refl 0) Hf) as F1.
    destruct (refine_frames_outside wiener self sp mx nbf (Z.to_nat nbf)
                sample 0%Z (effective_batch_size self nbf) T T1
                (Z.le_refl 0)) as [S1 G1];
      [rewrite Hf; reflexivity |].
    split; [congruence |]. split.
    + apply Forall_app. split.
      * eapply Forall_impl; [| exact F1].
        intros c [Es (w & a & n & Hfr & Hw & Hg)].
        exists w, a, n. split; [exact Hfr |]. split; [exact Hw |].
        intros j r0 Hj Hin. rewrite Es in *.
        rewrite G2;
          [| rewrite S1; exact Hin | left; exact Hnotin].
        apply Hg; assumption.
      * rewrite S1 in F2. exact F2.
    + intros s i r0 Hin Hout.
      rewrite G2; [| rewrite S1; exact Hin |].
      * apply G1; [exact Hin |].
        destruct Hout as [Hs | Hi]; [| lia].
        left. intros E. apply Hs. left. symmetry. exact E.
      * destruct Hout as [Hs | Hi]; [| right; exact Hi].
        left. intros E. apply Hs. right. exact E.
Qed.

End WindowResults.

(** X17. When the loops over the samples and their frames complete, the
    refined tensor, which keeps its shape, holds for every call made what
    the refinement returned for it, at the frames of the window of the
    call, of the sample of the call; its entries for another sample, or
    for a frame past the last one, are as they were. *)
Theorem refined_tensor_holds_window_results :
  forall wiener self sp mx (nb_frames nb_samples : nat) T calls T',
    refine_samples wiener self sp mx (Z.of_nat nb_frames)
      (seq 0 nb_samples) T = (calls, Ok T') ->
    shape T' = shape T /\
    Forall
      (fun c =>
         exists w a n,
           wc_frames c = map Z.of_nat (seq a n) /\
           wiener (wc_spectrograms c) (wc_mix_stft c) (wc_iterations c)
             (wc_use_softmask c) (wc_residual c) = Ok w /\
           forall j r,
             j < n ->
             in_bounds (shape T) (wc_sample c :: a + j :: r) = true ->
             get T' (wc_sample c :: a + j :: r) = get_bcast w (j :: r))
      calls /\
    forall s i r,
      in_bounds (shape T) (s :: i :: r) = true ->
      nb_samples <= s \/ nb_frames <= i ->
      get T' (s :: i :: r) = get T (s :: i :: r).
Proof.
  intros wiener self sp mx nb_frames nb_samples T calls T' H.
  destruct (refine_samples_stored wiener self sp mx (Z.of_nat nb_frames)
              (seq 0 nb_samples) T calls T' (seq_NoDup _ _) H)
    as (S1 & F1 & G1).
  split; [exact S1 |]. split; [exact F1 |].
  intros s i r Hin Hout. apply G1; [exact Hin |].
  destruct Hout as [Hs | Hi]; [left | right; lia].
  intros E. apply in_seq in E. lia.
Qed.

Lemma refined_tensor_holds_window_results_witness :
  exists calls T',
    refine_samples wiener_model (sep_A (Some 2%Z)) spectrograms_W mix_stft_W
      3 [0] targets_stft_W = (calls, Ok T') /\
    shape T' = [1; 3; 2; 1; 2; 2] /\
    length calls = 2.
Proof.
  assert (H : exists calls T',
             refine_samples wiener_model (sep_A (Some 2%Z)) spectrograms_W
               mix_stft_W 3 [0] targets_stft_W = (calls, Ok T') /\
             length calls = 2)
    by (do 2 eexists; split; [run_model; reflexivity | reflexivity]).
  destruct H as (calls & T' & H & L). exists calls, T'.
  split; [exact H |]. split; [| exact L].
  exact (proj1 (refined_tensor_holds_window_results wiener_model
                  (sep_A (Some 2%Z)) spectrograms_W mix_stft_W 3 1
                  targets_stft_W calls T' H)).
Defined.

(** *** What [Separator.forward] returns *)

Lemma refine_samples_canonical wiener self sp mx n samples : forall T T',
  canonical T ->
  snd (refine_samples wiener self sp mx (Z.of_nat n) samples T) = Ok T' ->
  canonical T' /\ shape T' = shape T.
Proof.
  induction samples as [| sample samples IH]; intros T T' Hc H;
    cbn [refine_samples] in H.
  - injection H as <-. split; [exact Hc | reflexivity].
  - pose proof (refine_frames_canonical wiener self sp mx n
                  (Z.to_nat (Z.of_nat n)) sample 0%Z
                  (effective_batch_size self (Z.of_nat n)) T) as Hf.
    destruct (refine_frames wiener self sp mx (Z.of_nat n)
                (Z.to_nat (Z.of_nat n)) sample 0%Z
                (effective_batch_size self (Z.of_nat n)) T)
      as [calls [T1 | e |]]; try discriminate.
    destruct (Hf T1 Hc eq_refl) as [Hc1 S1].
    destruct (refine_samples wiener self sp mx (Z.of_nat n) samples T1)
      as [calls' r] eqn:Hr.
    cbn [snd] in H. subst r.
    destruct (IH T1 T') as [Hc' S'];
      [exact Hc1 | rewrite Hr; reflexivity |].
    split; [exact Hc' | congruence].
Qed.

(** The model that is left in [unmix_target] after the loop over the
    targets is the last of them. *)
Lemma estimate_targets_last torch_stft ts :
  forall j nb audio acc h sp ut h',
    ts <> [] ->
    estimate_targets torch_stft ts j nb audio acc h = Ok (Some (sp, ut), h') ->
    exists name, nth_error ts (length ts - 1) = Some (name, ut).
Proof.
  induction ts as [| [name m] ts IH]; intros j nb audio acc h sp ut h' Hne H;
    [contradiction |].
  cbn [estimate_targets] in H.
  apply bind_Ok_inv in H. destruct H as [[out h1] [_ H]].
  apply bind_Ok_inv in H. destruct H as [sp1 [_ H]].
  destruct ts as [| t ts].
  - cbn [estimate_targets] in H. injection H as _ <- _.
    exists name. reflexivity.
  - apply IH in H; [| discriminate].
    destruct H as [name' H]. exists name'.
    replace (length ((name, m) :: t :: ts) - 1)
      with (S (length (t :: ts) - 1)) by (cbn [length]; lia).
    exact H.
Qed.

(** X18. What [Separator.forward] returns is what the inverse transform
    returns for the refined tensor with its axes permuted: the tensor the
    loops over samples and frames leave, started from zeros on the stacked
    estimates and the mixture transform, with entry [(s, j, c, b, f, k)] of
    what the inverse transform is given being entry [(s, f, b, c, k, j)] of
    it.  The inverse transform is called with the [n_fft], the hop, the
    window and the centring of the last target, whatever those of the
    other targets, and the length of the mixture.  The tensor it is given
    has six axes, the second of them for the sources: one for each target,
    and one more with a residual. *)
Theorem Separator_forward_inverse_transform :
  forall torch_stft istft wiener self audio h v h',
    Separator_forward torch_stft istft wiener self audio h = Ok (v, h') ->
    exists name nb_samples sp mx ut nb_frames T' T t audio_v len,
      Separator_analysis torch_stft self audio h =
      Ok (nb_samples, sp, mx, ut, h') /\
      nth_error (targets self) (length (targets self) - 1) =
      Some (name, ut) /\
      size_at sp 1 = Ok nb_frames /\
      snd (refine_samples wiener self sp mx (Z.of_nat nb_frames)
             (seq 0 nb_samples)
             (zeros (shape mx ++ [effective_nb_sources self]))) = Ok T' /\
      permute [0; 5; 3; 2; 1; 4] T' = Ok T /\
      (forall s j c b f k,
         in_bounds (shape T) [s; j; c; b; f; k] = true ->
         get T [s; j; c; b; f; k] = get T' [s; f; b; c; k; j]) /\
      load h' audio = Ok audio_v /\
      size_last audio_v = Ok len /\
      length (shape T) = 6 /\
      nth 1 (shape T) 0 = effective_nb_sources self /\
      istft T (n_fft (stft ut)) (n_hop (stft ut)) (window (stft ut))
        (center (stft ut)) false true "reflect"%string len = Ok t /\
      v = PyTensor t.
Proof.
  intros torch_stft istft wiener self audio h v h' H.
  unfold Separator_forward, Separator_forward_traced in H.
  destruct (Separator_analysis torch_stft self audio h)
    as [[[[[nb_samples sp] mx] ut] h1] | e |] eqn:Ha;
    try discriminate.
  destruct ((length (effective_targets self) =? 1) && (0 <? niter self)%Z);
    [discriminate |].
  unfold Separator_analysis in Ha.
  apply bind_Ok_inv in Ha. destruct Ha as [av [_ Ha]].
  apply bind_Ok_inv in Ha. destruct Ha as [n [_ Ha]].
  apply bind_Ok_inv in Ha. destruct Ha as [[acc h2] [He Ha]].
  destruct acc as [[sp0 ut0] |]; [| discriminate].
  apply bind_Ok_inv in Ha. destruct Ha as [sp1 [_ Ha]].
  apply bind_Ok_inv in Ha. destruct Ha as [av1 [_ Ha]].
  apply bind_Ok_inv in Ha. destruct Ha as [m0 [_ Ha]].
  apply bind_Ok_inv in Ha. destruct Ha as [m1 [Hm Ha]].
  injection Ha as -> -> -> -> ->.
  assert (Hne : targets self <> []).
  { intros E. rewrite E in He. cbn [estimate_targets] in He.
    discriminate. }
  destruct (estimate_targets_last _ _ _ _ _ _ _ _ _ _ Hne He)
    as [name Hlast].
  assert (Sm : length (shape mx) = 5).
  { unfold permute in Hm.
    destruct (is_permutation [0; 3; 2; 1; 4] (dim m0)); [| discriminate].
    injection Hm as <-. reflexivity. }
  unfold Separator_synthesis in H.
  destruct (size_at sp 1) as [nb_frames | e |] eqn:Hf; try discriminate.
  pose proof (refine_samples_canonical wiener self sp mx nb_frames
                (seq 0 nb_samples)
                (zeros (shape mx ++ [effective_nb_sources self]))) as Hc.
  destruct (refine_samples wiener self sp mx (Z.of_nat nb_frames)
              (seq 0 nb_samples)
              (zeros (shape mx ++ [effective_nb_sources self])))
    as [calls r] eqn:Hr.
  cbn [snd] in H, Hc.
  apply bind_Ok_inv in H. destruct H as [T' [-> H]].
  destruct (Hc T' (build_canonical _ _) eq_refl) as [_ ST].
  apply bind_Ok_inv in H. destruct H as [T2 [HT2 H]].
  apply bind_Ok_inv in H. destruct H as [av2 [Hl H]].
  apply bind_Ok_inv in H. destruct H as [len [Hlen H]].
  apply bind_Ok_inv in H. destruct H as [est [Hi H]].
  injection H as <- <-.
  unfold fmap in Hi. apply bind_Ok_inv in Hi. destruct Hi as [t [Hi E]].
  injection E as <-.
  exists name, nb_samples, sp, mx, ut, nb_frames, T', T2, t, av2, len.
  split; [reflexivity |]. split; [exact Hlast |].
  split; [exact Hf |]. split; [rewrite Hr; reflexivity |].
  split; [exact HT2 |].
  assert (ST' : length (shape T') = 6).
  { rewrite ST. cbn [zeros build shape]. rewrite length_app, Sm.
    reflexivity. }
  assert (S2 : shape T2 =
               map (fun d => nth d (shape T') 0) [0; 5; 3; 2; 1; 4]).
  { unfold permute in HT2.
    destruct (is_permutation [0; 5; 3; 2; 1; 4] (dim T')); [| discriminate].
    injection HT2 as <-. reflexivity. }
  split.
  { intros s j c b f k Hin. unfold permute in HT2.
    destruct (is_permutation [0; 5; 3; 2; 1; 4] (dim T')); [| discriminate].
    injection HT2 as <-. unfold dim in *. rewrite ST'.
    cbn [shape build] in Hin. rewrite get_build by exact Hin.
    reflexivity. }
  split; [exact Hl |]. split; [exact Hlen |].
  split; [rewrite S2; reflexivity |].
  split; [| split; [exact Hi | reflexivity]].
  rewrite S2, ST. cbn [map nth zeros build shape].
  rewrite app_nth2 by lia. rewrite Sm. reflexivity.
Qed.

Lemma Separator_forward_inverse_transform_witness :
  exists v h' T' T t,
    Separator_forward stub_stft stub_istft wiener_model (sep_A None)
      handle_A [audio_A] = Ok (v, h') /\
    permute [0; 5; 3; 2; 1; 4] T' = Ok T /\
    nth 1 (shape T) 0 = 2 /\
    stub_istft T 2 1 (ones 2) true false true "reflect" 2 = Ok t /\
    v = PyTensor t.
Proof.
  assert (H : exists v h',
             Separator_forward stub_stft stub_istft wiener_model
               (sep_A None) handle_A [audio_A] = Ok (v, h'))
    by (do 2 eexists; run_model; reflexivity).
  destruct H as (v & h' & H).
  destruct (Separator_forward_inverse_transform stub_stft stub_istft
              wiener_model (sep_A None) handle_A [audio_A] v h' H)
    as (name & nb_samples & sp & mx & ut & nb_frames & T' & T & t & av &
        len & _ & Hlast & _ & _ & HT & _ & Hl & Hlen & _ & Hsrc & Hi & Hv).
  injection Hlast as _ <-.
  assert (El : len = 2).
  { apply load_shape in Hl. unfold size_last in Hlen. rewrite Hl in Hlen.
    injection Hlen as <-. reflexivity. }
  subst len. exists v, h', T', T, t. repeat split; assumption.
Defined.

(** *** The stacked estimates *)

Lemma set_last_inv t j v t' :
  set_last t j v = Ok t' ->
  shape t' = shape t /\
  forall idx k,
    in_bounds (shape t) (idx ++ [k]) = true ->
    get t' (idx ++ [k]) =
    if k =? j then get_bcast v idx else get t (idx ++ [k]).
Proof.
  unfold set_last. intros H.
  apply bind_Ok_inv in H. destruct H as [d [_ H]].
  destruct (j <? d); [| discriminate].
  apply bind_Ok_inv in H. destruct H as [sh [_ H]].
  destruct (list_eq_dec Nat.eq_dec sh (removelast (shape t)));
    [| discriminate].
  injection H as <-. split; [reflexivity |].
  intros idx k Hin. rewrite get_build by exact Hin.
  rewrite last_last, removelast_last. reflexivity.
Qed.

(** Each target writes its estimate to its own slot of the last axis, and
    leaves the slots before it. *)
Lemma estimate_targets_slots torch_stft ts :
  forall j nb audio spA utA h acc' h',
    (forall name m, In (name, m) ts -> input_is_spectrogram m = false) ->
    estimate_targets torch_stft ts j nb audio (Some (spA, utA)) h =
    Ok (acc', h') ->
    exists sp' ut',
      acc' = Some (sp', ut') /\
      shape sp' = shape spA /\
      (forall idx k,
          k < j ->
          in_bounds (shape spA) (idx ++ [k]) = true ->
          get sp' (idx ++ [k]) = get spA (idx ++ [k])) /\
      (forall k name m,
          nth_error ts k = Some (name, m) ->
          exists added out h0,
            length added = k /\
            OpenUnmix_forward torch_stft m audio (h ++ added) =
            Ok (out, h0) /\
            forall idx,
              in_bounds (shape spA) (idx ++ [j + k]) = true ->
              get sp' (idx ++ [j + k]) = get_bcast out idx).
Proof.
  induction ts as [| [name0 m0] ts IH];
    intros j nb audio spA utA h acc' h' Hw H; cbn [estimate_targets] in H.
  - injection H as <- _. exists spA, utA.
    split; [reflexivity |]. split; [reflexivity |].
    split; [reflexivity |].
    intros [| k] name m Hk; discriminate Hk.
  - apply bind_Ok_inv in H. destruct H as [[out0 h1] [Hf H]].
    apply bind_Ok_inv in H. destruct H as [sp1 [Hset H]].
    apply set_last_inv in Hset. destruct Hset as [S1 G1].
    destruct (OpenUnmix_forward_waveform_store _ _ _ _ _ _
                (Hw name0 m0 (or_introl eq_refl)) Hf) as [p Eh].
    apply IH in H; [| intros n' m' Hin; apply (Hw n'); right; exact Hin].
    destruct H as (sp' & ut' & -> & S' & Gkeep & Gset).
    exists sp', ut'. split; [reflexivity |].
    split; [congruence |].
    split; [| intros [| k] name m Hk].
    + intros idx k Hk Hin.
      rewrite Gkeep; [| lia | rewrite S1; exact Hin].
      rewrite G1 by exact Hin.
      destruct (Nat.eqb_spec k j); [lia | reflexivity].
    + injection Hk as <- <-. exists [], out0, h1.
      split; [reflexivity |]. rewrite app_nil_r. split; [exact Hf |].
      intros idx Hin. rewrite Nat.add_0_r in *.
      rewrite Gkeep; [| lia | rewrite S1; exact Hin].
      rewrite G1 by exact Hin. rewrite Nat.eqb_refl. reflexivity.
    + cbn [nth_error] in Hk.
      destruct (Gset k name m Hk) as (added & out & h0 & Hl & Hfk & Gk).
      exists (p :: added), out, h0.
      split; [cbn [length]; rewrite Hl; reflexivity |].
      split.
      * rewrite Eh, <- app_assoc in Hfk. exact Hfk.
      * intros idx Hin.
        replace (j + S k) with (S j + k) in * by lia.
        apply Gk. rewrite S1. exact Hin.
Qed.

(** X19. The stacked estimates that [Separator.forward] passes on hold,
    in slot [j] of their last axis, the estimate of the [j]-th target for
    the mixture, with samples and frames, and channels and bins,
    exchanged: entry [(s, f, b, c, j)] is entry [(f, s, c, b)] of that
    estimate, broadcast to the shape of the first.  The target ran on the
    caller's store, followed by the spectrograms of the targets before
    it. *)
Theorem analysis_stacks_estimates :
  forall torch_stft self audio h nb_samples sp mx ut h1,
    Separator_analysis torch_stft self audio h =
    Ok (nb_samples, sp, mx, ut, h1) ->
    forall j name m,
      nth_error (targets self) j = Some (name, m) ->
      exists added out h0,
        length added = j /\
        load (h ++ added) audio = load h audio /\
        OpenUnmix_forward torch_stft m audio (h ++ added) = Ok (out, h0) /\
        forall s f b c,
          in_bounds (shape sp) [s; f; b; c; j] = true ->
          get sp [s; f; b; c; j] = get_bcast out [f; s; c; b].
Proof.
  intros torch_stft self audio h nb_samples sp mx ut h1 Ha j name m Hj.
  pose proof (analysis_targets_waveform _ _ _ _ _ Ha) as Hw.
  unfold Separator_analysis in Ha.
  apply bind_Ok_inv in Ha. destruct Ha as [av [Hav Ha]].
  apply bind_Ok_inv in Ha. destruct Ha as [n [_ Ha]].
  apply bind_Ok_inv in Ha. destruct Ha as [[acc h2] [He Ha]].
  destruct acc as [[sp0 ut0] |]; [| discriminate].
  apply bind_Ok_inv in Ha. destruct Ha as [sp1 [Hperm Ha]].
  apply bind_Ok_inv in Ha. destruct Ha as [av1 [_ Ha]].
  apply bind_Ok_inv in Ha. destruct Ha as [m0 [_ Ha]].
  apply bind_Ok_inv in Ha. destruct Ha as [m1 [_ Ha]].
  injection Ha as _ <- _ _ _.
  assert (Hload : forall added, load (h ++ added) audio = load h audio).
  { intros added. unfold load in *.
    destruct (nth_error h (h_loc audio)) as [base |] eqn:Hb;
      [| discriminate].
    rewrite nth_error_app1 by (apply nth_error_Some; congruence).
    rewrite Hb. reflexivity. }
  (* the slots of the tensor before the permutation *)
  assert (Hslots :
            exists added out h0,
              length added = j /\
              OpenUnmix_forward torch_stft m audio (h ++ added) =
              Ok (out, h0) /\
              forall idx,
                in_bounds (shape sp0) (idx ++ [j]) = true ->
                get sp0 (idx ++ [j]) = get_bcast out idx).
  { destruct (targets self) as [| [name0 mod0] ts] eqn:Et;
      [destruct j; discriminate |].
    cbn [estimate_targets] in He.
    apply bind_Ok_inv in He. destruct He as [[out0 h3] [Hf He]].
    apply bind_Ok_inv in He. destruct He as [spA [Hset He]].
    apply set_last_inv in Hset. destruct Hset as [SA GA].
    destruct (OpenUnmix_forward_waveform_store _ _ _ _ _ _
                (Hw name0 mod0 (or_introl eq_refl)) Hf) as [p Eh].
    apply estimate_targets_slots in He;
      [| intros n' m' Hin; apply (Hw n'); right; exact Hin].
    destruct He as (sp' & ut' & E & S' & Gkeep & Gset).
    injection E as <- <-.
    destruct j as [| k].
    - injection Hj as <- <-. exists [], out0, h3.
      split; [reflexivity |]. rewrite app_nil_r. split; [exact Hf |].
      intros idx Hin. rewrite S' in Hin.
      rewrite Gkeep; [| lia | exact Hin].
      rewrite SA in Hin. rewrite GA by exact Hin. reflexivity.
    - cbn [nth_error] in Hj.
      destruct (Gset k name m Hj) as (added & out & h0 & Hl & Hfk & Gk).
      exists (p :: added), out, h0.
      split; [cbn [length]; rewrite Hl; reflexivity |].
      split.
      + rewrite Eh, <- app_assoc in Hfk. exact Hfk.
      + intros idx Hin. rewrite S' in Hin.
        exact (Gk idx Hin). }
  destruct Hslots as (added & out & h0 & Hl & Hf & G).
  exists added, out, h0.
  split; [exact Hl |]. split; [apply Hload |]. split; [exact Hf |].
  intros s f b c Hin.
  unfold permute in Hperm.
  destruct (is_permutation [1; 0; 3; 2; 4] (dim sp0)) eqn:Hp;
    [| discriminate].
  injection Hperm as <-.
  unfold is_permutation in Hp. apply andb_prop in Hp.
  destruct Hp as [Hp _]. apply Nat.eqb_eq in Hp.
  unfold dim in *.
  destruct (shape sp0) as [| a0 [| a1 [| a2 [| a3 [| a4 [| ? ?]]]]]] eqn:S0;
    try discriminate Hp.
  cbn [shape build map nth] in Hin.
  rewrite get_build by exact Hin.
  cbn [length seq map index_of Nat.eqb nth].
  apply (G [f; s; c; b]).
  cbn [in_bounds app] in *.
  repeat (apply andb_prop in Hin; destruct Hin as [? Hin]).
  repeat (apply andb_true_intro; split; try assumption).
Qed.

Lemma analysis_stacks_estimates_witness :
  exists nb_samples sp mx ut h1 added out h0,
    Separator_analysis stub_stft (sep_A None) handle_A [audio_A] =
    Ok (nb_samples, sp, mx, ut, h1) /\
    length added = 1 /\
    OpenUnmix_forward stub_stft model_A handle_A ([audio_A] ++ added) =
    Ok (out, h0) /\
    forall s f b c,
      in_bounds (shape sp) [s; f; b; c; 1] = true ->
      get sp [s; f; b; c; 1] = get_bcast out [f; s; c; b].
Proof.
  assert (H : exists a,
             Separator_analysis stub_stft (sep_A None) handle_A [audio_A] =
             Ok a) by (eexists; run_model; reflexivity).
  destruct H as [[[[[nb_samples sp] mx] ut] h1] H].
  destruct (analysis_stacks_estimates stub_stft (sep_A None) handle_A
              [audio_A] nb_samples sp mx ut h1 H 1 "drums"%string model_A
              eq_refl)
    as (added & out & h0 & Hl & _ & Hf & G).
  exists nb_samples, sp, mx, ut, h1, added, out, h0.
  repeat split; assumption.
Defined.

(** X20. The transform of the mixture that [Separator.forward] passes on
    is computed by the [STFT] of the last target, from the mixture as the
    caller gave it, with frames and channels exchanged: entry [(s, f, b, c,
    k)] is entry [(s, c, b, f, k)] of the transform.  The number of samples
    is the size of the first axis of the mixture. *)
Theorem analysis_mixture_transform :
  forall torch_stft self audio h nb_samples sp mx ut h1,
    Separator_analysis torch_stft self audio h =
    Ok (nb_samples, sp, mx, ut, h1) ->
    exists name av st,
      nth_error (targets self) (length (targets self) - 1) =
      Some (name, ut) /\
      load h audio = Ok av /\
      size_at av 0 = Ok nb_samples /\
      STFT_forward torch_stft (stft ut) av = Ok st /\
      forall s f b c k,
        in_bounds (shape mx) [s; f; b; c; k] = true ->
        get mx [s; f; b; c; k] = get st [s; c; b; f; k].
Proof.
  intros torch_stft self audio h nb_samples sp mx ut h1 Ha.
  pose proof (analysis_targets_waveform _ _ _ _ _ Ha) as Hw.
  unfold Separator_analysis in Ha.
  apply bind_Ok_inv in Ha. destruct Ha as [av [Hav Ha]].
  apply bind_Ok_inv in Ha. destruct Ha as [n [Hn Ha]].
  apply bind_Ok_inv in Ha. destruct Ha as [[acc h2] [He Ha]].
  destruct acc as [[sp0 ut0] |]; [| discriminate].
  apply bind_Ok_inv in Ha. destruct Ha as [sp1 [_ Ha]].
  apply bind_Ok_inv in Ha. destruct Ha as [av1 [Hav1 Ha]].
  apply bind_Ok_inv in Ha. destruct Ha as [st [Hst Ha]].
  apply bind_Ok_inv in Ha. destruct Ha as [m1 [Hperm Ha]].
  injection Ha as <- _ <- <- _.
  assert (Hne : targets self <> []).
  { intros E. rewrite E in He. cbn [estimate_targets] in He.
    discriminate. }
  destruct (estimate_targets_last _ _ _ _ _ _ _ _ _ _ Hne He)
    as [name Hlast].
  destruct (estimate_targets_store _ _ _ _ _ _ _ _ _ Hw He)
    as [added [Eh _]].
  assert (E1 : av1 = av).
  { rewrite Eh in Hav1. unfold load in *.
    destruct (nth_error h (h_loc audio)) as [base |] eqn:Hb;
      [| discriminate].
    rewrite nth_error_app1 in Hav1 by (apply nth_error_Some; congruence).
    rewrite Hb in Hav1. congruence. }
  subst av1.
  exists name, av, st. repeat split; try assumption.
  intros s f b c k Hin.
  unfold permute in Hperm.
  destruct (is_permutation [0; 3; 2; 1; 4] (dim st)) eqn:Hp;
    [| discriminate].
  injection Hperm as <-.
  unfold is_permutation in Hp. apply andb_prop in Hp.
  destruct Hp as [Hp _]. apply Nat.eqb_eq in Hp.
  unfold dim in *.
  destruct (shape st) as [| a0 [| a1 [| a2 [| a3 [| a4 [| ? ?]]]]]] eqn:S0;
    try discriminate Hp.
  cbn [shape build map nth] in Hin.
  rewrite get_build by exact Hin.
  reflexivity.
Qed.

Lemma analysis_mixture_transform_witness :
  exists nb_samples sp mx ut h1 st,
    Separator_analysis stub_stft (sep_A None) handle_A [audio_A] =
    Ok (nb_samples, sp, mx, ut, h1) /\
    STFT_forward stub_stft (stft ut) audio_A = Ok st /\
    forall s f b c k,
      in_bounds (shape mx) [s; f; b; c; k] = true ->
      get mx [s; f; b; c; k] = get st [s; c; b; f; k].
Proof.
  assert (H : exists a,
             Separator_analysis stub_stft (sep_A None) handle_A [audio_A] =
             Ok a) by (eexists; run_model; reflexivity).
  destruct H as [[[[[nb_samples sp] mx] ut] h1] H].
  destruct (analysis_mixture_transform stub_stft (sep_A None) handle_A
              [audio_A] nb_samples sp mx ut h1 H)
    as (name & av & st & _ & Hav & _ & Hst & G).
  assert (E : av = audio_A).
  { assert (L : load [audio_A] handle_A = Ok audio_A)
      by (run_model; reflexivity).
    rewrite L in Hav. injection Hav as <-. reflexivity. }
  rewrite E in Hst.
  exists nb_samples, sp, mx, ut, h1, st. repeat split; assumption.
Defined.

Lemma windows_from_functional nbf bs pos ws1 :
  windows_from nbf bs pos ws1 ->
  forall ws2, windows_from nbf bs pos ws2 -> ws1 = ws2.
Proof.
  induction 1 as [pos Hend | pos ws Hlt Hbs Hws IH]; intros ws2 H2.
  - inversion H2; subst; [reflexivity | lia].
  - inversion H2; subst; [lia |]. f_equal. apply IH. assumption.
Qed.

Lemma refine_samples_sequence wiener self sp mx nbf samples ws :
  windows_from nbf (effective_batch_size self nbf) 0 ws ->
  forall T calls T',
    refine_samples wiener self sp mx nbf samples T = (calls, Ok T') ->
    map (fun c => (wc_sample c, wc_frames c)) calls =
    flat_map (fun s => map (pair s) ws) samples.
Proof.
  intros Hws.
  induction samples as [| sample samples IH]; intros T calls T' H;
    cbn [refine_samples] in H.
  - injection H as <- _. reflexivity.
  - pose proof (refine_frames_passed wiener self sp mx nbf (Z.to_nat nbf)
                  sample 0%Z (effective_batch_size self nbf) T) as Hp.
    destruct (refine_frames wiener self sp mx nbf (Z.to_nat nbf) sample 0%Z
                (effective_batch_size self nbf) T)
      as [calls1 [T1 | e |]] eqn:Hf; try discriminate.
    destruct (refine_samples wiener self sp mx nbf samples T1)
      as [calls2 r] eqn:Hr.
    injection H as <- ->.
    apply refine_frames_windows in Hf.
    pose proof (windows_from_functional _ _ _ _ Hf _ Hws) as Ews.
    cbn [flat_map fst] in *. rewrite map_app, (IH _ _ _ Hr).
    f_equal. rewrite <- Ews, map_map.
    clear - Hp. induction Hp as [| c l [Hc _] _ IHl]; [reflexivity |].
    cbn [map]. rewrite Hc, IHl. reflexivity.
Qed.

(** X21. The calls of the refinement come sample by sample, in the order
    of the samples, and for each sample window by window, in the order of
    the frames: the same windows for every sample. *)
Theorem wiener_call_sequence :
  forall wiener self sp mx (nb_frames nb_samples : nat) T calls T',
    refine_samples wiener self sp mx (Z.of_nat nb_frames)
      (seq 0 nb_samples) T = (calls, Ok T') ->
    exists ws,
      (0 < nb_samples ->
       windows_from (Z.of_nat nb_frames)
         (effective_batch_size self (Z.of_nat nb_frames)) 0 ws) /\
      map (fun c => (wc_sample c, wc_frames c)) calls =
      flat_map (fun s => map (pair s) ws) (seq 0 nb_samples).
Proof.
  intros wiener self sp mx nb_frames nb_samples T calls T' H.
  destruct nb_samples as [| n].
  - cbn [seq refine_samples] in H. injection H as <- _.
    exists []. split; [lia | reflexivity].
  - assert (Hws : exists ws,
               windows_from (Z.of_nat nb_frames)
                 (effective_batch_size self (Z.of_nat nb_frames)) 0 ws).
    { cbn [seq refine_samples] in H.
      destruct (refine_frames wiener self sp mx (Z.of_nat nb_frames)
                  (Z.to_nat (Z.of_nat nb_frames)) 0 0%Z
                  (effective_batch_size self (Z.of_nat nb_frames)) T)
        as [calls1 [T1 | e |]] eqn:Hf; try discriminate.
      exists (map wc_frames calls1).
      exact (refine_frames_windows _ _ _ _ _ _ _ _ _ _ _ _ Hf). }
    destruct Hws as [ws Hws]. exists ws.
    split; [intros _; exact Hws |].
    exact (refine_samples_sequence _ _ _ _ _ _ _ Hws _ _ _ H).
Qed.

Lemma wiener_call_sequence_witness :
  exists calls T',
    refine_samples wiener_model (sep_A (Some 2%Z)) spectrograms_W mix_stft_W
      3 [0] targets_stft_W = (calls, Ok T') /\
    map (fun c => (wc_sample c, wc_frames c)) calls =
    [(0, [0; 1]%Z); (0, [2]%Z)].
Proof.
  assert (H : exists calls T',
             refine_samples wiener_model (sep_A (Some 2%Z)) spectrograms_W
               mix_stft_W 3 [0] targets_stft_W = (calls, Ok T') /\
             map wc_frames calls = [[0; 1]; [2]]%Z)
    by (do 2 eexists; split; [run_model; reflexivity | reflexivity]).
  destruct H as (calls & T' & H & Hw). exists calls, T'.
  split; [exact H |].
  destruct (wiener_call_sequence wiener_model (sep_A (Some 2%Z))
              spectrograms_W mix_stft_W 3 1 targets_stft_W calls T' H)
    as (ws & Hws & E).
  rewrite E. cbn [seq flat_map]. rewrite app_nil_r. f_equal.
  assert (E2 : map wc_frames calls = ws).
  { rewrite <- (map_map (fun c => (wc_sample c, wc_frames c)) snd), E.
    cbn [seq flat_map]. rewrite app_nil_r, map_map. apply map_id. }
  rewrite <- E2, Hw. reflexivity.
Defined.

(** *** The normalisation the constructor sets up *)

Lemma nth_map_firstn (g : R -> R) n l b :
  b < n -> n <= length l ->
  nth b (map g (firstn n l)) 0%R = g (nth b l 0%R).
Proof.
  intros Hb Hn.
  rewrite (nth_indep _ 0%R (g 0%R))
    by (rewrite length_map, length_firstn; lia).
  rewrite map_nth, nth_firstn.
  destruct (Nat.ltb_spec b n); [reflexivity | lia].
Qed.

(** X22. An estimator built for spectrograms with [input_mean] and
    [input_scale], of [nb_bins] entries at least, standardises its input
    where it stands: when [forward] returns, the caller's tensor holds [(x
    - input_mean[b]) * (1 / input_scale[b])] at every entry of a bin [b]
    below [nb_bins], and what it held at the other entries. *)
Theorem OpenUnmix_forward_standardises :
  forall hann_window torch_stft n_fft n_hop hidden_size nb_channels
         sample_rate mean scale max_bin power layers x h out h' base
         F S C d,
    let self :=
      OpenUnmix_init hann_window n_fft n_hop true hidden_size nb_channels
        sample_rate (Some mean) (Some scale) max_bin power layers in
    nb_bins self <= length mean ->
    nb_bins self <= length scale ->
    nth_error h (h_loc x) = Some base ->
    shape base = [F; S; C; d] ->
    h_shape x = [F; S; C; d] ->
    OpenUnmix_forward torch_stft self x h = Ok (out, h') ->
    exists base',
      nth_error h' (h_loc x) = Some base' /\
      shape base' = [F; S; C; d] /\
      forall f s c b,
        in_bounds [F; S; C; d] [f; s; c; b] = true ->
        get base' [f; s; c; b] =
        if b <? nb_bins self
        then ((get base [f; s; c; b] - nth b mean 0) *
              (1 / nth b scale 0))%R
        else get base [f; s; c; b].
Proof.
  intros hann_window torch_stft n_fft n_hop hidden_size nb_channels
         sample_rate mean scale max_bin power layers x h out h' base
         F S C d self Hm Hs Hb Sb Hx H.
  assert (Hsp : input_is_spectrogram self = true) by reflexivity.
  assert (Em : input_mean self =
               vector (map Ropp (firstn (nb_bins self) mean)))
    by reflexivity.
  assert (Es : input_scale self =
               vector (map (fun v => (1 / v)%R)
                         (firstn (nb_bins self) scale)))
    by reflexivity.
  clearbody self.
  apply OpenUnmix_forward_inv in H.
  destruct H as (x1 & h1 & F' & S' & C' & d' & mix & sh & h2 & xv & y1 &
                 y2 & y3 & Ht & _ & _ & Hsh & H2 & H3 & _).
  unfold OpenUnmix_transform in Ht. rewrite Hsp in Ht.
  injection Ht as <- <-. unfold NoOp_forward in *.
  rewrite Hx, narrow_last_shape_4 in Hsh. injection Hsh as <-.
  rewrite (inplace_view_twice _ _ _ (mkHandle (h_loc x) _) _ _ _ _ base
             Hb H2 H3).
  cbn [h_loc h_shape]. eexists. split;
    [apply nth_error_update_same; apply nth_error_Some; congruence |].
  split; [exact Sb |].
  intros f s c b Hin. rewrite Sb, get_build by exact Hin.
  cbn [in_bounds] in Hin |- *.
  apply andb_prop in Hin. destruct Hin as [Hf Hin].
  apply andb_prop in Hin. destruct Hin as [Hs0 Hin].
  apply andb_prop in Hin. destruct Hin as [Hc Hin].
  rewrite andb_true_r in Hin. apply Nat.ltb_lt in Hin.
  rewrite Hf, Hs0, Hc. cbn [andb]. rewrite andb_true_r.
  destruct (Nat.ltb_spec b (nb_bins self)) as [L | L].
  - destruct (Nat.ltb_spec b (Nat.min (nb_bins self) d)); [| lia].
    rewrite Em, Es.
    rewrite !get_bcast_vector
      by (rewrite length_map, length_firstn; lia).
    rewrite !nth_map_firstn by assumption.
    unfold Rminus. reflexivity.
  - destruct (Nat.ltb_spec b (Nat.min (nb_bins self) d)); [lia |].
    reflexivity.
Qed.

Lemma OpenUnmix_forward_standardises_witness :
  exists out h' base',
    OpenUnmix_forward stub_stft model_S2 handle_S [spec_S] = Ok (out, h') /\
    nth_error h' 0 = Some base' /\
    get base' [0; 0; 0; 1] = ((4 - 1) * (1 / 2))%R.
Proof.
  assert (H : exists out h',
             OpenUnmix_forward stub_stft model_S2 handle_S [spec_S] =
             Ok (out, h')) by (do 2 eexists; run_model; reflexivity).
  destruct H as [out [h' H]].
  destruct (OpenUnmix_forward_standardises stub_hann_window stub_stft
              2 1 1 1 44100%Z [1%R; 1%R] [2%R; 2%R] None 1%R
              (zero_layers 1 2) handle_S [spec_S] out h' spec_S 1 1 1 2
              (Nat.le_refl 2) (Nat.le_refl 2) eq_refl eq_refl eq_refl H)
    as (base' & Hb & _ & G).
  exists out, h', base'. split; [exact H |]. split; [exact Hb |].
  exact (G 0 0 0 1 eq_refl).
Defined.

(** *** Around the layers of [OpenUnmix.forward] *)

Lemma clamp_index_id sh : forall idx,
  in_bounds sh idx = true -> clamp_index sh idx = idx.
Proof.
  induction sh as [| d sh IH]; intros [| i idx] H; simpl in H;
    try discriminate; [reflexivity |].
  apply andb_prop in H. destruct H as [Hi Hr]. apply Nat.ltb_lt in Hi.
  cbn [clamp_index]. rewrite (IH _ Hr).
  destruct (Nat.eqb_spec d 1); [f_equal; lia | reflexivity].
Qed.

(** An operand that has the shape of the result is read at the index
    itself. *)
Lemma get_bcast_same t idx :
  in_bounds (shape t) idx = true -> get_bcast t idx = get t idx.
Proof.
  intros H. unfold get_bcast, bcast_index.
  rewrite (in_bounds_length _ _ H), Nat.sub_diag. cbn [skipn].
  rewrite clamp_index_id by exact H. reflexivity.
Qed.

(** Rows of frames and samples, columns of channels and bins: what
    [reshape(-1, C * n)] makes of four axes. *)
Lemma get_reshape_rows t F S C n f s c b :
  shape t = [F; S; C; n] ->
  get (mkTensor [F * S; C * n] (data t)) [f * S + s; c * n + b] =
  get t [f; s; c; b].
Proof.
  intros St. unfold get. rewrite St.
  cbn [shape data ravel numel fold_right]. f_equal. lia.
Qed.

(** X23. The first layer of [OpenUnmix.forward] sees the bins below
    [nb_bins] only.  Whenever [forward] returns, on a spectrogram of shape
    [(F, S, C, d)] with [nb_bins <= d], given by the caller or computed
    from the waveform, [fc1] was applied to a tensor of shape [(F * S, C *
    nb_bins)], whose entry [(f * S + s, c * nb_bins + b)] is [(x +
    input_mean) * input_scale] for the entry [(f, s, c, b)] of the
    spectrogram. *)
Theorem OpenUnmix_forward_first_layer_input :
  forall torch_stft self x h out h',
    (input_is_spectrogram self = true ->
     forall base, nth_error h (h_loc x) = Some base ->
                  shape base = h_shape x) ->
    OpenUnmix_forward torch_stft self x h = Ok (out, h') ->
    exists x1 h1 mix F S C d x_in y,
      OpenUnmix_transform torch_stft self x h = Ok (x1, h1) /\
      load h1 x1 = Ok mix /\
      shape mix = [F; S; C; d] /\
      fc1 (layers self) x_in = Ok y /\
      (nb_bins self <= d ->
       shape x_in = [F * S; C * nb_bins self] /\
       forall f s c b,
         f < F -> s < S -> c < C -> b < nb_bins self ->
         get x_in [f * S + s; c * nb_bins self + b] =
         ((get mix [f; s; c; b] +
           get_bcast (input_mean self) [f; s; c; b]) *
          get_bcast (input_scale self) [f; s; c; b])%R).
Proof.
  intros torch_stft self x h out h' Hsh H.
  apply OpenUnmix_forward_inv in H.
  destruct H as (x1 & h1 & F & S & C & d & mix & sh & h2 & xv & y1 & y2 &
                 y3 & Ht & Hx1 & Hmix & Hnar & H2 & H3 & Hxv & Hnet & _).
  (* the tensor behind the handle the transform gave *)
  assert (Hbase : exists base,
             nth_error h1 (h_loc x1) = Some base /\
             shape base = h_shape x1).
  { unfold OpenUnmix_transform in Ht.
    destruct (input_is_spectrogram self) eqn:Hs.
    - injection Ht as <- <-. unfold NoOp_forward in *.
      unfold load in Hmix.
      destruct (nth_error h (h_loc x)) as [base |] eqn:Hb;
        [| discriminate].
      exists base. split; [reflexivity | exact (Hsh eq_refl base eq_refl)].
    - apply bind_Ok_inv in Ht. destruct Ht as [v [_ Ht]].
      apply bind_Ok_inv in Ht. destruct Ht as [s0 [_ Ht]].
      apply bind_Ok_inv in Ht. destruct Ht as [p [_ Ht]].
      unfold alloc in Ht. injection Ht as <- <-. exists p.
      cbn [h_loc h_shape]. split; [| reflexivity].
      rewrite nth_error_app2 by lia. rewrite Nat.sub_diag. reflexivity. }
  destruct Hbase as [base [Hb Sb]].
  unfold OpenUnmix_network in Hnet.
  apply bind_Ok_inv in Hnet. destruct Hnet as [x_in [Hre Hnet]].
  apply bind_Ok_inv in Hnet. destruct Hnet as [y [Hfc1 _]].
  exists x1, h1, mix, F, S, C, d, x_in, y.
  split; [exact Ht |]. split; [exact Hmix |].
  split; [rewrite (load_shape _ _ _ Hmix); exact Hx1 |].
  split; [exact Hfc1 |].
  intros Hd.
  rewrite Hx1, narrow_last_shape_4 in Hnar. injection Hnar as <-.
  rewrite Nat.min_l in * by exact Hd.
  pose proof (inplace_view_twice _ _ _ (mkHandle (h_loc x1) _) _ _ _ _ base
                Hb H2 H3) as Eh.
  cbn [h_loc h_shape] in Eh.
  unfold load in Hxv. cbn [h_loc h_shape] in Hxv. rewrite Eh in Hxv.
  rewrite nth_error_update_same in Hxv
    by (apply nth_error_Some; congruence).
  injection Hxv as Exv.
  assert (Sxv : shape xv = [F; S; C; nb_bins self])
    by (rewrite <- Exv; reflexivity).
  unfold reshape in Hre. rewrite Sxv in Hre.
  apply bind_Ok_inv in Hre. destruct Hre as [sh' [Hi Hre]].
  injection Hre as <-.
  change [(-1)%Z; Z.of_nat (C * nb_bins self)]
    with (map Z.of_nat [] ++ (-1)%Z :: map Z.of_nat [C * nb_bins self])
    in Hi.
  apply infer_shape_one in Hi. destruct Hi as [k [-> [Hn Hk]]].
  assert (Ek : k = F * S).
  { cbn [numel fold_right app] in Hn, Hk.
    rewrite !Nat.mul_1_r, ?Nat.mul_1_l in Hn, Hk. nia. }
  subst k. cbn [app shape]. split; [reflexivity |].
  intros f s c b Hf Hs Hc Hbn.
  assert (Hin : in_bounds [F; S; C; nb_bins self] [f; s; c; b] = true).
  { cbn [in_bounds].
    rewrite (proj2 (Nat.ltb_lt _ _) Hf), (proj2 (Nat.ltb_lt _ _) Hs),
      (proj2 (Nat.ltb_lt _ _) Hc), (proj2 (Nat.ltb_lt _ _) Hbn).
    reflexivity. }
  assert (Hin' : in_bounds (shape base) [f; s; c; b] = true).
  { rewrite Sb, Hx1. cbn [in_bounds].
    rewrite (proj2 (Nat.ltb_lt _ _) Hf), (proj2 (Nat.ltb_lt _ _) Hs),
      (proj2 (Nat.ltb_lt _ _) Hc).
    destruct (Nat.ltb_spec b d); [reflexivity | lia]. }
  rewrite (get_reshape_rows xv F S C (nb_bins self)) by exact Sxv.
  rewrite <- Exv.
  rewrite get_build by exact Hin. rewrite get_build by exact Hin'.
  cbn [in_bounds] in Hin |- *. rewrite Hin.
  assert (Em : get mix [f; s; c; b] = get base [f; s; c; b]).
  { unfold load in Hmix. rewrite Hb in Hmix. injection Hmix as <-.
    rewrite get_build; [reflexivity |].
    rewrite <- Sb. exact Hin'. }
  rewrite Em. reflexivity.
Qed.

Lemma OpenUnmix_forward_first_layer_input_witness :
  exists out h' x_in y,
    OpenUnmix_forward stub_stft model_S2 handle_S [spec_S] = Ok (out, h') /\
    fc1 (layers model_S2) x_in = Ok y /\
    shape x_in = [1; 2] /\
    get x_in [0; 1] =
    ((get spec_S [0; 0; 0; 1]%nat +
      get_bcast (input_mean model_S2) [0; 0; 0; 1]%nat) *
     get_bcast (input_scale model_S2) [0; 0; 0; 1]%nat)%R.
Proof.
  assert (H : exists out h',
             OpenUnmix_forward stub_stft model_S2 handle_S [spec_S] =
             Ok (out, h')) by (do 2 eexists; run_model; reflexivity).
  destruct H as [out [h' H]].
  destruct (OpenUnmix_forward_first_layer_input stub_stft model_S2 handle_S
              [spec_S] out h')
    as (x1 & h1 & mix & F & S & C & d & x_in & y & Ht & Hmix & Sm & Hfc &
        G).
  - intros _ base E. injection E as <-. reflexivity.
  - exact H.
  - injection Ht as <- <-.
    assert (E : mix = spec_S).
    { assert (L : load [spec_S] handle_S = Ok spec_S)
        by (run_model; reflexivity).
      change (load [spec_S] handle_S = Ok mix) in Hmix.
      rewrite L in Hmix. injection Hmix as <-. reflexivity. }
    subst mix. injection Sm as <- <- <- <-.
    destruct (G (Nat.le_refl 2)) as [Sx Gx].
    exists out, h', x_in, y.
    split; [exact H |]. split; [exact Hfc |]. split; [exact Sx |].
    exact (Gx 0 0 0 1 Nat.lt_0_1 Nat.lt_0_1 Nat.lt_0_1 Nat.lt_1_2).
Defined.

Lemma inplace_inv f x v y :
  inplace f x v = Ok y ->
  y = build (shape x) (fun idx => f (get x idx) (get_bcast v idx)).
Proof.
  unfold inplace. intros H.
  apply bind_Ok_inv in H. destruct H as [sh [_ H]].
  destruct (list_eq_dec Nat.eq_dec sh (shape x)); [| discriminate].
  injection H as <-. reflexivity.
Qed.

(** X24. After its last layer, [OpenUnmix.forward] reads the output of
    [bn3] as [(F, S, C, nb_output_bins)], scales and shifts it bin by bin,
    and multiplies its positive part with the mixture: on a spectrogram of
    [nb_output_bins] bins, entry [(f, s, c, b)] of the estimate is [relu(y
    * output_scale + output_mean) * mix] at that entry. *)
Theorem OpenUnmix_forward_output_stage :
  forall torch_stft self x h out h',
    OpenUnmix_forward torch_stft self x h = Ok (out, h') ->
    exists x1 h1 mix F S C d y_in y,
      OpenUnmix_transform torch_stft self x h = Ok (x1, h1) /\
      load h1 x1 = Ok mix /\
      shape mix = [F; S; C; d] /\
      bn3 (layers self) y_in = Ok y /\
      (d = nb_output_bins self ->
       shape out = [F; S; C; d] /\
       forall f s c b,
         in_bounds [F; S; C; d] [f; s; c; b] = true ->
         get out [f; s; c; b] =
         (relu (get (mkTensor [F; S; C; d] (data y)) [f; s; c; b] *
                get_bcast (output_scale self) [f; s; c; b] +
                get_bcast (output_mean self) [f; s; c; b]) *
          get mix [f; s; c; b])%R).
Proof.
  intros torch_stft self x h out h' H.
  apply OpenUnmix_forward_inv in H.
  destruct H as (x1 & h1 & F & S & C & d & mix & sh & h2 & xv & y1 & y2 &
                 y3 & Ht & Hx1 & Hmix & _ & _ & _ & _ & Hnet & Hy2 & Hy3 &
                 Hmul).
  assert (Sm : shape mix = [F; S; C; d])
    by (rewrite (load_shape _ _ _ Hmix); exact Hx1).
  unfold OpenUnmix_network in Hnet.
  do 10 (apply bind_Ok_inv in Hnet; destruct Hnet as [? [_ Hnet]]).
  apply bind_Ok_inv in Hnet. destruct Hnet as [y_in [_ Hnet]].
  apply bind_Ok_inv in Hnet. destruct Hnet as [y [Hbn3 Hre]].
  exists x1, h1, mix, F, S, C, d, y_in, y.
  split; [exact Ht |]. split; [exact Hmix |]. split; [exact Sm |].
  split; [exact Hbn3 |].
  intros Ed.
  unfold reshape in Hre.
  apply bind_Ok_inv in Hre. destruct Hre as [sh1 [Hi Hre]].
  apply (infer_shape_all _ [_; _; _; _]) in Hi. subst sh1.
  rewrite <- Ed in Hre. injection Hre as E1.
  apply inplace_inv in Hy2. apply inplace_inv in Hy3.
  assert (S1 : shape y1 = [F; S; C; d]) by (rewrite <- E1; reflexivity).
  assert (S2 : shape y2 = [F; S; C; d]) by (rewrite Hy2; exact S1).
  assert (S3 : shape y3 = [F; S; C; d]) by (rewrite Hy3; exact S2).
  unfold mul, binop in Hmul.
  apply bind_Ok_inv in Hmul. destruct Hmul as [bsh [Hb Hmul]].
  cbn [map_tensor shape] in Hb. rewrite S3, Sm in Hb.
  rewrite broadcast_shapes_same in Hb. injection Hb as <-.
  injection Hmul as <-. split; [reflexivity |].
  intros f s c b Hin.
  rewrite get_build by exact Hin.
  rewrite get_bcast_same by (cbn [map_tensor shape]; rewrite S3; exact Hin).
  rewrite get_bcast_same by (rewrite Sm; exact Hin).
  rewrite get_map_tensor;
    [| rewrite S3; exact Hin | rewrite Hy3; apply build_length].
  f_equal. f_equal.
  rewrite Hy3, S2, get_build by exact Hin.
  rewrite Hy2, S1, get_build by exact Hin.
  rewrite <- E1. reflexivity.
Qed.

Lemma OpenUnmix_forward_output_stage_witness :
  exists out h' y_in y,
    OpenUnmix_forward stub_stft model_S0 handle_S [spec_S] = Ok (out, h') /\
    bn3 (layers model_S0) y_in = Ok y /\
    shape out = [1; 1; 1; 2] /\
    get out [0; 0; 0; 1]%nat =
    (relu (get (mkTensor [1; 1; 1; 2]%nat (data y)) [0; 0; 0; 1]%nat *
           get_bcast (output_scale model_S0) [0; 0; 0; 1]%nat +
           get_bcast (output_mean model_S0) [0; 0; 0; 1]%nat) *
     get spec_S [0; 0; 0; 1]%nat)%R.
Proof.
  assert (H : exists out h',
             OpenUnmix_forward stub_stft model_S0 handle_S [spec_S] =
             Ok (out, h')) by (do 2 eexists; run_model; reflexivity).
  destruct H as [out [h' H]].
  destruct (OpenUnmix_forward_output_stage stub_stft model_S0 handle_S
              [spec_S] out h' H)
    as (x1 & h1 & mix & F & S & C & d & y_in & y & Ht & Hmix & Sm & Hbn &
        G).
  injection Ht as <- <-.
  assert (E : mix = spec_S).
  { assert (L : load [spec_S] handle_S = Ok spec_S)
      by (run_model; reflexivity).
    change (load [spec_S] handle_S = Ok mix) in Hmix.
      rewrite L in Hmix. injection Hmix as <-. reflexivity. }
  subst mix. injection Sm as <- <- <- <-.
  destruct (G eq_refl) as [So Go].
  exists out, h', y_in, y.
  split; [exact H |]. split; [exact Hbn |]. split; [exact So |].
  exact (Go 0 0 0 1 eq_refl).
Defined.
